(** * aethel-ts: the LRU cache and the doubly linked list

    A shallow embedding of [LRUCache] (pkg/cache) and [DoublyLinkedList]
    (pkg/list) and the properties their design document states about them.

    Objects live in an object store: a node reference is an index into a
    list of node records (an arena), [null] is [None].  A [new] appends a
    record to the store; nothing is ever removed from it, so a node that
    left its chain stays inspectable, which is what the statements about
    cleared links need.  Every method is a function from the state before
    the call to the result and the state after it. *)

From Stdlib Require Import ZArith QArith Qround Lia.
From stdpp Require Import base option list gmap strings.

Set Warnings "-clear-no-such-hyp".

Close Scope Q_scope.
Open Scope Z_scope.

(** ** JavaScript numbers, as far as the cache compares them *)

Module JSNumber.

(** A [number] is a double: a finite value (kept as the rational it
    denotes), an infinity or NaN.  Only the comparisons are modelled. *)
Inductive number : Type :=
  | NaN
  | PosInfinity
  | NegInfinity
  | Finite (q : Q).

Definition of_Z (z : Z) : number := Finite (inject_Z z).

(** [a <= b]; every comparison with NaN is false. *)
Definition le (a b : number) : bool :=
  match a, b with
  | NaN, _ | _, NaN => false
  | NegInfinity, _ => true
  | _, PosInfinity => true
  | PosInfinity, _ => false
  | _, NegInfinity => false
  | Finite x, Finite y => Qle_bool x y
  end.

(** [a > b] *)
Definition gt (a b : number) : bool :=
  match a, b with
  | NaN, _ | _, NaN => false
  | _, PosInfinity => false
  | NegInfinity, _ => false
  | PosInfinity, _ => true
  | _, NegInfinity => true
  | Finite x, Finite y => negb (Qle_bool x y)
  end.

(** The numbers [1, 2, 3, ...]. *)
Definition is_positive_integer (n : number) : Prop :=
  match n with
  | Finite q => ∃ z : Z, 0 < z ∧ Qeq q (inject_Z z)
  | _ => False
  end.

(** [a < b] *)
Definition lt (a b : number) : bool :=
  match a, b with
  | NaN, _ | _, NaN => false
  | PosInfinity, _ => false
  | _, NegInfinity => false
  | _, PosInfinity => true
  | NegInfinity, _ => true
  | Finite x, Finite y => negb (Qle_bool y x)
  end.

(** [a >= b], which holds when [b <= a] does. *)
Definition ge (a b : number) : bool := le b a.

(** [a === b]: NaN equals nothing, itself included. *)
Definition strict_eq (a b : number) : bool :=
  match a, b with
  | PosInfinity, PosInfinity | NegInfinity, NegInfinity => true
  | Finite x, Finite y => Qeq_bool x y
  | _, _ => false
  end.

(** [a / b], the quotient kept exact where it is finite.  The two zeros
    are not told apart: a zero divisor stands for [+0]. *)
Definition div (a b : number) : number :=
  match a, b with
  | NaN, _ | _, NaN => NaN
  | (PosInfinity | NegInfinity), (PosInfinity | NegInfinity) => NaN
  | PosInfinity, Finite y => if Qle_bool 0 y then PosInfinity else NegInfinity
  | NegInfinity, Finite y => if Qle_bool 0 y then NegInfinity else PosInfinity
  | Finite _, (PosInfinity | NegInfinity) => Finite 0
  | Finite x, Finite y =>
      if Qeq_bool y 0
      then (if Qeq_bool x 0 then NaN
            else if Qle_bool 0 x then PosInfinity else NegInfinity)
      else Finite (x / y)
  end.

End JSNumber.

(** What a call produces: a value, or a thrown [Error] with its message. *)
Inductive outcome (A : Type) : Type :=
| Ok (a : A)
| Throw (message : string).
Arguments Ok {A} a.
Arguments Throw {A} message.

(** The [===] of the values of one type. *)
Class StrictEq (T : Type) := strict_eq : T → T → bool.

#[export] Instance number_strict_eq : StrictEq JSNumber.number := JSNumber.strict_eq.
#[export] Instance Z_strict_eq : StrictEq Z := Z.eqb.
#[export] Instance bool_strict_eq : StrictEq bool := Bool.eqb.
#[export] Instance string_strict_eq : StrictEq string := String.eqb.

(** [x === undefined], for the values of a type: no number, boolean or
    string is [undefined]; of an optional value, [None] is. *)
Class Undefined (T : Type) := is_undefined : T → bool.

#[export] Instance number_undefined : Undefined JSNumber.number := λ _, false.
#[export] Instance Z_undefined : Undefined Z := λ _, false.
#[export] Instance bool_undefined : Undefined bool := λ _, false.
#[export] Instance string_undefined : Undefined string := λ _, false.
#[export] Instance option_undefined {T : Type} : Undefined (option T) :=
  λ x, match x with None => true | Some _ => false end.

(** ** The object store *)

Abbreviation loc := nat (only parsing).

(** Both node classes carry a [prev] and a [next] reference; the chain
    predicates below only look at those. *)
Class Linked (N : Type) := {
  node_prev : N → option loc;
  node_next : N → option loc;
  node_set_prev : option loc → N → N;
  node_set_next : option loc → N → N;
  prev_set_prev : ∀ v n, node_prev (node_set_prev v n) = v;
  next_set_prev : ∀ v n, node_next (node_set_prev v n) = node_next n;
  prev_set_next : ∀ v n, node_prev (node_set_next v n) = node_prev n;
  next_set_next : ∀ v n, node_next (node_set_next v n) = v
}.

Section Store.
  Context {N : Type} `{Linked N}.

(** [node.prev] and [node.next] *)
Definition prev_of (h : list N) (node : loc) : option loc := h !! node ≫= node_prev.
Definition next_of (h : list N) (node : loc) : option loc := h !! node ≫= node_next.

(** [node.prev = v] and [node.next = v] *)
Definition set_prev (node : loc) (v : option loc) (h : list N) : list N :=
  alter (node_set_prev v) node h.
Definition set_next (node : loc) (v : option loc) (h : list N) : list N :=
  alter (node_set_next v) node h.

Definition first_or (ls : list loc) (d : option loc) : option loc :=
  match ls with [] => d | x :: _ => Some x end.
Definition last_or (ls : list loc) (d : option loc) : option loc :=
  match last ls with None => d | Some x => Some x end.

(** [dseg h p ls n]: the nodes [ls] are linked to one another in this
    order, both ways; the first one's [prev] is [p], the last one's
    [next] is [n]. *)
Fixpoint dseg (h : list N) (p : option loc) (ls : list loc) (n : option loc) : Prop :=
  match ls with
  | [] => True
  | x :: ls' =>
      (x < length h)%nat ∧ prev_of h x = p ∧ next_of h x = first_or ls' n ∧
      dseg h (Some x) ls' n
  end.

(** The chain from [hd] to [tl] is exactly [ls]: distinct nodes, linked
    both ways, with absent links at both ends. *)
Definition is_chain (h : list N) (hd tl : option loc) (ls : list loc) : Prop :=
  NoDup ls ∧ dseg h None ls None ∧ hd = first_or ls None ∧ tl = last_or ls None.

(** Following [next] from [current] until [null]; [None] when the fuel
    runs out first. *)
Fixpoint walk (fuel : nat) (h : list N) (current : option loc) : option (list loc) :=
  match current with
  | None => Some []
  | Some c =>
      match fuel with
      | O => None
      | S fuel => (c ::.) <$> walk fuel h (next_of h c)
      end
  end.

(** The loop of both [clear] methods: every node of the chain gets its
    two links cleared. *)
Fixpoint clear_links (fuel : nat) (h : list N) (current : option loc) : option (list N) :=
  match current with
  | None => Some h
  | Some c =>
      match fuel with
      | O => None
      | S fuel =>
          let next := next_of h c in
          let h := set_prev c None h in
          let h := set_next c None h in
          clear_links fuel h next
      end
  end.

(** The loop the read-only traversals share,
    [let current = head; let index = 0;
     while (current !== null) { body; current = current.next; index++ }].
    The [body] reads the node and the index and either goes on with
    the loop's variables updated ([inl]) or returns from the method
    ([inr]).  [None] when the fuel runs out first; a reference always
    designates an object, so the branch for a node outside the store is
    never taken. *)
Fixpoint traverse {A R : Type} (fuel : nat) (h : list N) (body : N → Z → A → A + R)
    (current : option loc) (index : Z) (acc : A) : option (A + R) :=
  match current with
  | None => Some (inl acc)
  | Some c =>
      match fuel with
      | O => None
      | S fuel =>
          match h !! c with
          | None => None
          | Some node =>
              match body node index acc with
              | inr r => Some (inr r)
              | inl acc => traverse fuel h body (node_next node) (index + 1) acc
              end
          end
      end
  end.

(** The same loop over the nodes it visits, given as a list. *)
Fixpoint scan {A R : Type} (body : N → Z → A → A + R) (nodes : list N) (index : Z) (acc : A) : A + R :=
  match nodes with
  | [] => inl acc
  | node :: nodes =>
      match body node index acc with
      | inr r => inr r
      | inl acc => scan body nodes (index + 1) acc
      end
  end.

End Store.

(** ** LRUCache (pkg/cache) *)

Module LRUCache.

(** [class LRUNode<K, V>] *)
Record LRUNode (K V : Type) : Type := mkLRUNode {
    key : K;
    value : V;
    prev : option loc;
    next : option loc
  }.
  Arguments mkLRUNode {K V} key value prev next.
  Arguments key {K V} _.
  Arguments value {K V} _.
  Arguments prev {K V} _.
  Arguments next {K V} _.

#[export] Instance LRUNode_linked {K V} : Linked (LRUNode K V) := {|
    node_prev := prev;
    node_next := next;
    node_set_prev := λ v n, mkLRUNode (key n) (value n) v (next n);
    node_set_next := λ v n, mkLRUNode (key n) (value n) (prev n) v;
    prev_set_prev := λ _ _, eq_refl;
    next_set_prev := λ _ _, eq_refl;
    prev_set_next := λ _ _, eq_refl;
    next_set_next := λ _ _, eq_refl
  |}.

  Section Cache.
    Context {K : Type} `{Countable K} {V : Type}.

(** The fields of the class, and the store its nodes live in.  The
    counters only ever move by one from zero; they are kept as
    integers. *)
Record LRUCache : Type := mkLRUCache {
    capacity : JSNumber.number;
    cache : gmap K loc;
    head : option loc;
    tail : option loc;
    _size : Z;
    _hits : Z;
    _misses : Z;
    _evictions : Z;
    heap : list (LRUNode K V)
  }.

Definition set_cache (m : gmap K loc) (s : LRUCache) : LRUCache :=
  mkLRUCache (capacity s) m (head s) (tail s) (_size s) (_hits s) (_misses s) (_evictions s) (heap s).
Definition set_head (v : option loc) (s : LRUCache) : LRUCache :=
  mkLRUCache (capacity s) (cache s) v (tail s) (_size s) (_hits s) (_misses s) (_evictions s) (heap s).
Definition set_tail (v : option loc) (s : LRUCache) : LRUCache :=
  mkLRUCache (capacity s) (cache s) (head s) v (_size s) (_hits s) (_misses s) (_evictions s) (heap s).
Definition set_size (z : Z) (s : LRUCache) : LRUCache :=
  mkLRUCache (capacity s) (cache s) (head s) (tail s) z (_hits s) (_misses s) (_evictions s) (heap s).
Definition set_hits (z : Z) (s : LRUCache) : LRUCache :=
  mkLRUCache (capacity s) (cache s) (head s) (tail s) (_size s) z (_misses s) (_evictions s) (heap s).
Definition set_misses (z : Z) (s : LRUCache) : LRUCache :=
  mkLRUCache (capacity s) (cache s) (head s) (tail s) (_size s) (_hits s) z (_evictions s) (heap s).
Definition set_evictions (z : Z) (s : LRUCache) : LRUCache :=
  mkLRUCache (capacity s) (cache s) (head s) (tail s) (_size s) (_hits s) (_misses s) z (heap s).
Definition set_heap (h : list (LRUNode K V)) (s : LRUCache) : LRUCache :=
  mkLRUCache (capacity s) (cache s) (head s) (tail s) (_size s) (_hits s) (_misses s) (_evictions s) h.

(** [node.key], [node.value] and [node.value = v] *)
Definition key_of (h : list (LRUNode K V)) (node : loc) : option K := key <$> h !! node.
Definition value_of (h : list (LRUNode K V)) (node : loc) : option V := value <$> h !! node.
Definition set_value (node : loc) (v : V) (h : list (LRUNode K V)) : list (LRUNode K V) :=
  alter (λ n, mkLRUNode (key n) v (prev n) (next n)) node h.

(** [constructor(capacity: number)] *)
Definition constructor (capacity : JSNumber.number) : outcome LRUCache :=
  if JSNumber.le capacity (JSNumber.of_Z 0)
  then Throw "LRUCache capacity must be greater than 0"
  else Ok (mkLRUCache capacity ∅ None None 0 0 0 0 []).

Definition size (s : LRUCache) : Z := _size s.
Definition maxCapacity (s : LRUCache) : JSNumber.number := capacity s.
Definition hits (s : LRUCache) : Z := _hits s.
Definition misses (s : LRUCache) : Z := _misses s.
Definition evictions (s : LRUCache) : Z := _evictions s.

(** [get hitRate()]: the quotient is kept exact; the method returns the
    double nearest to it. *)
Definition hitRate (s : LRUCache) : Q :=
  let total := _hits s + _misses s in
  if total =? 0 then 0%Q else (inject_Z (_hits s) / inject_Z total)%Q.

Definition isEmpty (s : LRUCache) : bool := _size s =? 0.
Definition isFull (s : LRUCache) : bool :=
  JSNumber.le (capacity s) (JSNumber.of_Z (_size s)).

(** [private addToHead(node)] *)
Definition addToHead (node : loc) (s : LRUCache) : LRUCache :=
  let s := set_heap (set_prev node None (heap s)) s in
  let s := set_heap (set_next node (head s) (heap s)) s in
  let s := match head s with
           | Some h => set_heap (set_prev h (Some node) (heap s)) s
           | None => s
           end in
  let s := set_head (Some node) s in
  match tail s with
  | None => set_tail (Some node) s
  | Some _ => s
  end.

(** [private removeNode(node)]: each statement reads the store as the
    statements before it left it. *)
Definition removeNode (node : loc) (s : LRUCache) : LRUCache :=
  let s := match prev_of (heap s) node with
           | Some p => set_heap (set_next p (next_of (heap s) node) (heap s)) s
           | None => set_head (next_of (heap s) node) s
           end in
  let s := match next_of (heap s) node with
           | Some n => set_heap (set_prev n (prev_of (heap s) node) (heap s)) s
           | None => set_tail (prev_of (heap s) node) s
           end in
  let s := set_heap (set_prev node None (heap s)) s in
  set_heap (set_next node None (heap s)) s.

(** [private moveToHead(node)] *)
Definition moveToHead (node : loc) (s : LRUCache) : LRUCache :=
  if decide (Some node = head s) then s
  else addToHead node (removeNode node s).

(** [private evictTail()].  A reference always designates an object, so
    the branch for a tail outside the store is never taken. *)
Definition evictTail (s : LRUCache) : LRUCache :=
  match tail s with
  | None => s
  | Some t =>
      match key_of (heap s) t with
      | None => s
      | Some evictedKey =>
          let s := removeNode t s in
          let s := set_cache (delete evictedKey (cache s)) s in
          let s := set_size (_size s - 1) s in
          set_evictions (_evictions s + 1) s
      end
  end.

(** [get(key)] *)
Definition get (key : K) (s : LRUCache) : option V * LRUCache :=
  match cache s !! key with
  | None => (None, set_misses (_misses s + 1) s)
  | Some node =>
      let s := set_hits (_hits s + 1) s in
      let s := moveToHead node s in
      (value_of (heap s) node, s)
  end.

(** [put(key, value)]; the method returns [this]. *)
Definition put (key : K) (value : V) (s : LRUCache) : LRUCache :=
  match cache s !! key with
  | Some node =>
      let s := set_heap (set_value node value (heap s)) s in
      moveToHead node s
  | None =>
      let node := length (heap s) in
      let s := set_heap (heap s ++ [mkLRUNode key value None None]) s in
      let s := set_cache (<[key := node]> (cache s)) s in
      let s := addToHead node s in
      let s := set_size (_size s + 1) s in
      if JSNumber.gt (JSNumber.of_Z (_size s)) (capacity s)
      then evictTail s
      else s
  end.

(** [has(key)] *)
Definition has (key : K) (s : LRUCache) : bool * LRUCache :=
  (bool_decide (is_Some (cache s !! key)), s).

(** [delete(key)] *)
Definition delete (key : K) (s : LRUCache) : bool * LRUCache :=
  match cache s !! key with
  | None => (false, s)
  | Some node =>
      let s := removeNode node s in
      let s := set_cache (base.delete key (cache s)) s in
      let s := set_size (_size s - 1) s in
      (true, s)
  end.

(** [peek(key)] *)
Definition peek (key : K) (s : LRUCache) : option V * LRUCache :=
  (cache s !! key ≫= value_of (heap s), s).

Definition entry_of (h : list (LRUNode K V)) (node : loc) : option (K * V) :=
  (λ n, (key n, value n)) <$> h !! node.

(** [getMostRecent()] and [getLeastRecent()] *)
Definition getMostRecent (s : LRUCache) : option (K * V) * LRUCache :=
  (head s ≫= entry_of (heap s), s).
Definition getLeastRecent (s : LRUCache) : option (K * V) * LRUCache :=
  (tail s ≫= entry_of (heap s), s).

(** [clear()]; the loop is bounded by the number of objects in the
    store, [None] when that does not suffice. *)
Definition clear (s : LRUCache) : option LRUCache :=
  h ← clear_links (length (heap s)) (heap s) (head s);
  Some (mkLRUCache (capacity s) ∅ None None 0 0 0 0 h).

(** [resetStats()] *)
Definition resetStats (s : LRUCache) : LRUCache :=
  let s := set_hits 0 s in
  let s := set_misses 0 s in
  set_evictions 0 s.

(** [entries()], [keys()] and [toArray()]: the chain from the head. *)
Definition entries (s : LRUCache) : option (list (K * V)) :=
  ls ← walk (length (heap s)) (heap s) (head s);
  mapM (entry_of (heap s)) ls.
Definition keys (s : LRUCache) : option (list K) :=
  (λ es : list (K * V), fst <$> es) <$> entries s.
Definition toArray (s : LRUCache) : option (list V) :=
  (λ es : list (K * V), snd <$> es) <$> entries s.

(** [contains(value)] goes through [this.cache.values()] and returns at
    the first node whose value is [=== value].  A [Map] is gone through
    in insertion order, which the index does not keep; whether some node
    matches does not depend on the order. *)
Definition contains `{StrictEq V} (value : V) (s : LRUCache) : bool :=
  existsb (λ node, match value_of (heap s) node with
                   | Some v => strict_eq v value
                   | None => false
                   end) (map_to_list (cache s)).*2.

(** [forEach(callback)].  The callback is code of the caller: it changes
    the world [W] outside of the cache and can call the cache, so it
    takes the cache as the loop hands it over and returns it as it leaves
    it; [None] when the callback does not return, [Throw] when it throws,
    which ends [forEach].  The loop reads [current.value] and
    [current.key] before the call and [current.next] after it, in the
    store as the callback left it.  [None] also when the loop has not
    ended within [fuel] rounds. *)
Fixpoint forEach_from {W : Type} (fuel : nat)
    (callback : V → K → Z → W → LRUCache → option (outcome (W * LRUCache)))
    (current : option loc) (index : Z) (w : W) (s : LRUCache) : option (outcome (W * LRUCache)) :=
  match current with
  | None => Some (Ok (w, s))
  | Some c =>
      match fuel with
      | O => None
      | S fuel =>
          match heap s !! c with
          | None => None
          | Some node =>
              match callback (value node) (key node) index w s with
              | None => None
              | Some (Throw m) => Some (Throw m)
              | Some (Ok (w, s)) =>
                  forEach_from fuel callback (next_of (heap s) c) (index + 1) w s
              end
          end
      end
  end.

Definition forEach {W : Type} (fuel : nat)
    (callback : V → K → Z → W → LRUCache → option (outcome (W * LRUCache)))
    (s : LRUCache) (w : W) : option (outcome (W * LRUCache)) :=
  forEach_from fuel callback (head s) 0 w s.

(** [getStats()].  As for [hitRate], the quotient [utilization] is kept
    exact. *)
Record Stats : Type := mkStats {
    stats_size : Z;
    stats_capacity : JSNumber.number;
    stats_hits : Z;
    stats_misses : Z;
    stats_evictions : Z;
    stats_hitRate : Q;
    stats_utilization : JSNumber.number
  }.

Definition getStats (s : LRUCache) : Stats :=
  mkStats (_size s) (capacity s) (_hits s) (_misses s) (_evictions s) (hitRate s)
          (JSNumber.div (JSNumber.of_Z (_size s)) (capacity s)).

(** *** Sequences of calls *)

Inductive op : Type :=
  | Get (key : K)
  | Put (key : K) (value : V)
  | Has (key : K)
  | Delete (key : K)
  | Peek (key : K)
  | GetMostRecent
  | GetLeastRecent
  | Clear
  | ResetStats.

Inductive ret : Type :=
  | RValue (v : option V)
  | RBool (b : bool)
  | REntry (e : option (K * V))
  | RThis
  | RVoid.

(** One call; [None] only when a loop was cut short by its bound. *)
Definition exec (o : op) (s : LRUCache) : option (ret * LRUCache) :=
  match o with
  | Get k => let '(v, s) := get k s in Some (RValue v, s)
  | Put k v => Some (RThis, put k v s)
  | Has k => let '(b, s) := has k s in Some (RBool b, s)
  | Delete k => let '(b, s) := delete k s in Some (RBool b, s)
  | Peek k => let '(v, s) := peek k s in Some (RValue v, s)
  | GetMostRecent => let '(e, s) := getMostRecent s in Some (REntry e, s)
  | GetLeastRecent => let '(e, s) := getLeastRecent s in Some (REntry e, s)
  | Clear => s ← clear s; Some (RVoid, s)
  | ResetStats => Some (RVoid, resetStats s)
  end.

(** The calls [ops] in order, with what each returned. *)
Fixpoint run (ops : list op) (s : LRUCache) : option (list ret * LRUCache) :=
  match ops with
  | [] => Some ([], s)
  | o :: ops =>
      '(r, s) ← exec o s;
      '(rs, s) ← run ops s;
      Some (r :: rs, s)
  end.

(** *** What the design promises of a state *)

(** The nodes reachable from the head, in order. *)
Definition chain_nodes (s : LRUCache) : option (list loc) :=
  walk (length (heap s)) (heap s) (head s).

(** The index maps exactly the keys of the nodes [ls], each to its node. *)
Definition indexed (s : LRUCache) (ls : list loc) : Prop :=
  ∀ k l, cache s !! k = Some l ↔ l ∈ ls ∧ key_of (heap s) l = Some k.

Record inv (s : LRUCache) (ls : list loc) : Prop := mkInv {
    inv_chain : is_chain (heap s) (head s) (tail s) ls;
    inv_index : indexed s ls;
    inv_size : _size s = Z.of_nat (length ls);
    inv_map_size : base.size (cache s) = length ls
  }.

(** Index and chain agree: the index holds exactly the keys of the
    nodes reachable from the head, each mapped to its own node, and
    [_size] counts both. *)
Definition consistent (s : LRUCache) : Prop :=
  ∃ ls, chain_nodes s = Some ls ∧
        is_chain (heap s) (head s) (tail s) ls ∧
        (∀ k, is_Some (cache s !! k) ↔ ∃ l, l ∈ ls ∧ key_of (heap s) l = Some k) ∧
        (∀ k l, cache s !! k = Some l → l ∈ ls ∧ key_of (heap s) l = Some k) ∧
        _size s = Z.of_nat (length ls) ∧
        Z.of_nat (base.size (cache s)) = Z.of_nat (length ls).

(** *** Vocabulary for histories of calls *)

(** [get(k)] and [put(k, _)] touch the key [k]. *)
Definition touches (k : K) (o : op) : bool :=
  match o with
  | Get k' | Put k' _ => bool_decide (k' = k)
  | _ => false
  end.

(** The position (from 1) of the last call of [ops] that touches [k],
    [0] when none does; [n] calls came before [ops]. *)
Fixpoint last_touch_from (n : nat) (k : K) (ops : list op) : nat :=
  match ops with
  | [] => O
  | o :: ops =>
      match last_touch_from (S n) k ops with
      | O => if touches k o then S n else O
      | S m => S m
      end
  end.
Definition last_touch (k : K) (ops : list op) : nat := last_touch_from 0 k ops.

Definition is_get (o : op) : bool := match o with Get _ => true | _ => false end.
Definition is_clear (o : op) : bool := match o with Clear => true | _ => false end.
Definition is_reset (o : op) : bool :=
  match o with Clear | ResetStats => true | _ => false end.

(** The number of [get] calls in [ops] after the last call that
    satisfies [stop]. *)
Fixpoint gets_after (stop : op → bool) (ops : list op) : Z :=
  match ops with
  | [] => 0
  | o :: ops =>
      if existsb stop ops then gets_after stop ops
      else (if is_get o then 1 else 0) + gets_after stop ops
  end.
Definition gets_since_clear (ops : list op) : Z := gets_after is_clear ops.
Definition gets_since_reset (ops : list op) : Z := gets_after is_reset ops.

(** The keys [put] was called with, each once. *)
Definition distinct_keys_put (ops : list op) : Z :=
  Z.of_nat (length (remove_dups
    (omap (λ o, match o with Put k _ => Some k | _ => None end) ops))).

(** The [delete] calls that returned [true]. *)
Fixpoint successful_deletes (ops : list op) (rs : list ret) : Z :=
  match ops, rs with
  | Delete _ :: ops, RBool true :: rs => 1 + successful_deletes ops rs
  | _ :: ops, _ :: rs => successful_deletes ops rs
  | _, _ => 0
  end.

(** What happened since the last [clear]: puts of a key that was
    absent, deletes that found their key, and evictions (each run of
    [evictTail] moves the counter by one). *)
Record tally : Type := mkTally { inserted : Z; deleted : Z; evicted : Z }.

Definition bump (o : op) (s s' : LRUCache) (t : tally) : tally :=
  match o with
  | Put k _ =>
      mkTally (inserted t + (if cache s !! k is Some _ then 0 else 1)) (deleted t)
              (evicted t + (_evictions s' - _evictions s))
  | Delete k =>
      mkTally (inserted t) (deleted t + (if cache s !! k is Some _ then 1 else 0)) (evicted t)
  | Clear => mkTally 0 0 0
  | _ => t
  end.

Fixpoint count (ops : list op) (s : LRUCache) (t : tally) : option tally :=
  match ops with
  | [] => Some t
  | o :: ops => '(_, s') ← exec o s; count ops s' (bump o s s' t)
  end.

(** [peek] and [has] calls, and a history without them. *)
Definition is_observer (o : op) : bool :=
  match o with Peek _ | Has _ => true | _ => false end.
Definition without_observers (ops : list op) : list op :=
  filter (λ o, is_observer o = false) ops.
Fixpoint without_observed (ops : list op) (rs : list ret) : list ret :=
  match ops, rs with
  | o :: ops, r :: rs =>
      if is_observer o then without_observed ops rs else r :: without_observed ops rs
  | _, _ => []
  end.

(** The value of the last [put(k, _)] of [ops] that no [delete(k)] or
    [clear()] follows. *)
Fixpoint last_put (k : K) (ops : list op) : option V :=
  match ops with
  | [] => None
  | o :: ops =>
      match last_put k ops with
      | Some v => Some v
      | None =>
          if existsb (λ o', match o' with
                            | Delete k' => bool_decide (k' = k)
                            | Clear => true
                            | _ => false
                            end) ops then None
          else match o with
               | Put k' v => if decide (k' = k) then Some v else None
               | _ => None
               end
      end
  end.

(** The [get] calls of [ops] after the last [clear] or [resetStats] that
    returned a value ([found]) or [undefined] (not [found]); [rs] is what
    the calls returned. *)
Fixpoint gets_that (found : bool) (ops : list op) (rs : list ret) : Z :=
  match ops, rs with
  | o :: ops, r :: rs =>
      if existsb is_reset ops then gets_that found ops rs
      else match o, r with
           | Get _, RValue (Some _) => if found then 1 else 0
           | Get _, RValue None => if found then 0 else 1
           | _, _ => 0
           end + gets_that found ops rs
  | _, _ => 0
  end.

(** Every node outside of the chain [ls] has both links [null]. *)
Definition unlinked_outside (s : LRUCache) (ls : list loc) : Prop :=
  ∀ y, y ∉ ls → prev_of (heap s) y = None ∧ next_of (heap s) y = None.

(** The calls that can change the order of the entries. *)
Definition is_access (o : op) : bool :=
  match o with Get _ | Put _ _ => true | _ => false end.

(** No call of [ops] is a [delete(k)] or a [clear()]. *)
Definition keeps (k : K) (ops : list op) : Prop :=
  Forall (λ o, match o with
               | Delete k' => k' ≠ k
               | Clear => False
               | _ => True
               end) ops.

(** *** The cache seen as a list of entries

    A proof device: the entries in recency order, most recent first, with
    the capacity and the counters.  [view_step] says what each call does
    to that list; [views] ties a state to its list, and the refinement
    lemmas below show that the methods follow [view_step]. *)

Record view : Type := mkView {
    v_entries : list (K * V);
    v_capacity : JSNumber.number;
    v_hits : Z;
    v_misses : Z;
    v_evictions : Z
  }.

Fixpoint assoc (k : K) (es : list (K * V)) : option V :=
  match es with
  | [] => None
  | e :: es => if decide (e.1 = k) then Some e.2 else assoc k es
  end.

Definition without (k : K) (es : list (K * V)) : list (K * V) :=
  filter (λ e, e.1 ≠ k) es.

Definition view_step (o : op) (a : view) : ret * view :=
  let es := v_entries a in
  match o with
  | Get k =>
      match assoc k es with
      | None => (RValue None,
                 mkView es (v_capacity a) (v_hits a) (v_misses a + 1) (v_evictions a))
      | Some v => (RValue (Some v),
                   mkView ((k, v) :: without k es) (v_capacity a)
                          (v_hits a + 1) (v_misses a) (v_evictions a))
      end
  | Put k v =>
      match assoc k es with
      | Some _ => (RThis, mkView ((k, v) :: without k es) (v_capacity a)
                                 (v_hits a) (v_misses a) (v_evictions a))
      | None =>
          if JSNumber.gt (JSNumber.of_Z (Z.of_nat (length es) + 1)) (v_capacity a)
          then (RThis, mkView (removelast ((k, v) :: es)) (v_capacity a)
                              (v_hits a) (v_misses a) (v_evictions a + 1))
          else (RThis, mkView ((k, v) :: es) (v_capacity a)
                              (v_hits a) (v_misses a) (v_evictions a))
      end
  | Has k => (RBool (bool_decide (is_Some (assoc k es))), a)
  | Delete k =>
      match assoc k es with
      | None => (RBool false, a)
      | Some _ => (RBool true, mkView (without k es) (v_capacity a)
                                      (v_hits a) (v_misses a) (v_evictions a))
      end
  | Peek k => (RValue (assoc k es), a)
  | GetMostRecent => (REntry (list.head es), a)
  | GetLeastRecent => (REntry (last es), a)
  | Clear => (RVoid, mkView [] (v_capacity a) 0 0 0)
  | ResetStats => (RVoid, mkView es (v_capacity a) 0 0 0)
  end.

Fixpoint view_run (ops : list op) (a : view) : list ret * view :=
  match ops with
  | [] => ([], a)
  | o :: ops =>
      let '(r, a) := view_step o a in
      let '(rs, a) := view_run ops a in
      (r :: rs, a)
  end.

(** Two stores with the same keys and values in every node. *)
Definition same_payload (h h' : list (LRUNode K V)) : Prop :=
  length h' = length h ∧ ∀ y, entry_of h' y = entry_of h y.

(** The entries are in strictly decreasing order of the rank [f] of
    their keys, and every rank is positive. *)
Fixpoint ordered (f : K → nat) (es : list (K * V)) : Prop :=
  match es with
  | [] => True
  | e :: es => Forall (λ e', (f e'.1 < f e.1)%nat) es ∧ (0 < f e.1)%nat ∧ ordered f es
  end.

(** The state [s] holds the entries of [a], in the chain [ls]. *)
Definition views_by (ls : list loc) (s : LRUCache) (a : view) : Prop :=
  inv s ls ∧
  Forall2 (λ l e, entry_of (heap s) l = Some e) ls (v_entries a) ∧
  capacity s = v_capacity a ∧ _hits s = v_hits a ∧
  _misses s = v_misses a ∧ _evictions s = v_evictions a.

Definition views (s : LRUCache) (a : view) : Prop := ∃ ls, views_by ls s a.

  End Cache.

  Arguments LRUCache K {_ _} V.
  Arguments view K V : clear implicits.
  Arguments op K V : clear implicits.
  Arguments ret K V : clear implicits.

End LRUCache.

(** ** DoublyLinkedList (pkg/list) *)

Module DoublyLinkedList.

(** [class DoublyLinkedListNode<T>] *)
Record DoublyLinkedListNode (T : Type) : Type := mkNode {
    value : T;
    prev : option loc;
    next : option loc
  }.
  Arguments mkNode {T} value prev next.
  Arguments value {T} _.
  Arguments prev {T} _.
  Arguments next {T} _.

#[export] Instance DoublyLinkedListNode_linked {T} : Linked (DoublyLinkedListNode T) := {|
    node_prev := prev;
    node_next := next;
    node_set_prev := λ v n, mkNode (value n) v (next n);
    node_set_next := λ v n, mkNode (value n) (prev n) v;
    prev_set_prev := λ _ _, eq_refl;
    next_set_prev := λ _ _, eq_refl;
    prev_set_next := λ _ _, eq_refl;
    next_set_next := λ _ _, eq_refl
  |}.

  Section List.
    Context {T : Type}.

Record DoublyLinkedList : Type := mkDoublyLinkedList {
    head : option loc;
    tail : option loc;
    _size : Z;
    equalityFn : T → T → bool;
    heap : list (DoublyLinkedListNode T)
  }.

Definition set_head (v : option loc) (s : DoublyLinkedList) : DoublyLinkedList :=
  mkDoublyLinkedList v (tail s) (_size s) (equalityFn s) (heap s).
Definition set_tail (v : option loc) (s : DoublyLinkedList) : DoublyLinkedList :=
  mkDoublyLinkedList (head s) v (_size s) (equalityFn s) (heap s).
Definition set_size (z : Z) (s : DoublyLinkedList) : DoublyLinkedList :=
  mkDoublyLinkedList (head s) (tail s) z (equalityFn s) (heap s).
Definition set_heap (h : list (DoublyLinkedListNode T)) (s : DoublyLinkedList) : DoublyLinkedList :=
  mkDoublyLinkedList (head s) (tail s) (_size s) (equalityFn s) h.

Definition value_of (h : list (DoublyLinkedListNode T)) (node : loc) : option T :=
  value <$> h !! node.

(** [constructor(equalityFn)] *)
Definition constructor (equalityFn : T → T → bool) : DoublyLinkedList :=
  mkDoublyLinkedList None None 0 equalityFn [].

Definition size (s : DoublyLinkedList) : Z := _size s.
Definition isEmpty (s : DoublyLinkedList) : bool := _size s =? 0.

(** [addFirst(value)] *)
Definition addFirst (value : T) (s : DoublyLinkedList) : DoublyLinkedList :=
  let newNode := length (heap s) in
  let s := set_heap (heap s ++ [mkNode value None None]) s in
  let s := match head s with
           | None => set_head (Some newNode) (set_tail (Some newNode) s)
           | Some h =>
               let s := set_heap (set_next newNode (Some h) (heap s)) s in
               let s := set_heap (set_prev h (Some newNode) (heap s)) s in
               set_head (Some newNode) s
           end in
  set_size (_size s + 1) s.

(** [addLast(value)] *)
Definition addLast (value : T) (s : DoublyLinkedList) : DoublyLinkedList :=
  let newNode := length (heap s) in
  let s := set_heap (heap s ++ [mkNode value None None]) s in
  let s := match tail s with
           | None => set_head (Some newNode) (set_tail (Some newNode) s)
           | Some t =>
               let s := set_heap (set_prev newNode (Some t) (heap s)) s in
               let s := set_heap (set_next t (Some newNode) (heap s)) s in
               set_tail (Some newNode) s
           end in
  set_size (_size s + 1) s.

(** [removeFirst()] *)
Definition removeFirst (s : DoublyLinkedList) : option T * DoublyLinkedList :=
  match head s with
  | None => (None, s)
  | Some h =>
      let value := value_of (heap s) h in
      let s := set_head (next_of (heap s) h) s in
      let s := match head s with
               | None => set_tail None s
               | Some h' => set_heap (set_prev h' None (heap s)) s
               end in
      let s := set_size (_size s - 1) s in
      (value, s)
  end.

(** [removeLast()] *)
Definition removeLast (s : DoublyLinkedList) : option T * DoublyLinkedList :=
  match tail s with
  | None => (None, s)
  | Some t =>
      let value := value_of (heap s) t in
      let s := set_tail (prev_of (heap s) t) s in
      let s := match tail s with
               | None => set_head None s
               | Some t' => set_heap (set_next t' None (heap s)) s
               end in
      let s := set_size (_size s - 1) s in
      (value, s)
  end.


(** The first loop of [getNodeAt],
    [for (let i = 0; i < index; i++) current = current!.next],
    from the round that tests [i]; [index] is any number.  Reading a
    field of [null] throws.  [None] when the loop has not ended within
    [fuel] tests. *)
Fixpoint forward (fuel : nat) (h : list (DoublyLinkedListNode T)) (index : JSNumber.number)
    (i : Z) (current : option loc) : option (outcome (option loc)) :=
  match fuel with
  | O => None
  | S fuel =>
      if JSNumber.lt (JSNumber.of_Z i) index
      then match current with
           | None => Some (Throw "TypeError: Cannot read properties of null")
           | Some c => forward fuel h index (i + 1) (next_of h c)
           end
      else Some (Ok current)
  end.

(** The second loop,
    [for (let i = this._size - 1; i > index; i--) current = current!.prev]. *)
Fixpoint backward (fuel : nat) (h : list (DoublyLinkedListNode T)) (index : JSNumber.number)
    (i : Z) (current : option loc) : option (outcome (option loc)) :=
  match fuel with
  | O => None
  | S fuel =>
      if JSNumber.gt (JSNumber.of_Z i) index
      then match current with
           | None => Some (Throw "TypeError: Cannot read properties of null")
           | Some c => backward fuel h index (i - 1) (prev_of h c)
           end
      else Some (Ok current)
  end.

(** [private getNodeAt(index)].  Past the first test [index] is below
    [_size] or NaN, so neither loop makes more than [_size + 1] tests. *)
Definition getNodeAt (index : JSNumber.number) (s : DoublyLinkedList) : option (outcome (option loc)) :=
  if JSNumber.lt index (JSNumber.of_Z 0) || JSNumber.ge index (JSNumber.of_Z (_size s))
  then Some (Ok None)
  else if JSNumber.lt index (JSNumber.div (JSNumber.of_Z (_size s)) (JSNumber.of_Z 2))
  then forward (S (Z.to_nat (_size s))) (heap s) index 0 (head s)
  else backward (S (Z.to_nat (_size s))) (heap s) index (_size s - 1) (tail s).

(** [get(index)] *)
Definition get (index : JSNumber.number) (s : DoublyLinkedList) : option (outcome (option T)) :=
  if JSNumber.lt index (JSNumber.of_Z 0) || JSNumber.ge index (JSNumber.of_Z (_size s))
  then Some (Ok None)
  else match getNodeAt index s with
       | None => None
       | Some (Throw m) => Some (Throw m)
       | Some (Ok node) => Some (Ok (node ≫= value_of (heap s)))
       end.

(** [removeAt(index)] *)
Definition removeAt (index : JSNumber.number) (s : DoublyLinkedList)
    : option (outcome (option T * DoublyLinkedList)) :=
  if JSNumber.lt index (JSNumber.of_Z 0) || JSNumber.ge index (JSNumber.of_Z (_size s))
  then Some (Ok (None, s))
  else if JSNumber.strict_eq index (JSNumber.of_Z 0) then Some (Ok (removeFirst s))
  else if JSNumber.strict_eq index (JSNumber.of_Z (_size s - 1)) then Some (Ok (removeLast s))
  else match getNodeAt index s with
       | None => None
       | Some (Throw m) => Some (Throw m)
       | Some (Ok None) => Some (Ok (None, s))
       | Some (Ok (Some node)) =>
           let value := value_of (heap s) node in
           let s := match prev_of (heap s) node with
                    | Some p => set_heap (set_next p (next_of (heap s) node) (heap s)) s
                    | None => s
                    end in
           let s := match next_of (heap s) node with
                    | Some n => set_heap (set_prev n (prev_of (heap s) node) (heap s)) s
                    | None => s
                    end in
           let s := set_size (_size s - 1) s in
           Some (Ok (value, s))
       end.

(** [n] times [current = current!.f]: what a loop of [getNodeAt] comes to
    when it makes [n] rounds. *)
Fixpoint follow (n : nat) (f : loc → option loc) (current : option loc) : outcome (option loc) :=
  match n with
  | O => Ok current
  | S n =>
      match current with
      | None => Throw "TypeError: Cannot read properties of null"
      | Some c => follow n f (f c)
      end
  end.

(** [clear()] *)
Definition clear (s : DoublyLinkedList) : option DoublyLinkedList :=
  h ← clear_links (length (heap s)) (heap s) (head s);
  Some (mkDoublyLinkedList None None 0 (equalityFn s) h).

(** [toArray()] *)
Definition toArray (s : DoublyLinkedList) : option (list T) :=
  ls ← walk (length (heap s)) (heap s) (head s);
  mapM (value_of (heap s)) ls.

(** The list is a chain of the nodes [ls], and [_size] counts them. *)
Definition wf (s : DoublyLinkedList) (ls : list loc) : Prop :=
  is_chain (heap s) (head s) (tail s) ls ∧ _size s = Z.of_nat (length ls).

(** [contains(element)] *)
Definition contains (element : T) (s : DoublyLinkedList) : option bool :=
  r ← traverse (length (heap s)) (heap s)
        (λ node _ (_ : unit),
           if equalityFn s (value node) element then inr true else inl ())
        (head s) 0 ();
  Some (match r with inr b => b | inl _ => false end).

(** [forEach(callback)].  The callback is code of the caller: it changes
    the world [W] outside of the list and can call the list, so it takes
    the list as the loop hands it over and returns it as it leaves it;
    [None] when the callback does not return, [Throw] when it throws,
    which ends [forEach].  The loop reads [current.value] before the call
    and [current.next] after it, in the store as the callback left it.
    [None] also when the loop has not ended within [fuel] rounds. *)
Fixpoint forEach_from {W : Type} (fuel : nat)
    (callback : T → Z → W → DoublyLinkedList → option (outcome (W * DoublyLinkedList)))
    (current : option loc) (index : Z) (w : W) (s : DoublyLinkedList)
    : option (outcome (W * DoublyLinkedList)) :=
  match current with
  | None => Some (Ok (w, s))
  | Some c =>
      match fuel with
      | O => None
      | S fuel =>
          match heap s !! c with
          | None => None
          | Some node =>
              match callback (value node) index w s with
              | None => None
              | Some (Throw m) => Some (Throw m)
              | Some (Ok (w, s)) =>
                  forEach_from fuel callback (next_of (heap s) c) (index + 1) w s
              end
          end
      end
  end.

Definition forEach {W : Type} (fuel : nat)
    (callback : T → Z → W → DoublyLinkedList → option (outcome (W * DoublyLinkedList)))
    (s : DoublyLinkedList) (w : W) : option (outcome (W * DoublyLinkedList)) :=
  forEach_from fuel callback (head s) 0 w s.

(** [map(callback)]; [result.push(x)] is [result ++ [x]]. *)
Definition map {U : Type} (callback : T → Z → U) (s : DoublyLinkedList) : option (list U) :=
  r ← traverse (R := Empty_set) (length (heap s)) (heap s)
        (λ node index result, inl (result ++ [callback (value node) index])) (head s) 0 [];
  match r with
  | inl result => Some result
  | inr e => match e : Empty_set with end
  end.

(** [filter(predicate)] *)
Definition filter (predicate : T → Z → bool) (s : DoublyLinkedList) : option (list T) :=
  r ← traverse (R := Empty_set) (length (heap s)) (heap s)
        (λ node index result,
           inl (if predicate (value node) index then result ++ [value node] else result))
        (head s) 0 [];
  match r with
  | inl result => Some result
  | inr e => match e : Empty_set with end
  end.

(** [some(predicate)] *)
Definition some (predicate : T → Z → bool) (s : DoublyLinkedList) : option bool :=
  r ← traverse (length (heap s)) (heap s)
        (λ node index (_ : unit), if predicate (value node) index then inr true else inl ())
        (head s) 0 ();
  Some (match r with inr b => b | inl _ => false end).

(** [every(predicate)] *)
Definition every (predicate : T → Z → bool) (s : DoublyLinkedList) : option bool :=
  r ← traverse (length (heap s)) (heap s)
        (λ node index (_ : unit), if negb (predicate (value node) index) then inr false else inl ())
        (head s) 0 ();
  Some (match r with inr b => b | inl _ => true end).

(** *** Sequences of calls *)

(** The calls that change the list; [RemoveAt index] is [removeAt] at the
    integer [index], of either sign. *)
Inductive op : Type :=
  | AddFirst (value : T)
  | AddLast (value : T)
  | RemoveFirst
  | RemoveLast
  | RemoveAt (index : Z)
  | Clear.

(** One call, with what it returns ([None] for [undefined] and for
    [void]): [None] when a loop was cut short by its bound, [Throw] when
    the call throws. *)
Definition exec (o : op) (s : DoublyLinkedList) : option (outcome (option T * DoublyLinkedList)) :=
  match o with
  | AddFirst v => Some (Ok (None, addFirst v s))
  | AddLast v => Some (Ok (None, addLast v s))
  | RemoveFirst => Some (Ok (removeFirst s))
  | RemoveLast => Some (Ok (removeLast s))
  | RemoveAt index => removeAt (JSNumber.of_Z index) s
  | Clear => s ← clear s; Some (Ok (None, s))
  end.

(** The calls [ops] in order, until one throws. *)
Fixpoint run (ops : list op) (s : DoublyLinkedList) : option (outcome (list (option T) * DoublyLinkedList)) :=
  match ops with
  | [] => Some (Ok ([], s))
  | o :: ops =>
      match exec o s with
      | None => None
      | Some (Throw m) => Some (Throw m)
      | Some (Ok (r, s)) =>
          match run ops s with
          | None => None
          | Some (Throw m) => Some (Throw m)
          | Some (Ok (rs, s)) => Some (Ok (r :: rs, s))
          end
      end
  end.

(** *** The list seen as a sequence

    What each call does to the sequence of the values, first to last. *)
Definition seq_step (o : op) (vs : list T) : option T * list T :=
  match o with
  | AddFirst v => (None, v :: vs)
  | AddLast v => (None, vs ++ [v])
  | RemoveFirst => (list.head vs, list.tail vs)
  | RemoveLast => (last vs, removelast vs)
  | RemoveAt index =>
      if (index <? 0) || (Z.of_nat (length vs) <=? index) then (None, vs)
      else (vs !! Z.to_nat index, delete (Z.to_nat index) vs)
  | Clear => (None, [])
  end.

Fixpoint seq_run (ops : list op) (vs : list T) : list (option T) * list T :=
  match ops with
  | [] => ([], vs)
  | o :: ops =>
      let '(r, vs) := seq_step o vs in
      let '(rs, vs) := seq_run ops vs in
      (r :: rs, vs)
  end.

(** What [get(index)] finds in the sequence.  An integer within the
    bounds finds the value at that position.  A number within the bounds
    that is no integer finds the position the loop of [getNodeAt] stops
    at: the next integer above it when the walk starts at the head
    ([index < size / 2]), which can be the size itself, where there is no
    value, and the next integer below it when the walk starts at the
    tail.  NaN passes the bounds test and the walk from the tail stops at
    once, on the last value. *)
Definition seq_get {X : Type} (index : JSNumber.number) (xs : list X) : option X :=
  match index with
  | JSNumber.NaN => last xs
  | JSNumber.PosInfinity | JSNumber.NegInfinity => None
  | JSNumber.Finite q =>
      if JSNumber.lt index (JSNumber.of_Z 0)
         || JSNumber.ge index (JSNumber.of_Z (Z.of_nat (length xs)))
      then None
      else if JSNumber.lt index (JSNumber.div (JSNumber.of_Z (Z.of_nat (length xs)))
                                              (JSNumber.of_Z 2))
      then xs !! Z.to_nat (Qceiling q)
      else xs !! Z.to_nat (Qfloor q)
  end.

(** The list is a chain of nodes that hold the values [vs], first to
    last. *)
Definition holds (s : DoublyLinkedList) (vs : list T) : Prop :=
  ∃ ls, wf s ls ∧ Forall2 (λ l v, value_of (heap s) l = Some v) ls vs.

  End List.

  Arguments op T : clear implicits.

  Arguments DoublyLinkedList T : clear implicits.

End DoublyLinkedList.

(** ** The default functions (types.ts) *)

Module Types.

(** The [<] and [>] of the values of one type. *)
Class Relational (T : Type) := {
  rel_lt : T → T → bool;
  rel_gt : T → T → bool
}.

#[export] Instance number_relational : Relational JSNumber.number := {|
    rel_lt := JSNumber.lt;
    rel_gt := JSNumber.gt
  |}.

(** A string is the sequence of its UTF-16 code units; [a < b] on strings
    compares the first code units that differ, and a proper prefix comes
    first. *)
Fixpoint string_lt (a b : list Z) : bool :=
  match a, b with
  | _, [] => false
  | [], _ :: _ => true
  | x :: a, y :: b => if x <? y then true else if y <? x then false else string_lt a b
  end.

#[export] Instance string_relational : Relational (list Z) := {|
    rel_lt := string_lt;
    rel_gt := λ a b, string_lt b a
  |}.

(** [defaultComparator(a, b)] *)
Definition defaultComparator {T : Type} `{Relational T} (a b : T) : Z :=
  if rel_lt a b then -1
  else if rel_gt a b then 1
  else 0.

(** [defaultEquality(a, b)] *)
Definition defaultEquality {T : Type} `{StrictEq T} (a b : T) : bool := strict_eq a b.

(** The conversion to a 32-bit integer that the bit operators apply to
    their operands and to their result. *)
Definition ToInt32 (z : Z) : Z :=
  let int := z mod 2 ^ 32 in
  if 2 ^ 31 <=? int then int - 2 ^ 32 else int.

(** [a << n] and [a | b] *)
Definition shl (a n : Z) : Z := ToInt32 (Z.shiftl (ToInt32 a) (n mod 32)).
Definition bor (a b : Z) : Z := ToInt32 (Z.lor (ToInt32 a) (ToInt32 b)).

(** What [defaultHash] tells apart by [typeof].  A string is given by its
    code units ([charCodeAt]); a value that is neither a number, a string
    nor a boolean is given by the string that [JSON.stringify] returns for
    it. *)
Inductive value : Type :=
  | Number (n : JSNumber.number)
  | String (units : list Z)
  | Boolean (b : bool)
  | Other (json : list Z).

(** The loop over the code units; the sums stay far below [2 ^ 53], so
    they are exact. *)
Fixpoint hash_units (hash : Z) (units : list Z) : Z :=
  match units with
  | [] => hash
  | c :: units =>
      let hash := shl hash 5 - hash + c in
      let hash := bor hash 0 in
      hash_units hash units
  end.

(** [defaultHash(value)] *)
Definition defaultHash (v : value) : JSNumber.number :=
  match v with
  | Number n => n
  | String units => JSNumber.of_Z (hash_units 0 units)
  | Boolean b => JSNumber.of_Z (if b then 1 else 0)
  | Other json => JSNumber.of_Z (hash_units 0 json)
  end.

(** The polynomial [c0 * 31^(n-1) + ... + c(n-1)] of the code units
    [c0 ... c(n-1)], continued from [acc]. *)
Definition polynomial (acc : Z) (units : list Z) : Z :=
  fold_left (λ acc c, 31 * acc + c) units acc.

End Types.

(** ** NaiveLRUCache (benchmark/cache.bench.ts) *)

Module NaiveLRUCache.

  Section Naive.
    Context {K : Type} `{Countable K} {V : Type}.
    Context {strict_eq_K : StrictEq K} {undefined_K : Undefined K} {undefined_V : Undefined V}.

(** The keys of the [Map] are the values of [K], told apart as the [Map]
    tells them apart (NaN is a key like any other); the array [order] is
    searched with [===] and the results of [Map.get] and [Array.shift]
    are tested with [!== undefined]. *)
Record NaiveLRUCache : Type := mkNaiveLRUCache {
    capacity : JSNumber.number;
    cache : gmap K V;
    order : list K
  }.

Definition set_cache (m : gmap K V) (s : NaiveLRUCache) : NaiveLRUCache :=
  mkNaiveLRUCache (capacity s) m (order s).
Definition set_order (l : list K) (s : NaiveLRUCache) : NaiveLRUCache :=
  mkNaiveLRUCache (capacity s) (cache s) l.

Definition constructor (capacity : JSNumber.number) : NaiveLRUCache :=
  mkNaiveLRUCache capacity ∅ [].

(** [order.indexOf(key)]: the first index whose element is [===] to
    [key], [-1] when there is none. *)
Fixpoint indexOf_from (index : Z) (key : K) (l : list K) : Z :=
  match l with
  | [] => -1
  | x :: l => if strict_eq key x then index else indexOf_from (index + 1) key l
  end.
Definition indexOf (key : K) (l : list K) : Z := indexOf_from 0 key l.

(** [order.splice(index, 1)], for an index that is not negative. *)
Definition splice (index : Z) (l : list K) : list K := delete (Z.to_nat index) l.

(** [get(key)].  [Map.get] returns the stored value, or [undefined] for
    a key that is not there ([None]); the key moves to the end of [order]
    when what it returned is not [undefined]. *)
Definition get (key : K) (s : NaiveLRUCache) : option V * NaiveLRUCache :=
  let value := cache s !! key in
  if match value with Some v => negb (is_undefined v) | None => false end
  then
    let index := indexOf key (order s) in
    let s := if -1 <? index then set_order (splice index (order s)) s else s in
    (value, set_order (order s ++ [key]) s)
  else (value, s).

(** [put(key, value)]; [order.shift()] returns [undefined] on an empty
    array. *)
Definition put (key : K) (value : V) (s : NaiveLRUCache) : NaiveLRUCache :=
  let s :=
    if bool_decide (is_Some (cache s !! key)) then
      let index := indexOf key (order s) in
      if -1 <? index then set_order (splice index (order s)) s else s
    else if JSNumber.ge (JSNumber.of_Z (Z.of_nat (size (cache s)))) (capacity s) then
      match order s with
      | [] => s
      | lru :: rest =>
          let s := set_order rest s in
          if negb (is_undefined lru) then set_cache (delete lru (cache s)) s else s
      end
    else s in
  let s := set_cache (<[key := value]> (cache s)) s in
  set_order (order s ++ [key]) s.

(** [clear()] *)
Definition clear (s : NaiveLRUCache) : NaiveLRUCache :=
  mkNaiveLRUCache (capacity s) ∅ [].

(** *** Sequences of calls *)

(** The three methods of the class. *)
Inductive op : Type :=
  | Get (key : K)
  | Put (key : K) (value : V)
  | Clear.

(** One call, with what it returns. *)
Definition exec (o : op) (s : NaiveLRUCache) : LRUCache.ret K V * NaiveLRUCache :=
  match o with
  | Get k => let '(v, s) := get k s in (LRUCache.RValue v, s)
  | Put k v => (LRUCache.RVoid, put k v s)
  | Clear => (LRUCache.RVoid, clear s)
  end.

Fixpoint run (ops : list op) (s : NaiveLRUCache) : list (LRUCache.ret K V) * NaiveLRUCache :=
  match ops with
  | [] => ([], s)
  | o :: ops =>
      let '(r, s) := exec o s in
      let '(rs, s) := run ops s in
      (r :: rs, s)
  end.

(** A call that stores nothing the searches and tests above treat
    apart: the key of a [put] is [===] to itself (it is not NaN), and
    neither the key nor the value is [undefined]. *)
Definition plain (o : op) : bool :=
  match o with
  | Put k v => strict_eq k k && negb (is_undefined k) && negb (is_undefined v)
  | Get _ | Clear => true
  end.

(** An entry that such a [put] stored. *)
Definition plain_entry (e : K * V) : Prop :=
  strict_eq e.1 e.1 = true ∧ is_undefined e.1 = false ∧ is_undefined e.2 = false.

(** The same call on an [LRUCache]. *)
Definition on_cache (o : op) : LRUCache.op K V :=
  match o with
  | Get k => LRUCache.Get k
  | Put k v => LRUCache.Put k v
  | Clear => LRUCache.Clear
  end.

(** What the calls that return a value returned. *)
Definition got (rs : list (LRUCache.ret K V)) : list (option V) :=
  omap (λ r, match r with LRUCache.RValue v => Some v | _ => None end) rs.

(** The object [s] holds the entries of the list [a]: the same values
    under the same keys, the keys in the reverse order. *)
Definition views (s : NaiveLRUCache) (a : LRUCache.view K V) : Prop :=
  order s = reverse (LRUCache.v_entries a).*1 ∧
  (∀ k, cache s !! k = LRUCache.assoc k (LRUCache.v_entries a)) ∧
  capacity s = LRUCache.v_capacity a.

  End Naive.

  Arguments NaiveLRUCache K {_ _} V.
  Arguments op K V : clear implicits.

End NaiveLRUCache.

(** ** Sample objects: string keys, integer values *)

Section Samples.
  Import LRUCache.
  Open Scope string_scope.
  Open Scope Z_scope.

(** The cache [new LRUCache<string, number>(3)]. *)
Definition cache3 : LRUCache string Z :=
  mkLRUCache (JSNumber.of_Z 3) ∅ None None 0 0 0 0 [].

(** The calls [put a], [put b], [put c], [get a] on [cache3], what they
    return, and the state they leave. *)
Definition abca_ops : list (op string Z) := [Put "a" 1; Put "b" 2; Put "c" 3; Get "a"].
Definition abca_rets : list (ret string Z) := [RThis; RThis; RThis; RValue (Some 1)].
Definition abca : LRUCache string Z :=
  Eval vm_compute in default cache3 (snd <$> run abca_ops cache3).

(** The list built by [addLast(5)], [addLast(10)], [addLast(20)]. *)
Definition list3 : DoublyLinkedList.DoublyLinkedList Z :=
  DoublyLinkedList.addLast 20
    (DoublyLinkedList.addLast 10
       (DoublyLinkedList.addLast 5 (DoublyLinkedList.constructor Z.eqb))).

(** The calls that build [list3], and what they return. *)
Definition list3_ops : list (DoublyLinkedList.op Z) :=
  [DoublyLinkedList.AddLast 5; DoublyLinkedList.AddLast 10; DoublyLinkedList.AddLast 20].
Definition list3_rets : list (option Z) := [None; None; None].


(** The calls [put a], [put b], [get a], [put c], [put d], [get b] on
    a [NaiveLRUCache]. *)
Definition naive_ops : list (NaiveLRUCache.op string Z) :=
  [NaiveLRUCache.Put "a" 1; NaiveLRUCache.Put "b" 2; NaiveLRUCache.Get "a";
   NaiveLRUCache.Put "c" 3; NaiveLRUCache.Put "d" 4; NaiveLRUCache.Get "b"].

(** The list of numbers built by [addLast(1)], [addLast(NaN)] under the
    default equality. *)
Definition numbers_ops : list (DoublyLinkedList.op JSNumber.number) :=
  [DoublyLinkedList.AddLast (JSNumber.of_Z 1); DoublyLinkedList.AddLast JSNumber.NaN].
Definition numbers : DoublyLinkedList.DoublyLinkedList JSNumber.number :=
  DoublyLinkedList.addLast JSNumber.NaN
    (DoublyLinkedList.addLast (JSNumber.of_Z 1)
       (DoublyLinkedList.constructor Types.defaultEquality)).

End Samples.

(** * Properties *)

(** ** Reading and writing links in the store *)

Section StoreFacts.
  Context {N : Type} `{Linked N}.
  Implicit Types (h : list N) (ls : list loc) (x y : loc) (p n v : option loc).

Lemma length_set_prev x v h : length (set_prev x v h) = length h.
Proof. apply length_alter. Qed.

Lemma length_set_next x v h : length (set_next x v h) = length h.
Proof. apply length_alter. Qed.

Lemma prev_of_set_prev x v h y :
  (x < length h)%nat →
  prev_of (set_prev x v h) y = if decide (x = y) then v else prev_of h y.
Proof.
  intros Hx. unfold prev_of, set_prev. case_decide as E.
  - subst y. rewrite list_lookup_alter_eq.
    destruct (lookup_lt_is_Some_2 h x Hx) as [nd ->]. simpl. apply prev_set_prev.
  - by rewrite list_lookup_alter_ne.
Qed.

Lemma next_of_set_next x v h y :
  (x < length h)%nat →
  next_of (set_next x v h) y = if decide (x = y) then v else next_of h y.
Proof.
  intros Hx. unfold next_of, set_next. case_decide as E.
  - subst y. rewrite list_lookup_alter_eq.
    destruct (lookup_lt_is_Some_2 h x Hx) as [nd ->]. simpl. apply next_set_next.
  - by rewrite list_lookup_alter_ne.
Qed.

Lemma prev_of_set_prev_ne x v h y : x ≠ y → prev_of (set_prev x v h) y = prev_of h y.
Proof. intros E. unfold prev_of, set_prev. by rewrite list_lookup_alter_ne. Qed.

Lemma next_of_set_next_ne x v h y : x ≠ y → next_of (set_next x v h) y = next_of h y.
Proof. intros E. unfold next_of, set_next. by rewrite list_lookup_alter_ne. Qed.

Lemma next_of_set_prev x v h y : next_of (set_prev x v h) y = next_of h y.
Proof.
  unfold next_of, set_prev. destruct (decide (x = y)) as [->|E].
  - rewrite list_lookup_alter_eq. destruct (h !! y); simpl; [apply next_set_prev | done].
  - by rewrite list_lookup_alter_ne.
Qed.

Lemma prev_of_set_next x v h y : prev_of (set_next x v h) y = prev_of h y.
Proof.
  unfold prev_of, set_next. destruct (decide (x = y)) as [->|E].
  - rewrite list_lookup_alter_eq. destruct (h !! y); simpl; [apply prev_set_next | done].
  - by rewrite list_lookup_alter_ne.
Qed.

Lemma prev_of_alloc h nd y : (y < length h)%nat → prev_of (h ++ [nd]) y = prev_of h y.
Proof. intros Hy. unfold prev_of. by rewrite lookup_app_l. Qed.

Lemma next_of_alloc h nd y : (y < length h)%nat → next_of (h ++ [nd]) y = next_of h y.
Proof. intros Hy. unfold next_of. by rewrite lookup_app_l. Qed.

Lemma prev_of_new h nd : prev_of (h ++ [nd]) (length h) = node_prev nd.
Proof. unfold prev_of. by rewrite list_lookup_middle. Qed.

Lemma next_of_new h nd : next_of (h ++ [nd]) (length h) = node_next nd.
Proof. unfold next_of. by rewrite list_lookup_middle. Qed.

(** *** Segments *)

Lemma first_or_app l1 l2 d : first_or (l1 ++ l2) d = first_or l1 (first_or l2 d).
Proof. by destruct l1. Qed.

Lemma last_or_app l1 l2 d : last_or (l1 ++ l2) d = last_or l2 (last_or l1 d).
Proof.
  unfold last_or. destruct l2 as [|z l2 IH] using rev_ind.
  - by rewrite app_nil_r.
  - by rewrite app_assoc, !last_snoc.
Qed.

Lemma last_or_cons x ls d : last_or (x :: ls) d = last_or ls (Some x).
Proof. apply (last_or_app [x] ls d). Qed.

Lemma last_or_snoc ls x d : last_or (ls ++ [x]) d = Some x.
Proof. unfold last_or. by rewrite last_snoc. Qed.

Lemma last_or_nonempty ls d d' : ls ≠ [] → last_or ls d = last_or ls d'.
Proof.
  destruct ls as [|z ls IH] using rev_ind; [done|]. intros _. by rewrite !last_or_snoc.
Qed.

Lemma last_or_elem ls d x : last_or ls d = Some x → x ∈ ls ∨ (ls = [] ∧ d = Some x).
Proof.
  destruct ls as [|z ls IH] using rev_ind; [by right|].
  rewrite last_or_snoc. intros [= ->]. left. set_solver.
Qed.

Lemma first_or_elem ls d x : first_or ls d = Some x → x ∈ ls ∨ (ls = [] ∧ d = Some x).
Proof. destruct ls; simpl; [by right|]. intros [= ->]. left. set_solver. Qed.

Lemma dseg_bound h p ls n x : dseg h p ls n → x ∈ ls → (x < length h)%nat.
Proof.
  revert p. induction ls as [|z ls IH]; intros p Hd Hx; [by apply elem_of_nil in Hx|].
  destruct Hd as (? & ? & ? & ?). apply elem_of_cons in Hx as [->|Hx]; eauto.
Qed.

Lemma dseg_app h p l1 l2 n :
  dseg h p (l1 ++ l2) n ↔ dseg h p l1 (first_or l2 n) ∧ dseg h (last_or l1 p) l2 n.
Proof.
  revert p. induction l1 as [|x l1 IH]; intros p; simpl.
  - unfold last_or; simpl. tauto.
  - rewrite IH, first_or_app, last_or_cons. tauto.
Qed.

Lemma dseg_singleton h p x n :
  dseg h p [x] n ↔ (x < length h)%nat ∧ prev_of h x = p ∧ next_of h x = n.
Proof. simpl. tauto. Qed.

Lemma dseg_first h p x ls n : dseg h p (x :: ls) n → prev_of h x = p.
Proof. by intros (? & ? & ? & ?). Qed.

Lemma dseg_last h p ls x n : dseg h p (ls ++ [x]) n → next_of h x = n.
Proof. rewrite dseg_app. simpl. by intros (_ & ? & ? & ? & ?). Qed.

(** The links inside a segment. *)
Lemma dseg_mid h p l1 x l2 n :
  dseg h p (l1 ++ x :: l2) n →
  (x < length h)%nat ∧ prev_of h x = last_or l1 p ∧ next_of h x = first_or l2 n.
Proof. rewrite dseg_app. simpl. tauto. Qed.

(** A store [h'] that agrees with [h] on the inner links of a segment
    holds the same segment, between the ends [h'] gives it. *)
Lemma dseg_relink h h' p p' ls n n' :
  NoDup ls → dseg h p ls n → (length h ≤ length h')%nat →
  (∀ y, first_or ls None = Some y → prev_of h' y = p') →
  (∀ y, y ∈ ls → first_or ls None ≠ Some y → prev_of h' y = prev_of h y) →
  (∀ y, last_or ls None = Some y → next_of h' y = n') →
  (∀ y, y ∈ ls → last_or ls None ≠ Some y → next_of h' y = next_of h y) →
  dseg h' p' ls n'.
Proof.
  intros Hnd Hd Hlen. revert p p' Hnd Hd.
  induction ls as [|x ls IH]; intros p p' Hnd Hd Hp Hpi Hn Hni; [done|].
  apply NoDup_cons in Hnd as [Hx Hnd]. destruct Hd as (Hb & Hpx & Hnx & Hd).
  simpl. split_and!.
  - lia.
  - by apply Hp.
  - destruct ls as [|z ls]; simpl.
    + by apply Hn.
    + rewrite Hni; [done| set_solver |].
      rewrite last_or_cons. intros E. apply last_or_elem in E as [E|[? _]]; [done|done].
  - apply (IH (Some x)); [done|done|..].
    + intros y Hy. destruct ls as [|z ls]; [done|]. simplify_eq/=.
      rewrite Hpi; [by apply (dseg_first _ _ _ _ _ Hd)| set_solver |].
      intros [= ->]. set_solver.
    + intros y Hy Hfy. apply Hpi; [set_solver|]. simpl. intros [= ->]. done.
    + intros y Hy. apply Hn. rewrite last_or_cons.
      destruct ls as [|z ls]; [done|]. by rewrite (last_or_nonempty _ _ None).
    + intros y Hy Hly. apply Hni; [set_solver|]. rewrite last_or_cons.
      destruct ls as [|z ls]; [by apply elem_of_nil in Hy|].
      by rewrite (last_or_nonempty _ _ None).
Qed.

(** Links outside a segment do not matter to it. *)
Lemma dseg_frame h h' p ls n :
  dseg h p ls n → (length h ≤ length h')%nat →
  (∀ y, y ∈ ls → prev_of h' y = prev_of h y ∧ next_of h' y = next_of h y) →
  dseg h' p ls n.
Proof.
  intros Hd Hlen Hsame. revert p Hd.
  induction ls as [|x ls IH]; intros p Hd; [done|].
  destruct Hd as (Hb & Hpx & Hnx & Hd).
  destruct (Hsame x) as [E1 E2]; [set_solver|].
  simpl. rewrite E1, E2. split_and!; [lia|done|done|].
  apply IH; [|done]. intros y Hy. apply Hsame. set_solver.
Qed.

Lemma NoDup_bounded_length ls (m : nat) :
  NoDup ls → (∀ x, x ∈ ls → (x < m)%nat) → (length ls ≤ m)%nat.
Proof.
  intros Hnd Hb.
  assert (ls ⊆+ seq 0 m) as Hsub.
  { apply NoDup_submseteq; [done|]. intros x Hx. apply elem_of_seq. specialize (Hb x Hx). lia. }
  apply submseteq_length in Hsub. by rewrite length_seq in Hsub.
Qed.

Lemma is_chain_length h hd tl ls : is_chain h hd tl ls → (length ls ≤ length h)%nat.
Proof.
  intros (Hnd & Hd & _). apply NoDup_bounded_length; [done|].
  intros x. by apply dseg_bound with (p := None) (n := None).
Qed.

(** The traversal of a chain returns its nodes, whenever the fuel covers
    its length. *)
Lemma walk_dseg fuel h p ls :
  dseg h p ls None → (length ls ≤ fuel)%nat → walk fuel h (first_or ls None) = Some ls.
Proof.
  revert p ls. induction fuel as [|fuel IH]; intros p [|x ls] Hd Hlen; simpl in *; try done; try lia.
  destruct Hd as (_ & _ & -> & Hd). rewrite (IH (Some x)); [done|done|lia].
Qed.

Lemma walk_chain h hd tl ls : is_chain h hd tl ls → walk (length h) h hd = Some ls.
Proof.
  intros Hc. pose proof (is_chain_length _ _ _ _ Hc) as Hlen.
  destruct Hc as (_ & Hd & -> & _). by apply walk_dseg with (p := None).
Qed.

End StoreFacts.

Section ChainSurgery.
  Context {N : Type} `{Linked N}.
  Implicit Types (h : list N) (ls : list loc) (x y : loc) (p n v : option loc).

(** Taking [x] out of a segment: whatever store links the neighbours of
    [x] to each other and keeps the other links holds the segment
    without [x]. *)
Lemma dseg_unlink h h' l1 x l2 :
  NoDup (l1 ++ x :: l2) → dseg h None (l1 ++ x :: l2) None →
  (length h ≤ length h')%nat →
  (∀ y, y ∈ l1 ++ l2 →
     prev_of h' y = if decide (first_or l2 None = Some y) then last_or l1 None else prev_of h y) →
  (∀ y, y ∈ l1 ++ l2 →
     next_of h' y = if decide (last_or l1 None = Some y) then first_or l2 None else next_of h y) →
  dseg h' None (l1 ++ l2) None.
Proof.
  intros Hnd Hd Hlen Hp Hn.
  apply NoDup_app in Hnd as (Hnd1 & Hdisj & Hnd2).
  apply NoDup_cons in Hnd2 as (Hx2 & Hnd2).
  apply dseg_app in Hd as (Hd1 & Hd2). simpl in Hd1.
  destruct Hd2 as (Hbx & Hpx & Hnx & Hd2).
  assert (∀ y, y ∈ l1 → y ∉ l2) as Hdisj'.
  { intros y Hy Hy2. apply (Hdisj y Hy). set_solver. }
  assert (∀ y, first_or l1 None = Some y → y ∈ l1) as Hf1.
  { intros y Hy. by apply first_or_elem in Hy as [?|[_ [=]]]. }
  assert (∀ y, first_or l2 None = Some y → y ∈ l2) as Hf2.
  { intros y Hy. by apply first_or_elem in Hy as [?|[_ [=]]]. }
  assert (∀ y, last_or l1 None = Some y → y ∈ l1) as Hl1.
  { intros y Hy. by apply last_or_elem in Hy as [?|[_ [=]]]. }
  assert (∀ y, last_or l2 None = Some y → y ∈ l2) as Hl2.
  { intros y Hy. by apply last_or_elem in Hy as [?|[_ [=]]]. }
  apply dseg_app. split.
  - apply (dseg_relink h h' None None l1 (Some x)); [done|done|done|..].
    + intros y Hy. rewrite Hp by (apply Hf1 in Hy; set_solver).
      case_decide as E.
      * by destruct (Hdisj' y); auto.
      * destruct l1 as [|z l1]; simplify_eq/=. by destruct Hd1 as (_ & ? & _).
    + intros y Hy _. rewrite Hp by set_solver. case_decide as E; [|done].
      by destruct (Hdisj' y); auto.
    + intros y Hy. rewrite Hn by (apply Hl1 in Hy; set_solver).
      by rewrite decide_True.
    + intros y Hy Hly. rewrite Hn by set_solver. by rewrite decide_False.
  - apply (dseg_relink h h' (Some x) (last_or l1 None) l2 None); [done|done|done|..].
    + intros y Hy. rewrite Hp by (apply Hf2 in Hy; set_solver).
      by rewrite decide_True.
    + intros y Hy Hfy. rewrite Hp by set_solver. by rewrite decide_False.
    + intros y Hy. rewrite Hn by (apply Hl2 in Hy; set_solver).
      case_decide as E.
      * by destruct (Hdisj' y); auto.
      * destruct l2 as [|z l2 IH] using rev_ind; [done|].
        rewrite last_or_snoc in Hy. simplify_eq. by apply dseg_last in Hd2.
    + intros y Hy _. rewrite Hn by set_solver. case_decide as E; [|done].
      by destruct (Hdisj' y); auto.
Qed.

(** Putting [x] in front of a chain. *)
Lemma dseg_push h h' x ls :
  x ∉ ls → NoDup ls → dseg h None ls None →
  (length h ≤ length h')%nat → (x < length h')%nat →
  prev_of h' x = None → next_of h' x = first_or ls None →
  (∀ y, y ∈ ls →
     prev_of h' y = if decide (first_or ls None = Some y) then Some x else prev_of h y) →
  (∀ y, y ∈ ls → next_of h' y = next_of h y) →
  dseg h' None (x :: ls) None.
Proof.
  intros Hx Hnd Hd Hlen Hbx Hpx Hnx Hp Hn. simpl. split_and!; [done..|].
  apply (dseg_relink h h' None (Some x) ls None None); [done|done|done|..].
  - intros y Hy. rewrite Hp by (apply first_or_elem in Hy; set_solver). by rewrite decide_True.
  - intros y Hy Hfy. rewrite Hp by done. by rewrite decide_False.
  - intros y Hy. rewrite Hn by (apply last_or_elem in Hy; set_solver).
    destruct ls as [|z ls IH] using rev_ind; [done|].
    rewrite last_or_snoc in Hy. simplify_eq. by apply dseg_last in Hd.
  - intros y Hy _. by apply Hn.
Qed.

(** The loop of [clear] reaches the end of any chain within the bound,
    and leaves every node of the chain with both links cleared. *)
Lemma clear_links_dseg fuel h p ls :
  NoDup ls → dseg h p ls None → (length ls ≤ fuel)%nat →
  ∃ h', clear_links fuel h (first_or ls None) = Some h' ∧
        length h' = length h ∧
        ∀ y, y ∈ ls → prev_of h' y = None ∧ next_of h' y = None.
Proof.
  revert h p ls. induction fuel as [|fuel IH]; intros h p [|x ls] Hnd Hd Hlen;
    simpl in *; try lia.
  - exists h. split_and!; [done|done|]. intros y Hy. by apply elem_of_nil in Hy.
  - exists h. split_and!; [done|done|]. intros y Hy. by apply elem_of_nil in Hy.
  - apply NoDup_cons in Hnd as [Hx Hnd]. destruct Hd as (Hb & Hpx & Hnx & Hd).
    rewrite Hnx.
    set (h1 := set_next x None (set_prev x None h)).
    assert (length h1 = length h) as Hl1.
    { unfold h1. by rewrite length_set_next, length_set_prev. }
    assert (∀ y, y ≠ x → prev_of h1 y = prev_of h y ∧ next_of h1 y = next_of h y) as Hother.
    { intros y Hy. unfold h1.
      rewrite prev_of_set_next, prev_of_set_prev by done.
      rewrite next_of_set_next by (by rewrite length_set_prev).
      rewrite next_of_set_prev. by rewrite !decide_False by done. }
    destruct (IH h1 (Some x) ls) as (h' & Hrun & Hl' & Hclr); [done| |lia|].
    { apply (dseg_frame h); [done|lia|]. intros y Hy. apply Hother. set_solver. }
    assert (ls = [] → h' = h1) as Hnil.
    { intros ->. destruct fuel; simpl in Hrun; congruence. }
    exists h'. split_and!; [done|congruence|].
    intros y Hy. apply elem_of_cons in Hy as [->|Hy]; [|by apply Hclr].
    assert (prev_of h1 x = None ∧ next_of h1 x = None ∧ (x < length h1)%nat) as Hx1.
    { unfold h1. rewrite prev_of_set_next, prev_of_set_prev by done.
      rewrite next_of_set_next by (by rewrite length_set_prev).
      rewrite !decide_True by done. rewrite length_set_next, length_set_prev. done. }
    revert Hrun Hx1. generalize (first_or ls None). generalize h1. clear.
    induction fuel as [|fuel IH]; intros h1 c Hrun Hx1; destruct c as [c|]; simpl in Hrun;
      simplify_eq; try tauto.
    apply IH in Hrun; [done|]. destruct Hx1 as (E1 & E2 & Hb).
    rewrite length_set_next, length_set_prev. split_and!; [| |done].
    + rewrite prev_of_set_next. destruct (decide (c = x)) as [->|Hc].
      * rewrite prev_of_set_prev by done. by rewrite decide_True.
      * by rewrite prev_of_set_prev_ne.
    + rewrite <- E2. destruct (decide (c = x)) as [->|Hc].
      * rewrite next_of_set_next by (by rewrite length_set_prev). by rewrite decide_True.
      * rewrite next_of_set_next_ne by done. by rewrite next_of_set_prev.
Qed.

End ChainSurgery.

(** ** The cache's private helpers *)

Section CacheHelpers.
  Import LRUCache.
  Context {K : Type} `{Countable K} {V : Type}.
  Implicit Types (s : LRUCache K V) (h : list (LRUNode K V)) (ls : list loc) (x y : loc).

Lemma key_of_entry h y : key_of h y = fst <$> entry_of h y.
Proof. unfold key_of, entry_of. by destruct (h !! y). Qed.

Lemma value_of_entry h y : value_of h y = snd <$> entry_of h y.
Proof. unfold value_of, entry_of. by destruct (h !! y). Qed.

Lemma same_payload_refl h : same_payload h h.
Proof. by split. Qed.

Lemma same_payload_trans h1 h2 h3 : same_payload h1 h2 → same_payload h2 h3 → same_payload h1 h3.
Proof.
  intros [L1 P1] [L2 P2]. split; [congruence|]. intros y. by rewrite P2, P1.
Qed.

Lemma same_payload_set_prev x v h : same_payload h (set_prev x v h).
Proof.
  split; [apply length_set_prev|]. intros y. unfold entry_of, set_prev.
  rewrite list_lookup_alter. case_decide; [subst|done]. by destruct (h !! y).
Qed.

Lemma same_payload_set_next x v h : same_payload h (set_next x v h).
Proof.
  split; [apply length_set_next|]. intros y. unfold entry_of, set_next.
  rewrite list_lookup_alter. case_decide; [subst|done]. by destruct (h !! y).
Qed.

Lemma removeNode_fields x s :
  capacity (removeNode x s) = capacity s ∧ cache (removeNode x s) = cache s ∧
  _size (removeNode x s) = _size s ∧ _hits (removeNode x s) = _hits s ∧
  _misses (removeNode x s) = _misses s ∧ _evictions (removeNode x s) = _evictions s ∧
  same_payload (heap s) (heap (removeNode x s)).
Proof.
  unfold removeNode. destruct s as [c m hd tl sz hi mi ev h]; simpl.
  destruct (prev_of h x); simpl;
    repeat match goal with |- context [match ?o with Some _ => _ | None => _ end] =>
      destruct o; simpl end;
    split_and!; try done;
    repeat first [ apply same_payload_refl
                 | eapply same_payload_trans; [|apply same_payload_set_next]
                 | eapply same_payload_trans; [|apply same_payload_set_prev] ].
Qed.

(** What [removeNode] leaves, from the two links it reads first. *)
Lemma removeNode_eq x s p n :
  prev_of (heap s) x = p → next_of (heap s) x = n →
  (∀ p', p = Some p' → p' ≠ x) →
  heap (removeNode x s) =
    set_next x None (set_prev x None
      (match n with Some n' => set_prev n' p | None => id end
         (match p with Some p' => set_next p' n | None => id end (heap s)))) ∧
  head (removeNode x s) = match p with Some _ => head s | None => n end ∧
  tail (removeNode x s) = match n with Some _ => tail s | None => p end.
Proof.
  intros <- <- Hp. unfold removeNode. destruct s as [c m hd tl sz hi mi ev h]; simpl in *.
  destruct (prev_of h x) as [p'|] eqn:E1; simpl.
  - rewrite next_of_set_next_ne by (by apply Hp).
    destruct (next_of h x) as [n'|] eqn:E2; simpl; by rewrite prev_of_set_next, E1.
  - destruct (next_of h x) as [n'|] eqn:E2; simpl; by rewrite ?E1.
Qed.

(** [removeNode] on a node of the chain: the chain without it, and the
    node's own links cleared. *)
Lemma removeNode_chain s l1 x l2 :
  is_chain (heap s) (head s) (tail s) (l1 ++ x :: l2) →
  is_chain (heap (removeNode x s)) (head (removeNode x s)) (tail (removeNode x s)) (l1 ++ l2) ∧
  prev_of (heap (removeNode x s)) x = None ∧ next_of (heap (removeNode x s)) x = None.
Proof.
  intros (Hnd & Hd & Hhd & Htl).
  destruct (dseg_mid _ _ _ _ _ _ Hd) as (Hbx & Hpx & Hnx).
  pose proof Hnd as Hnd'.
  apply NoDup_app in Hnd' as (Hnd1 & Hdisj & Hnd2).
  apply NoDup_cons in Hnd2 as (Hx2 & Hnd2).
  assert (x ∉ l1) as Hx1 by (intros Hx; apply (Hdisj x Hx); set_solver).
  assert (NoDup (l1 ++ l2)) as Hnd12.
  { apply NoDup_app. split_and!; [done| |done]. intros y Hy Hy2. apply (Hdisj y Hy). set_solver. }
  assert (∀ y, last_or l1 None = Some y → y ∈ l1 ∧ y ≠ x ∧ (y < length (heap s))%nat) as Hl1.
  { intros y Hy. apply last_or_elem in Hy as [?|[_ [=]]].
    split_and!; [done|set_solver|]. eapply dseg_bound; [done|set_solver]. }
  assert (∀ y, first_or l2 None = Some y → y ∈ l2 ∧ y ≠ x ∧ (y < length (heap s))%nat) as Hf2.
  { intros y Hy. apply first_or_elem in Hy as [?|[_ [=]]].
    split_and!; [done|set_solver|]. eapply dseg_bound; [done|set_solver]. }
  destruct (removeNode_eq x s _ _ Hpx Hnx) as (Eh & Ehd & Etl); [intros p' Hp'; by apply Hl1|].
  rewrite Eh, Ehd, Etl. clear Eh Ehd Etl.
  set (h1 := match last_or l1 None with Some p' => set_next p' (first_or l2 None) | None => id end (heap s)).
  set (h2 := match first_or l2 None with Some n' => set_prev n' (last_or l1 None) | None => id end h1).
  assert (length h1 = length (heap s)) as Hlen1.
  { unfold h1. destruct (last_or l1 None); [apply length_set_next|done]. }
  assert (length h2 = length (heap s)) as Hlen2.
  { unfold h2. destruct (first_or l2 None); [by rewrite length_set_prev|done]. }
  assert (∀ y, prev_of h2 y =
            if decide (first_or l2 None = Some y) then last_or l1 None else prev_of (heap s) y) as Hp2.
  { intros y. unfold h2, h1. destruct (first_or l2 None) as [n'|] eqn:Ef.
    - destruct (Hf2 n' eq_refl) as (_ & _ & Hbn).
      rewrite prev_of_set_prev by (destruct (last_or l1 None); by rewrite ?length_set_next).
      repeat case_decide; simplify_eq; try done.
      destruct (last_or l1 None); [apply prev_of_set_next|done].
    - case_decide; [done|]. unfold id.
      destruct (last_or l1 None); [apply prev_of_set_next|done]. }
  assert (∀ y, next_of h2 y =
            if decide (last_or l1 None = Some y) then first_or l2 None else next_of (heap s) y) as Hn2.
  { intros y. unfold h2, h1.
    assert (∀ w h', next_of (match first_or l2 None with
                             | Some n' => set_prev n' w | None => id end h') y = next_of h' y) as ->.
    { intros w h'. destruct (first_or l2 None); [apply next_of_set_prev|done]. }
    destruct (last_or l1 None) as [p'|] eqn:El.
    - destruct (Hl1 p' eq_refl) as (_ & _ & Hbp). rewrite next_of_set_next by done.
      repeat case_decide; simplify_eq; done.
    - by case_decide. }
  unfold is_chain. split_and!.
  - done.
  - apply (dseg_unlink (heap s) _ l1 x l2 Hnd Hd).
    + rewrite length_set_next, length_set_prev. lia.
    + intros y Hy. rewrite prev_of_set_next, prev_of_set_prev_ne by set_solver. apply Hp2.
    + intros y Hy. rewrite next_of_set_next_ne by set_solver. rewrite next_of_set_prev. apply Hn2.
  - rewrite first_or_app. rewrite first_or_app in Hhd.
    destruct (last_or l1 None) eqn:El1; [by destruct l1|].
    destruct l1 as [|z l1 IH] using rev_ind; [done|]. by rewrite last_or_snoc in El1.
  - rewrite last_or_app. rewrite last_or_app, last_or_cons in Htl.
    destruct l2 as [|n l2]; [done|]. simpl first_or. cbv iota.
    by rewrite (last_or_nonempty _ _ (Some x)).
  - rewrite prev_of_set_next, prev_of_set_prev by lia. by rewrite decide_True.
  - rewrite next_of_set_next by (rewrite length_set_prev; lia). by rewrite decide_True.
Qed.

Lemma addToHead_fields x s :
  capacity (addToHead x s) = capacity s ∧ cache (addToHead x s) = cache s ∧
  _size (addToHead x s) = _size s ∧ _hits (addToHead x s) = _hits s ∧
  _misses (addToHead x s) = _misses s ∧ _evictions (addToHead x s) = _evictions s ∧
  same_payload (heap s) (heap (addToHead x s)).
Proof.
  unfold addToHead. destruct s as [c m hd tl sz hi mi ev h]; simpl.
  destruct hd, tl; simpl; split_and!; try done;
    repeat first [ apply same_payload_refl
                 | eapply same_payload_trans; [|apply same_payload_set_next]
                 | eapply same_payload_trans; [|apply same_payload_set_prev] ].
Qed.

(** [addToHead] on a node of the store that is not in the chain. *)
Lemma addToHead_chain s x ls :
  is_chain (heap s) (head s) (tail s) ls → x ∉ ls → (x < length (heap s))%nat →
  is_chain (heap (addToHead x s)) (head (addToHead x s)) (tail (addToHead x s)) (x :: ls).
Proof.
  intros (Hnd & Hd & Hhd & Htl) Hx Hbx.
  unfold addToHead, is_chain. destruct s as [c m hd tl sz hi mi ev h]; simpl in *.
  set (h1 := set_next x hd (set_prev x None h)).
  assert (length h1 = length h) as Hlen1 by (unfold h1; by rewrite length_set_next, length_set_prev).
  assert (prev_of h1 x = None ∧ next_of h1 x = hd) as [Hp1 Hn1].
  { unfold h1. rewrite prev_of_set_next, prev_of_set_prev by done.
    rewrite next_of_set_next by (by rewrite length_set_prev). by rewrite !decide_True. }
  assert (∀ y, y ≠ x → prev_of h1 y = prev_of h y ∧ next_of h1 y = next_of h y) as Ho1.
  { intros y Hy. unfold h1. rewrite prev_of_set_next, prev_of_set_prev_ne by done.
    by rewrite next_of_set_next_ne, next_of_set_prev by done. }
  destruct ls as [|z ls]; simpl in Hhd, Htl; subst hd.
  - subst tl. simpl. split_and!; try done; [apply NoDup_singleton|lia].
  - rewrite last_or_cons in Htl.
    assert (∃ t, tl = Some t) as [t Ht].
    { destruct (last_or ls (Some z)) eqn:E; [by eexists|].
      destruct ls as [|w ls IH] using rev_ind; [done|]. by rewrite last_or_snoc in E. }
    rewrite Ht. cbv iota. simpl heap. simpl LRUCache.head. simpl LRUCache.tail.
    assert (z ≠ x) as Hzx by set_solver.
    assert (z < length h)%nat as Hbz by (by destruct Hd).
    split; [|split; [|split]].
    + by apply NoDup_cons.
    + apply (dseg_push h); try done.
      * rewrite length_set_prev. lia.
      * rewrite length_set_prev. lia.
      * by rewrite prev_of_set_prev_ne.
      * by rewrite next_of_set_prev.
      * intros y Hy. assert (y ≠ x) as Hyx by set_solver.
        rewrite prev_of_set_prev by lia. simpl.
        repeat case_decide; simplify_eq; try done. by apply Ho1.
      * intros y Hy. rewrite next_of_set_prev. apply Ho1. set_solver.
    + done.
    + rewrite <- Ht, Htl, !last_or_cons.
      destruct ls; [done|]. by apply last_or_nonempty.
Qed.

(** [moveToHead] on a node of the chain. *)
Lemma moveToHead_chain s l1 x l2 :
  is_chain (heap s) (head s) (tail s) (l1 ++ x :: l2) →
  is_chain (heap (moveToHead x s)) (head (moveToHead x s)) (tail (moveToHead x s))
    (x :: l1 ++ l2).
Proof.
  intros Hc. unfold moveToHead. case_decide as Ehd.
  - destruct Hc as (Hnd & Hd & Hhd & Htl). rewrite Hhd, first_or_app in Ehd.
    destruct l1 as [|z l1]; [done|]. simplify_eq/=.
    apply NoDup_cons in Hnd as [Hz _]. set_solver.
  - pose proof Hc as (Hnd & Hd & _).
    destruct (removeNode_chain s l1 x l2 Hc) as (Hc' & _).
    apply addToHead_chain; [done| |].
    + apply NoDup_app in Hnd as (_ & Hdisj & Hnd2).
      apply NoDup_cons in Hnd2 as (Hx2 & _).
      intros [Hx|Hx]%elem_of_app; [|done]. apply (Hdisj x Hx). set_solver.
    + destruct (removeNode_fields x s) as (_ & _ & _ & _ & _ & _ & [-> _]).
      eapply dseg_bound; [done|set_solver].
Qed.

Lemma moveToHead_fields x s :
  capacity (moveToHead x s) = capacity s ∧ cache (moveToHead x s) = cache s ∧
  _size (moveToHead x s) = _size s ∧ _hits (moveToHead x s) = _hits s ∧
  _misses (moveToHead x s) = _misses s ∧ _evictions (moveToHead x s) = _evictions s ∧
  same_payload (heap s) (heap (moveToHead x s)).
Proof.
  unfold moveToHead. case_decide; [split_and!; try done; apply same_payload_refl|].
  destruct (removeNode_fields x s) as (? & ? & ? & ? & ? & ? & ?).
  destruct (addToHead_fields x (removeNode x s)) as (? & ? & ? & ? & ? & ? & ?).
  split_and!; try congruence. by eapply same_payload_trans.
Qed.

End CacheHelpers.

(** ** The methods follow the list view *)

Section Refinement.
  Import LRUCache.
  Context {K : Type} `{Countable K} {V : Type}.
  #[local] Arguments removeNode : simpl never.
  #[local] Arguments addToHead : simpl never.
  #[local] Arguments moveToHead : simpl never.
  #[local] Arguments evictTail : simpl never.
  Implicit Types (s : LRUCache K V) (a : view K V) (h : list (LRUNode K V)).
  Implicit Types (ls : list loc) (es ea eb : list (K * V)) (x y : loc) (k : K) (v : V).

Lemma assoc_None k es : assoc k es = None ↔ k ∉ es.*1.
Proof.
  induction es as [|[k' v'] es IH]; simpl.
  - split; [intros _; apply not_elem_of_nil|done].
  - case_decide as E; simpl in E.
    + subst. split; [done|]. intros []. by left.
    + rewrite IH, not_elem_of_cons. naive_solver.
Qed.

Lemma assoc_app_r k ea eb : k ∉ ea.*1 → assoc k (ea ++ eb) = assoc k eb.
Proof.
  induction ea as [|[k' v'] ea IH]; [done|]. simpl. intros [? ?]%not_elem_of_cons.
  rewrite decide_False by done. by apply IH.
Qed.

Lemma assoc_split k v ea eb : k ∉ ea.*1 → assoc k (ea ++ (k, v) :: eb) = Some v.
Proof. intros Hk. rewrite assoc_app_r by done. simpl. by rewrite decide_True. Qed.

Lemma without_notin k es : k ∉ es.*1 → without k es = es.
Proof.
  unfold without. induction es as [|[k' v'] es IH]; [done|]. simpl.
  intros [? ?]%not_elem_of_cons. rewrite filter_cons_True by (simpl; congruence).
  by rewrite IH.
Qed.

Lemma without_split k v ea eb :
  k ∉ ea.*1 → k ∉ eb.*1 → without k (ea ++ (k, v) :: eb) = ea ++ eb.
Proof.
  intros H1 H2. unfold without. rewrite filter_app, filter_cons_False by (simpl; tauto).
  fold (without k ea). fold (without k eb). by rewrite !without_notin.
Qed.

Lemma without_length k es : (length (without k es) ≤ length es)%nat.
Proof. apply length_filter. Qed.

Lemma indexed_same s s' ls ls' :
  indexed s ls → cache s' = cache s → same_payload (heap s) (heap s') →
  (∀ l, l ∈ ls' ↔ l ∈ ls) → indexed s' ls'.
Proof.
  intros Hi Hc [_ Hp] Hm k l. rewrite Hc, Hm, key_of_entry, Hp, <- key_of_entry. apply Hi.
Qed.

Lemma Forall2_same_payload h h' ls es :
  same_payload h h' →
  Forall2 (λ l e, entry_of h l = Some e) ls es →
  Forall2 (λ l e, entry_of h' l = Some e) ls es.
Proof. intros [_ Hp] Hf. eapply Forall2_impl; [done|]. intros l e. by rewrite Hp. Qed.

Lemma Forall2_entry_frame h h' ls es :
  (∀ y, y ∈ ls → entry_of h' y = entry_of h y) →
  Forall2 (λ l e, entry_of h l = Some e) ls es →
  Forall2 (λ l e, entry_of h' l = Some e) ls es.
Proof.
  intros Hsame Hf. induction Hf as [|l e ls es Hl Hf IH]; constructor.
  - rewrite Hsame; [done|by left].
  - apply IH. intros y Hy. apply Hsame. by right.
Qed.

Lemma views_keys_NoDup ls s a : views_by ls s a → NoDup (v_entries a).*1.
Proof.
  intros ([Hc Hi _ _] & Hf & _). destruct Hc as (Hnd & _).
  apply NoDup_alt. intros i j k Hi1 Hj1.
  apply list_lookup_fmap_Some in Hi1 as ([k1 v1] & ? & Ei).
  apply list_lookup_fmap_Some in Hj1 as ([k2 v2] & ? & Ej). simplify_eq/=.
  destruct (Forall2_lookup_r _ _ _ _ _ Hf Ei) as (l1 & El1 & Hl1).
  destruct (Forall2_lookup_r _ _ _ _ _ Hf Ej) as (l2 & El2 & Hl2).
  assert (cache s !! k2 = Some l1) as C1.
  { apply Hi. split; [by eapply list_elem_of_lookup_2|]. by rewrite key_of_entry, Hl1. }
  assert (cache s !! k2 = Some l2) as C2.
  { apply Hi. split; [by eapply list_elem_of_lookup_2|]. by rewrite key_of_entry, Hl2. }
  simplify_eq. by eapply NoDup_lookup.
Qed.

(** A key of the index sits at one place of the chain and of the list. *)
Lemma views_lookup_Some ls s a k x :
  views_by ls s a → cache s !! k = Some x →
  ∃ l1 l2 ea eb v,
    ls = l1 ++ x :: l2 ∧ v_entries a = ea ++ (k, v) :: eb ∧
    Forall2 (λ l e, entry_of (heap s) l = Some e) l1 ea ∧
    Forall2 (λ l e, entry_of (heap s) l = Some e) l2 eb ∧
    (k ∉ ea.*1) ∧ (k ∉ eb.*1) ∧ entry_of (heap s) x = Some (k, v).
Proof.
  intros Hv Hk. pose proof (views_keys_NoDup _ _ _ Hv) as Hnd.
  destruct Hv as ([Hc Hi _ _] & Hf & _).
  apply Hi in Hk as [Hx Hkx].
  apply list_elem_of_split in Hx as (l1 & l2 & ->).
  apply Forall2_app_inv_l in Hf as (ea & e' & Hf1 & Hf2 & Ees).
  apply Forall2_cons_inv_l in Hf2 as ([k' v] & eb & Hex & Hf2 & ->).
  rewrite key_of_entry, Hex in Hkx. simplify_eq/=.
  rewrite Ees, fmap_app, fmap_cons in Hnd. simpl in Hnd.
  apply NoDup_app in Hnd as (_ & Hdisj & Hnd2). apply NoDup_cons in Hnd2 as [? _].
  exists l1, l2, ea, eb, v. split_and!; try done.
  intros Hk. apply (Hdisj k Hk). by left.
Qed.

Lemma views_lookup_None ls s a k :
  views_by ls s a → cache s !! k = None → k ∉ (v_entries a).*1.
Proof.
  intros ([Hc Hi _ _] & Hf & _) Hk Hin.
  apply list_elem_of_fmap in Hin as ([k' v] & ? & Hin). simplify_eq/=.
  apply list_elem_of_lookup in Hin as [i Ei].
  destruct (Forall2_lookup_r _ _ _ _ _ Hf Ei) as (l & El & Hl).
  assert (cache s !! k' = Some l) as C; [|congruence].
  apply Hi. split; [by eapply list_elem_of_lookup_2|]. by rewrite key_of_entry, Hl.
Qed.

Lemma views_assoc ls s a k :
  views_by ls s a → assoc k (v_entries a) = cache s !! k ≫= value_of (heap s).
Proof.
  intros Hv. destruct (cache s !! k) as [x|] eqn:Hk; simpl.
  - destruct (views_lookup_Some _ _ _ _ _ Hv Hk) as (l1 & l2 & ea & eb & v & _ & -> & _ & _ & ? & ? & Hx).
    rewrite assoc_split by done. by rewrite value_of_entry, Hx.
  - apply assoc_None. by eapply views_lookup_None.
Qed.

Lemma views_assoc_is_Some ls s a k :
  views_by ls s a → is_Some (assoc k (v_entries a)) ↔ is_Some (cache s !! k).
Proof.
  intros Hv. destruct (cache s !! k) as [x|] eqn:Hk.
  - destruct (views_lookup_Some _ _ _ _ _ Hv Hk) as (l1 & l2 & ea & eb & v & _ & -> & _ & _ & ? & ? & Hx).
    rewrite assoc_split by done. split; eauto.
  - rewrite (proj2 (assoc_None k _)) by (by eapply views_lookup_None). done.
Qed.

Lemma inv_ext s s' ls :
  inv s ls → heap s' = heap s → head s' = head s → tail s' = tail s →
  cache s' = cache s → _size s' = _size s → inv s' ls.
Proof.
  intros [Hc Hi Hs Hm] Eh Ehd Etl Ec Es. split.
  - by rewrite Eh, Ehd, Etl.
  - unfold indexed. by rewrite Eh, Ec.
  - by rewrite Es.
  - by rewrite Ec.
Qed.

(** Moving a node of the chain to the front. *)
Lemma moveToHead_views s l1 x l2 ea eb (e : K * V) :
  inv s (l1 ++ x :: l2) →
  Forall2 (λ l e, entry_of (heap s) l = Some e) l1 ea →
  Forall2 (λ l e, entry_of (heap s) l = Some e) l2 eb →
  entry_of (heap s) x = Some e →
  inv (moveToHead x s) (x :: l1 ++ l2) ∧
  Forall2 (λ l e, entry_of (heap (moveToHead x s)) l = Some e) (x :: l1 ++ l2) (e :: ea ++ eb) ∧
  value_of (heap (moveToHead x s)) x = Some e.2.
Proof.
  intros [Hc Hi Hs Hm] Hf1 Hf2 Hx.
  destruct (moveToHead_fields x s) as (_ & Ec & Es & _ & _ & _ & Hp).
  split_and!.
  - split.
    + by apply moveToHead_chain.
    + eapply indexed_same; [done..|]. set_solver.
    + rewrite Es, Hs. rewrite !length_app. simpl. rewrite length_app. simpl. lia.
    + rewrite Ec, Hm. rewrite !length_app. simpl. rewrite length_app. simpl. lia.
  - apply (Forall2_same_payload _ _ _ _ Hp). constructor; [done|]. by apply Forall2_app.
  - destruct Hp as [_ Hp]. by rewrite value_of_entry, Hp, Hx.
Qed.

(** Taking a node out of the chain and its key out of the index. *)
Lemma unlink_views s l1 x l2 ea eb k v :
  inv s (l1 ++ x :: l2) →
  Forall2 (λ l e, entry_of (heap s) l = Some e) l1 ea →
  Forall2 (λ l e, entry_of (heap s) l = Some e) l2 eb →
  entry_of (heap s) x = Some (k, v) →
  let s' := set_size (_size (removeNode x s) - 1)
              (set_cache (base.delete k (cache (removeNode x s))) (removeNode x s)) in
  inv s' (l1 ++ l2) ∧
  Forall2 (λ l e, entry_of (heap s') l = Some e) (l1 ++ l2) (ea ++ eb) ∧
  capacity s' = capacity s ∧ _hits s' = _hits s ∧ _misses s' = _misses s ∧
  _evictions s' = _evictions s.
Proof.
  intros [Hc Hi Hs Hm] Hf1 Hf2 Hx s'.
  destruct (removeNode_fields x s) as (Ecap & Ec & Es & Ehi & Emi & Eev & Hp).
  destruct (removeNode_chain s l1 x l2 Hc) as (Hc' & _).
  assert (cache s !! k = Some x) as Hkx.
  { apply Hi. split; [set_solver|]. by rewrite key_of_entry, Hx. }
  assert (x ∉ l1 ++ l2) as Hnx.
  { destruct Hc as (Hnd & _). apply NoDup_app in Hnd as (_ & Hdisj & Hnd2).
    apply NoDup_cons in Hnd2 as [? _]. intros [Hin|Hin]%elem_of_app; [|done].
    apply (Hdisj x Hin). by left. }
  subst s'. cbn. split_and!; try done.
  - split; cbn.
    + done.
    + unfold indexed. cbn. intros k' l. rewrite Ec. destruct Hp as [_ Hp].
      rewrite key_of_entry, Hp, <- key_of_entry.
      destruct (decide (k' = k)) as [->|Hk].
      * rewrite lookup_delete_eq. split; [done|]. intros [Hl Hkl].
        assert (cache s !! k = Some l) as Hkl' by (apply Hi; set_solver).
        congruence.
      * rewrite lookup_delete_ne by done. rewrite (Hi k' l).
        split; intros [Hl Hkl]; (split; [|done]); [|set_solver].
        apply elem_of_app in Hl as [Hl|Hl]; [set_solver|].
        apply elem_of_cons in Hl as [->|Hl]; [|set_solver].
        rewrite key_of_entry, Hx in Hkl. by simplify_eq/=.
    + rewrite Es, Hs, !length_app. simpl. lia.
    + rewrite Ec, map_size_delete_Some by done. rewrite Hm, !length_app. simpl. lia.
  - apply (Forall2_same_payload _ _ _ _ Hp). by apply Forall2_app.
Qed.

(** [evictTail] on a chain that ends in [t]. *)
Lemma evictTail_views s l1 t ea (e : K * V) :
  inv s (l1 ++ [t]) →
  Forall2 (λ l e, entry_of (heap s) l = Some e) (l1 ++ [t]) (ea ++ [e]) →
  inv (evictTail s) l1 ∧
  Forall2 (λ l e, entry_of (heap (evictTail s)) l = Some e) l1 ea ∧
  capacity (evictTail s) = capacity s ∧ _hits (evictTail s) = _hits s ∧
  _misses (evictTail s) = _misses s ∧ _evictions (evictTail s) = _evictions s + 1 ∧
  cache (evictTail s) = base.delete e.1 (cache s) ∧
  prev_of (heap (evictTail s)) t = None ∧ next_of (heap (evictTail s)) t = None.
Proof.
  intros Hinv Hf.
  apply Forall2_app_inv_l in Hf as (ea' & e' & Hf1 & Hf2 & Ee).
  apply Forall2_cons_inv_l in Hf2 as (e0 & e'' & Ht & Hf2 & ->).
  apply Forall2_nil_inv_l in Hf2 as ->.
  apply app_inj_tail in Ee as [-> ->]. destruct e0 as [kt vt].
  assert (tail s = Some t) as Etl.
  { destruct Hinv as [(_ & _ & _ & ->) _ _ _]. apply last_or_snoc. }
  pose proof (unlink_views s l1 t [] ea' [] kt vt Hinv Hf1 ltac:(constructor) Ht) as Hu.
  cbn zeta in Hu. rewrite !app_nil_r in Hu.
  destruct (removeNode_chain s l1 t []) as (_ & Hp & Hn); [by destruct Hinv|].
  destruct (removeNode_fields t s) as (_ & Ec & _ & _ & _ & Eev & _).
  unfold evictTail. rewrite Etl, key_of_entry, Ht. cbn.
  destruct Hu as (Hi & Hf & ? & ? & ? & ?). split_and!; try done.
  - eapply inv_ext; [exact Hi|done..].
  - by rewrite Eev.
  - by rewrite Ec.
Qed.

Lemma entry_of_set_value x v h y :
  entry_of (set_value x v h) y =
    if decide (x = y) then (λ e, (e.1, v)) <$> entry_of h y else entry_of h y.
Proof.
  unfold entry_of, set_value. rewrite list_lookup_alter. case_decide; [subst|done].
  by destruct (h !! y).
Qed.

Lemma links_set_value x v h y :
  prev_of (set_value x v h) y = prev_of h y ∧ next_of (set_value x v h) y = next_of h y.
Proof.
  unfold prev_of, next_of, set_value. rewrite list_lookup_alter. case_decide; [subst|done].
  by destruct (h !! y).
Qed.

(** Overwriting the value of a node of the chain. *)
Lemma set_value_views s l1 x l2 ea eb k v v0 :
  inv s (l1 ++ x :: l2) →
  Forall2 (λ l e, entry_of (heap s) l = Some e) l1 ea →
  Forall2 (λ l e, entry_of (heap s) l = Some e) l2 eb →
  entry_of (heap s) x = Some (k, v0) →
  let s' := set_heap (set_value x v (heap s)) s in
  inv s' (l1 ++ x :: l2) ∧
  Forall2 (λ l e, entry_of (heap s') l = Some e) l1 ea ∧
  Forall2 (λ l e, entry_of (heap s') l = Some e) l2 eb ∧
  entry_of (heap s') x = Some (k, v).
Proof.
  intros [Hc Hi Hs Hm] Hf1 Hf2 Hx s'. subst s'. cbn.
  assert ((x ∉ l1) ∧ (x ∉ l2)) as [Hx1 Hx2].
  { destruct Hc as (Hnd & _). apply NoDup_app in Hnd as (_ & Hdisj & Hnd2).
    apply NoDup_cons in Hnd2 as [? _]. split; [|done]. intros Hin.
    apply (Hdisj x Hin). by left. }
  split_and!.
  - split; cbn; try done.
    + destruct Hc as (Hnd & Hd & Hhd & Htl). split_and!; try done.
      apply (dseg_frame (heap s)); [done|unfold set_value; by rewrite length_alter|].
      intros y _. apply links_set_value.
    + unfold indexed. cbn. intros k' l.
      rewrite key_of_entry, entry_of_set_value, (Hi k' l), key_of_entry.
      case_decide; [subst l|done]. rewrite Hx. done.
  - eapply Forall2_entry_frame; [|exact Hf1]. intros y Hy.
    rewrite entry_of_set_value, decide_False; [done|by intros ->].
  - eapply Forall2_entry_frame; [|exact Hf2]. intros y Hy.
    rewrite entry_of_set_value, decide_False; [done|by intros ->].
  - rewrite entry_of_set_value, decide_True, Hx; done.
Qed.

Lemma entry_of_alloc h (nd : LRUNode K V) y :
  (y < length h)%nat → entry_of (h ++ [nd]) y = entry_of h y.
Proof. intros Hy. unfold entry_of. by rewrite lookup_app_l. Qed.

Lemma entry_of_new h (nd : LRUNode K V) :
  entry_of (h ++ [nd]) (length h) = Some (key nd, value nd).
Proof. unfold entry_of. by rewrite list_lookup_middle. Qed.

(** The insertion of a new key, up to the capacity test. *)
Lemma insert_views s ls es k v :
  inv s ls → Forall2 (λ l e, entry_of (heap s) l = Some e) ls es →
  cache s !! k = None →
  let x := length (heap s) in
  let s1 := set_heap (heap s ++ [mkLRUNode k v None None]) s in
  let s2 := set_cache (<[k := x]> (cache s1)) s1 in
  let s3 := addToHead x s2 in
  let s' := set_size (_size s3 + 1) s3 in
  inv s' (x :: ls) ∧
  Forall2 (λ l e, entry_of (heap s') l = Some e) (x :: ls) ((k, v) :: es) ∧
  capacity s' = capacity s ∧ _hits s' = _hits s ∧ _misses s' = _misses s ∧
  _evictions s' = _evictions s.
Proof.
  intros [Hc Hi Hs Hm] Hf Hk x s1 s2 s3 s'.
  destruct (addToHead_fields x s2) as (Ecap & Ec & Es & Ehi & Emi & Eev & Hp).
  fold s3 in Ecap, Ec, Es, Ehi, Emi, Eev, Hp.
  assert (∀ y, y ∈ ls → (y < length (heap s))%nat) as Hb.
  { intros y Hy. destruct Hc as (_ & Hd & _). by eapply dseg_bound. }
  assert (x ∉ ls) as Hx by (intros Hin; apply Hb in Hin; unfold x in Hin; lia).
  assert (is_chain (heap s2) (head s2) (tail s2) ls) as Hc2.
  { destruct Hc as (Hnd & Hd & Hhd & Htl). unfold is_chain. split_and!; try done.
    apply (dseg_frame (heap s)); [done|cbn; rewrite length_app; lia|].
    intros y Hy. cbn. by rewrite prev_of_alloc, next_of_alloc by (by apply Hb). }
  assert (∀ y, entry_of (heap s3) y =
               if decide (y = x) then Some (k, v) else entry_of (heap s) y) as He.
  { intros y. destruct Hp as [_ ->]. cbn. case_decide as E.
    - subst y. apply (entry_of_new (heap s)).
    - unfold entry_of. destruct (decide (y < length (heap s))%nat).
      + by rewrite lookup_app_l.
      + rewrite !lookup_ge_None_2; [done|lia|rewrite length_app; simpl; unfold x in E; lia]. }
  subst s'. cbn. rewrite Ecap, Ehi, Emi, Eev. split_and!; try done.
  - split; cbn.
    + apply addToHead_chain; [done|done|]. cbn. rewrite length_app. simpl. unfold x. lia.
    + unfold indexed. cbn. intros k' l. rewrite Ec. cbn. rewrite key_of_entry, He.
      destruct (decide (k' = k)) as [->|Hk'].
      * rewrite lookup_insert_eq. split.
        -- intros [= <-]. split; [by left|]. by rewrite decide_True.
        -- intros [Hl Hkl]. case_decide; [by subst|].
           apply elem_of_cons in Hl as [->|Hl]; [done|].
           rewrite <- key_of_entry in Hkl.
           assert (cache s !! k = Some l) by (by apply Hi). congruence.
      * rewrite lookup_insert_ne by done. rewrite (Hi k' l). split.
        -- intros [Hl Hkl]. split; [by right|]. rewrite decide_False; [by rewrite <- key_of_entry|].
           intros ->. done.
        -- intros [Hl Hkl]. case_decide; [by simplify_eq/=|].
           apply elem_of_cons in Hl as [->|Hl]; [done|]. by rewrite key_of_entry.
    + rewrite Es. cbn. rewrite Hs. lia.
    + rewrite Ec. cbn. rewrite map_size_insert_None by done. by rewrite Hm.
  - constructor.
    + by rewrite He, decide_True.
    + eapply Forall2_entry_frame; [|exact Hf]. intros y Hy. rewrite He, decide_False; [done|].
      intros ->. done.
Qed.

(** [clear] reaches the end of the chain and leaves the empty cache. *)
Lemma clear_views ls s a :
  views_by ls s a →
  ∃ s', clear s = Some s' ∧ views_by [] s' (mkView [] (v_capacity a) 0 0 0) ∧
        ∀ y, y ∈ ls → prev_of (heap s') y = None ∧ next_of (heap s') y = None.
Proof.
  intros ([Hc Hi Hs Hm] & Hf & Ecap & _).
  pose proof (is_chain_length _ _ _ _ Hc) as Hlen.
  destruct Hc as (Hnd & Hd & Hhd & Htl).
  destruct (clear_links_dseg (length (heap s)) (heap s) None ls Hnd Hd Hlen)
    as (h' & Hrun & Hl' & Hclr).
  unfold clear. rewrite Hhd, Hrun. cbn. eexists. split; [done|]. split; [|done].
  unfold views_by. cbn. split_and!; try done. split; cbn; try done.
  - unfold is_chain. split_and!; try done. apply NoDup_nil_2.
  - unfold indexed. cbn. intros k l. rewrite lookup_empty. split; [done|].
    intros [Hl _]. by apply elem_of_nil in Hl.
Qed.

Lemma views_head ls s a :
  views_by ls s a → head s ≫= entry_of (heap s) = list.head (v_entries a).
Proof.
  intros ([Hc _ _ _] & Hf & _). destruct Hc as (_ & _ & -> & _).
  destruct Hf; [done|]. simpl. done.
Qed.

Lemma views_tail ls s a :
  views_by ls s a → tail s ≫= entry_of (heap s) = last (v_entries a).
Proof.
  intros ([Hc _ _ _] & Hf & _). destruct Hc as (_ & _ & _ & ->).
  destruct ls as [|t ls IH] using rev_ind.
  - by apply Forall2_nil_inv_l in Hf as ->.
  - apply Forall2_app_inv_l in Hf as (ea & e' & Hf1 & Hf2 & ->).
    apply Forall2_cons_inv_l in Hf2 as (e0 & e'' & Ht & Hf2 & ->).
    apply Forall2_nil_inv_l in Hf2 as ->.
    rewrite last_or_snoc, last_snoc. done.
Qed.

(** Every call does to the state what [view_step] does to its list, and
    returns what [view_step] returns. *)
Lemma refine_step o s a :
  views s a →
  ∃ s', exec o s = Some ((view_step o a).1, s') ∧ views s' (view_step o a).2.
Proof.
  intros [ls Hv]. pose proof Hv as (Hinv & Hf & Ecap & Ehi & Emi & Eev).
  destruct o as [k|k v|k|k|k| | | |]; unfold exec, view_step.
  - (* get *)
    unfold get. destruct (cache s !! k) as [x|] eqn:Hk.
    + destruct (views_lookup_Some _ _ _ _ _ Hv Hk)
        as (l1 & l2 & ea & eb & v & -> & Ees & Hf1 & Hf2 & Hka & Hkb & Hx).
      rewrite Ees, assoc_split, without_split by done.
      set (s1 := set_hits (_hits s + 1) s).
      destruct (moveToHead_views s1 l1 x l2 ea eb (k, v)) as (Hi' & Hf' & Hval);
        [by eapply inv_ext|done|done|done|].
      destruct (moveToHead_fields x s1) as (E1 & E2 & E3 & E4 & E5 & E6 & _).
      exists (moveToHead x s1). rewrite Hval. split; [done|].
      exists (x :: l1 ++ l2). unfold views_by. cbn. rewrite E1, E4, E5, E6.
      subst s1. cbn. split_and!; try done; congruence.
    + rewrite (proj2 (assoc_None k _)) by (by eapply views_lookup_None).
      eexists. split; [done|]. exists ls. unfold views_by. cbn.
      split_and!; try done; [by eapply inv_ext|congruence].
  - (* put *)
    unfold put. destruct (cache s !! k) as [x|] eqn:Hk.
    + destruct (views_lookup_Some _ _ _ _ _ Hv Hk)
        as (l1 & l2 & ea & eb & v0 & -> & Ees & Hf1 & Hf2 & Hka & Hkb & Hx).
      rewrite Ees, assoc_split, without_split by done.
      destruct (set_value_views s l1 x l2 ea eb k v v0 Hinv Hf1 Hf2 Hx) as (Hi1 & Hf1' & Hf2' & Hx').
      set (s1 := set_heap (set_value x v (heap s)) s) in *.
      destruct (moveToHead_views s1 l1 x l2 ea eb (k, v) Hi1 Hf1' Hf2' Hx') as (Hi' & Hf' & Hval).
      destruct (moveToHead_fields x s1) as (E1 & E2 & E3 & E4 & E5 & E6 & _).
      eexists. split; [done|].
      exists (x :: l1 ++ l2). unfold views_by. cbn. fold s1. rewrite E1, E4, E5, E6.
      subst s1. cbn. split_and!; try done; congruence.
    + rewrite (proj2 (assoc_None k _)) by (by eapply views_lookup_None).
      destruct (insert_views s ls (v_entries a) k v Hinv Hf Hk) as (Hi' & Hf' & Ecap' & Ehi' & Emi' & Eev').
      cbn zeta in Hi', Hf', Ecap', Ehi', Emi', Eev'. cbn zeta.
      set (s4 := set_size _ _) in *.
      assert (_size s4 = Z.of_nat (length (v_entries a)) + 1) as Es4.
      { destruct Hi' as [_ _ -> _]. apply Forall2_length in Hf. simpl. lia. }
      rewrite Es4, Ecap', Ecap.
      destruct (JSNumber.gt _ _).
      * destruct (exists_last (l := length (heap s) :: ls)) as (l1 & t & El); [done|].
        destruct (exists_last (l := (k, v) :: v_entries a)) as (ea & e & Ee); [done|].
        rewrite El in Hi', Hf'. rewrite Ee in Hf'.
        destruct (evictTail_views s4 l1 t ea e Hi' Hf') as (Hi'' & Hf'' & ? & ? & ? & ? & _).
        eexists. split; [done|]. exists l1. unfold views_by. cbn -[removelast].
        rewrite Ee, removelast_last. split_and!; try done; congruence.
      * eexists. split; [done|]. eexists. unfold views_by. cbn.
        split_and!; try done;
          [exact (eq_trans Ecap' Ecap)|exact (eq_trans Ehi' Ehi)
          |exact (eq_trans Emi' Emi)|exact (eq_trans Eev' Eev)].
  - (* has *)
    unfold has. eexists. split; [|by exists ls]. cbn. do 3 f_equal.
    apply bool_decide_ext. symmetry. by eapply views_assoc_is_Some.
  - (* delete *)
    unfold delete. destruct (cache s !! k) as [x|] eqn:Hk.
    + destruct (views_lookup_Some _ _ _ _ _ Hv Hk)
        as (l1 & l2 & ea & eb & v & -> & Ees & Hf1 & Hf2 & Hka & Hkb & Hx).
      rewrite Ees, assoc_split, without_split by done.
      destruct (unlink_views s l1 x l2 ea eb k v Hinv Hf1 Hf2 Hx)
        as (Hi' & Hf' & Ecap' & Ehi' & Emi' & Eev').
      eexists. split; [done|]. exists (l1 ++ l2). unfold views_by. cbn.
      split_and!; try done;
        [exact (eq_trans Ecap' Ecap)|exact (eq_trans Ehi' Ehi)
        |exact (eq_trans Emi' Emi)|exact (eq_trans Eev' Eev)].
    + rewrite (proj2 (assoc_None k _)) by (by eapply views_lookup_None).
      eexists. split; [done|]. by exists ls.
  - (* peek *)
    unfold peek. eexists. split; [|by exists ls]. cbn. do 3 f_equal.
    symmetry. by eapply views_assoc.
  - unfold getMostRecent. eexists. split; [|by exists ls]. cbn. do 3 f_equal.
    by eapply views_head.
  - unfold getLeastRecent. eexists. split; [|by exists ls]. cbn. do 3 f_equal.
    by eapply views_tail.
  - destruct (clear_views ls s a Hv) as (s' & -> & Hv' & _).
    eexists. split; [done|]. by exists [].
  - eexists. split; [done|]. exists ls. unfold views_by, resetStats. cbn.
    split_and!; try done. by eapply inv_ext.
Qed.

Lemma refine_run ops s a :
  views s a →
  ∃ s', run ops s = Some ((view_run ops a).1, s') ∧ views s' (view_run ops a).2.
Proof.
  revert s a. induction ops as [|o ops IH]; intros s a Hv; simpl.
  - by exists s.
  - destruct (refine_step o s a Hv) as (s1 & -> & Hv1). simpl.
    destruct (view_step o a) as [r a1]. simpl in *.
    destruct (IH s1 a1 Hv1) as (s2 & -> & Hv2). simpl.
    destruct (view_run ops a1) as [rs a2]. by exists s2.
Qed.

Lemma views_constructor cap s0 :
  constructor cap = Ok s0 → views s0 (mkView [] cap 0 0 0).
Proof.
  unfold constructor. case_match; [done|]. intros [= <-]. exists [].
  unfold views_by. cbn. split_and!; try done. split; cbn; try done.
  - unfold is_chain. split_and!; try done. apply NoDup_nil_2.
  - unfold indexed. cbn. intros k l. rewrite lookup_empty. split; [done|].
    intros [Hl _]. by apply elem_of_nil in Hl.
Qed.

Lemma views_consistent s a : views s a → consistent s.
Proof.
  intros (ls & [Hc Hi Hs Hm] & _). exists ls. split_and!.
  - by eapply walk_chain.
  - done.
  - intros k. split.
    + intros [l Hl]. exists l. by apply Hi.
    + intros (l & Hl). exists l. by apply Hi.
  - intros k l Hkl. by apply Hi.
  - done.
  - by rewrite Hm.
Qed.

End Refinement.

(** ** The standalone list *)

Section ListFacts.
  Import DoublyLinkedList.
  Context {T : Type}.
  Implicit Types (d : DoublyLinkedList T) (h : list (DoublyLinkedListNode T)).
  Implicit Types (ls : list loc) (x y : loc).
  #[local] Arguments dseg : simpl never.

Lemma list_value_of_set_prev x v h y : value_of (set_prev x v h) y = value_of h y.
Proof.
  unfold value_of, set_prev. rewrite list_lookup_alter. case_decide; [subst|done].
  by destruct (h !! y).
Qed.

Lemma list_value_of_set_next x v h y : value_of (set_next x v h) y = value_of h y.
Proof.
  unfold value_of, set_next. rewrite list_lookup_alter. case_decide; [subst|done].
  by destruct (h !! y).
Qed.

(** [removeFirst] relinks: the second node becomes a head without [prev];
    the node taken out keeps the links it had. *)
Lemma removeFirst_chain d x ls :
  wf d (x :: ls) →
  (removeFirst d).1 = value_of (heap d) x ∧
  wf (removeFirst d).2 ls ∧
  prev_of (heap (removeFirst d).2) x = prev_of (heap d) x ∧
  next_of (heap (removeFirst d).2) x = next_of (heap d) x ∧
  (∀ y, value_of (heap (removeFirst d).2) y = value_of (heap d) y).
Proof.
  intros [(Hnd & Hd & Hhd & Htl) Hsz]. unfold removeFirst, wf, is_chain.
  destruct d as [hd tl sz eq h]; cbn [head tail heap _size] in *. subst hd.
  assert (sz = Z.of_nat (length ls) + 1) as Hsz' by (simpl in Hsz; lia).
  pose proof Hnd as Hnd'. apply NoDup_cons in Hnd' as [Hx Hnd'].
  pose proof Hd as (Hbx & Hpx & Hnx & Hd'). cbn [first_or]. cbv iota.
  cbn [head tail heap _size set_head set_tail set_heap set_size fst snd]. rewrite Hnx.
  destruct ls as [|z ls]; cbn [first_or]; cbv iota;
    cbn [head tail heap _size set_head set_tail set_heap set_size fst snd].
  - split_and!; try done; try exact I. simpl length in *. lia.
  - assert (z ≠ x) as Hzx by set_solver.
    assert (z < length h)%nat as Hbz by (by destruct Hd').
    split_and!; try done.
    + apply (dseg_unlink h _ [] x (z :: ls) Hnd Hd).
      * by rewrite length_set_prev.
      * intros y Hy. simpl. rewrite prev_of_set_prev by done.
        repeat case_decide; simplify_eq; done.
      * intros y Hy. simpl. by rewrite next_of_set_prev.
    + simpl length in *. lia.
    + by rewrite prev_of_set_prev_ne.
    + by rewrite next_of_set_prev.
    + intros y. apply list_value_of_set_prev.
Qed.

(** [removeLast], the mirror image. *)
Lemma removeLast_chain d ls x :
  wf d (ls ++ [x]) →
  (removeLast d).1 = value_of (heap d) x ∧
  wf (removeLast d).2 ls ∧
  prev_of (heap (removeLast d).2) x = prev_of (heap d) x ∧
  next_of (heap (removeLast d).2) x = next_of (heap d) x ∧
  (∀ y, value_of (heap (removeLast d).2) y = value_of (heap d) y).
Proof.
  intros [(Hnd & Hd & Hhd & Htl) Hsz]. unfold removeLast, wf, is_chain.
  destruct d as [hd tl sz eq h]; cbn [head tail heap _size] in *. subst tl.
  rewrite last_or_snoc. cbv iota.
  cbn [head tail heap _size set_head set_tail set_heap set_size fst snd].
  destruct (dseg_mid _ _ _ _ _ _ Hd) as (Hbx & Hpx & Hnx). rewrite Hpx.
  pose proof Hnd as Hnd'. apply NoDup_app in Hnd' as (Hnd1 & Hdisj & _).
  assert (x ∉ ls) as Hx by (intros Hin; apply (Hdisj x Hin); by left).
  rewrite length_app in Hsz. simpl in Hsz. rewrite first_or_app in Hhd.
  destruct (last_or ls None) as [z|] eqn:El; cbv iota;
    cbn [head tail heap _size set_head set_tail set_heap set_size fst snd].
  - assert (z ∈ ls) as Hz by (by apply last_or_elem in El as [?|[_ [=]]]).
    assert (z ≠ x) as Hzx by (by intros ->).
    assert (z < length h)%nat as Hbz by (eapply dseg_bound; [exact Hd|set_solver]).
    split_and!; try done.
    + rewrite <- (app_nil_r ls). apply (dseg_unlink h _ ls x [] Hnd Hd).
      * by rewrite length_set_next.
      * intros y Hy. simpl. by rewrite prev_of_set_next.
      * intros y Hy. rewrite El. simpl. rewrite next_of_set_next by done.
        repeat case_decide; simplify_eq; done.
    + rewrite Hhd. by destruct ls.
    + lia.
    + by rewrite prev_of_set_next.
    + by rewrite next_of_set_next_ne.
    + intros y. apply list_value_of_set_next.
  - assert (ls = []) as ->.
    { destruct ls as [|z ls IH] using rev_ind; [done|]. by rewrite last_or_snoc in El. }
    split_and!; try done; try exact I. simpl length in *. lia.
Qed.

(** The empty list and the two insertions keep the list a chain, so every
    list built through the public methods is one. *)
Lemma constructor_wf (eq : T → T → bool) : wf (constructor eq) [].
Proof.
  unfold wf, is_chain. simpl. split_and!; try done. apply NoDup_nil_2.
Qed.

Lemma addFirst_wf d ls (v : T) : wf d ls → wf (addFirst v d) (length (heap d) :: ls).
Proof.
  intros [(Hnd & Hd & Hhd & Htl) Hsz]. unfold addFirst, wf, is_chain.
  destruct d as [hd tl sz eq h]; cbn [head tail heap _size] in *.
  set (x := length h).
  assert (∀ y, y ∈ ls → (y < length h)%nat) as Hb by (intros y Hy; by eapply dseg_bound).
  assert (x ∉ ls) as Hx by (intros Hin; apply Hb in Hin; unfold x in Hin; lia).
  subst x.
  cbn [head tail heap _size set_head set_tail set_heap set_size]. subst hd tl.
  destruct ls as [|z ls]; cbn [first_or]; cbv iota;
    cbn [head tail heap _size set_head set_tail set_heap set_size].
  - split_and!; try done; [apply NoDup_singleton| |simpl length in *; lia].
    apply dseg_singleton. rewrite length_app. simpl. split_and!; [lia| |].
    + by rewrite prev_of_new.
    + by rewrite next_of_new.
  - assert (z ≠ length h) as Hzx by set_solver.
    assert (z < length h)%nat as Hbz by (apply Hb; by left).
    split_and!; try done.
    + by apply NoDup_cons.
    + apply (dseg_push h); try done.
      * rewrite length_set_prev, length_set_next, length_app. lia.
      * rewrite length_set_prev, length_set_next, length_app. simpl. lia.
      * rewrite prev_of_set_prev_ne, prev_of_set_next by done. by rewrite prev_of_new.
      * rewrite next_of_set_prev, next_of_set_next by (rewrite length_app; simpl; lia).
        by rewrite decide_True.
      * intros y Hy. assert (y ≠ length h) as Hyx by (by intros ->).
        rewrite prev_of_set_prev by (rewrite length_set_next, length_app; lia).
        simpl. rewrite prev_of_set_next. repeat case_decide; simplify_eq; try done.
        apply prev_of_alloc. by apply Hb.
      * intros y Hy. assert (y ≠ length h) as Hyx by (by intros ->).
        rewrite next_of_set_prev, next_of_set_next_ne by done.
        apply next_of_alloc. by apply Hb.
    + simpl length in *. lia.
Qed.

Lemma addLast_wf d ls (v : T) : wf d ls → wf (addLast v d) (ls ++ [length (heap d)]).
Proof.
  intros [(Hnd & Hd & Hhd & Htl) Hsz]. unfold addLast, wf, is_chain.
  destruct d as [hd tl sz eq h]; cbn [head tail heap _size] in *.
  set (x := length h).
  assert (∀ y, y ∈ ls → (y < length h)%nat) as Hb by (intros y Hy; by eapply dseg_bound).
  assert (x ∉ ls) as Hx by (intros Hin; apply Hb in Hin; unfold x in Hin; lia).
  subst x.
  assert (NoDup (ls ++ [length h])) as Hnd'.
  { apply NoDup_app. split_and!; [done| |apply NoDup_singleton].
    intros y Hy [->|Hin]%elem_of_cons; [done|by apply elem_of_nil in Hin]. }
  cbn [head tail heap _size set_head set_tail set_heap set_size]. subst hd tl.
  rewrite length_app. simpl length.
  destruct (last_or ls None) as [t|] eqn:El; cbv iota;
    cbn [head tail heap _size set_head set_tail set_heap set_size].
  - assert (t ∈ ls) as Ht by (by apply last_or_elem in El as [?|[_ [=]]]).
    assert (t ≠ length h) as Htx by (by intros ->).
    assert (t < length h)%nat as Hbt by (by apply Hb).
    split_and!; try done.
    + apply dseg_app. split.
      * apply (dseg_relink h _ None None ls None); try done.
        -- rewrite length_set_next, length_set_prev, length_app. lia.
        -- intros y Hy. assert (y ∈ ls) by (by apply first_or_elem in Hy as [?|[_ [=]]]).
           rewrite prev_of_set_next, prev_of_set_prev_ne by (by intros <-).
           rewrite prev_of_alloc by (by apply Hb). destruct ls; simplify_eq/=.
           by apply dseg_first in Hd.
        -- intros y Hy _. rewrite prev_of_set_next, prev_of_set_prev_ne by (by intros <-).
           apply prev_of_alloc. by apply Hb.
        -- intros y Hy. rewrite El in Hy. simplify_eq.
           rewrite next_of_set_next by (rewrite length_set_prev, length_app; lia).
           by rewrite decide_True.
        -- intros y Hy Hly. rewrite El in Hly.
           rewrite next_of_set_next_ne by (by intros <-). rewrite next_of_set_prev.
           apply next_of_alloc. by apply Hb.
      * rewrite El. apply dseg_singleton. split_and!.
        -- rewrite length_set_next, length_set_prev, length_app. simpl. lia.
        -- rewrite prev_of_set_next, prev_of_set_prev by (rewrite length_app; simpl; lia).
           by rewrite decide_True.
        -- rewrite next_of_set_next_ne, next_of_set_prev by done. by rewrite next_of_new.
    + rewrite first_or_app. by destruct ls.
    + by rewrite last_or_snoc.
    + lia.
  - assert (ls = []) as ->.
    { destruct ls as [|z ls IH] using rev_ind; [done|]. by rewrite last_or_snoc in El. }
    split_and!; try done; [|simpl length in *; lia].
    apply dseg_singleton. rewrite length_app. simpl. split_and!; [lia| |].
    + by rewrite prev_of_new.
    + by rewrite next_of_new.
Qed.

(** Comparing an integer with a number is comparing it with the number
    rounded up, or down. *)
Lemma lt_Z_Finite (i : Z) (q : Q) :
  JSNumber.lt (JSNumber.of_Z i) (JSNumber.Finite q) = (i <? Qceiling q).
Proof.
  unfold JSNumber.lt, JSNumber.of_Z.
  destruct (Z.ltb_spec i (Qceiling q)) as [Hlt|Hge].
  - destruct (Qle_bool q (inject_Z i)) eqn:E; [|done]. apply Qle_bool_iff in E.
    pose proof (Qceiling_lt q) as Hc.
    assert (inject_Z i <= inject_Z (Qceiling q - 1))%Q as Hi by (rewrite <- Zle_Qle; lia).
    destruct (Qlt_irrefl q). eapply Qle_lt_trans; [exact E|]. eapply Qle_lt_trans; eassumption.
  - assert (Qle_bool q (inject_Z i) = true) as ->; [|done]. apply Qle_bool_iff.
    eapply Qle_trans; [apply Qle_ceiling|]. by rewrite <- Zle_Qle.
Qed.

Lemma gt_Z_Finite (i : Z) (q : Q) :
  JSNumber.gt (JSNumber.of_Z i) (JSNumber.Finite q) = (Qfloor q <? i).
Proof.
  unfold JSNumber.gt, JSNumber.of_Z.
  destruct (Z.ltb_spec (Qfloor q) i) as [Hlt|Hge].
  - destruct (Qle_bool (inject_Z i) q) eqn:E; [|done]. apply Qle_bool_iff in E.
    pose proof (Qlt_floor q) as Hf.
    assert (inject_Z (Qfloor q + 1) <= inject_Z i)%Q as Hi by (rewrite <- Zle_Qle; lia).
    destruct (Qlt_irrefl q). eapply Qlt_le_trans; [exact Hf|]. eapply Qle_trans; eassumption.
  - assert (Qle_bool (inject_Z i) q = true) as ->; [|done]. apply Qle_bool_iff.
    eapply Qle_trans; [|apply Qfloor_le]. by rewrite <- Zle_Qle.
Qed.

Lemma lt_Finite_Z (q : Q) (n : Z) :
  JSNumber.lt (JSNumber.Finite q) (JSNumber.of_Z n) = (Qfloor q <? n).
Proof.
  unfold JSNumber.lt, JSNumber.of_Z. pose proof (gt_Z_Finite n q) as E.
  unfold JSNumber.gt, JSNumber.of_Z in E. exact E.
Qed.

Lemma ge_Finite_Z (q : Q) (n : Z) :
  JSNumber.ge (JSNumber.Finite q) (JSNumber.of_Z n) = (n <=? Qfloor q).
Proof.
  unfold JSNumber.ge, JSNumber.le. pose proof (gt_Z_Finite n q) as E.
  unfold JSNumber.gt, JSNumber.of_Z in E. unfold JSNumber.of_Z.
  destruct (Qle_bool (inject_Z n) q); simpl in E;
    destruct (Z.leb_spec n (Qfloor q)), (Z.ltb_spec (Qfloor q) n); try done; lia.
Qed.

Lemma lt_of_Z (a b : Z) : JSNumber.lt (JSNumber.of_Z a) (JSNumber.of_Z b) = (a <? b).
Proof. unfold JSNumber.of_Z at 2. by rewrite lt_Z_Finite, Qceiling_Z. Qed.

Lemma ge_of_Z (a b : Z) : JSNumber.ge (JSNumber.of_Z a) (JSNumber.of_Z b) = (b <=? a).
Proof. unfold JSNumber.of_Z at 1. by rewrite ge_Finite_Z, Qfloor_Z. Qed.

Lemma strict_eq_of_Z (a b : Z) :
  JSNumber.strict_eq (JSNumber.of_Z a) (JSNumber.of_Z b) = (a =? b).
Proof.
  unfold JSNumber.strict_eq, JSNumber.of_Z.
  destruct (Z.eqb_spec a b) as [->|Hne].
  - apply Qeq_bool_iff. reflexivity.
  - destruct (Qeq_bool (inject_Z a) (inject_Z b)) eqn:E; [|done].
    apply Qeq_bool_iff in E. apply (inject_Z_injective a b) in E. done.
Qed.

(** [index < size / 2], for an integer [index]. *)
Lemma lt_half_of_Z (i n : Z) :
  JSNumber.lt (JSNumber.of_Z i) (JSNumber.div (JSNumber.of_Z n) (JSNumber.of_Z 2)) = (2 * i <? n).
Proof.
  unfold JSNumber.lt, JSNumber.div, JSNumber.of_Z, Qle_bool. simpl.
  change (Z.pos (1 * 2)) with 2.
  destruct (Z.leb_spec (n * 1 * 1) (i * 2)), (Z.ltb_spec (2 * i) n); simpl; try done; lia.
Qed.

(** A loop of [getNodeAt] ends within its bound, after as many rounds as
    there are integers from its start to the index. *)
Lemma forward_follow (fuel : nat) h (q : Q) (i : Z) current :
  (Z.to_nat (Qceiling q - i) < fuel)%nat →
  forward fuel h (JSNumber.Finite q) i current =
    Some (follow (Z.to_nat (Qceiling q - i)) (next_of h) current).
Proof.
  revert i current. induction fuel as [|fuel IH]; intros i current Hf; [lia|].
  cbn [forward]. rewrite lt_Z_Finite. destruct (Z.ltb_spec i (Qceiling q)) as [Hlt|Hge].
  - replace (Z.to_nat (Qceiling q - i)) with (S (Z.to_nat (Qceiling q - (i + 1)))) in * by lia.
    cbn [follow]. destruct current as [c|]; [|done]. apply IH. lia.
  - by replace (Z.to_nat (Qceiling q - i)) with 0%nat by lia.
Qed.

Lemma backward_follow (fuel : nat) h (q : Q) (i : Z) current :
  (Z.to_nat (i - Qfloor q) < fuel)%nat →
  backward fuel h (JSNumber.Finite q) i current =
    Some (follow (Z.to_nat (i - Qfloor q)) (prev_of h) current).
Proof.
  revert i current. induction fuel as [|fuel IH]; intros i current Hf; [lia|].
  cbn [backward]. rewrite gt_Z_Finite. destruct (Z.ltb_spec (Qfloor q) i) as [Hlt|Hge].
  - replace (Z.to_nat (i - Qfloor q)) with (S (Z.to_nat (i - 1 - Qfloor q))) in * by lia.
    cbn [follow]. destruct current as [c|]; [|done]. apply IH. lia.
  - by replace (Z.to_nat (i - Qfloor q)) with 0%nat by lia.
Qed.

(** The forward loop of [getNodeAt] walks the chain from its head. *)
Lemma follow_next h p ls (i : nat) :
  dseg h p ls None → (i ≤ length ls)%nat →
  follow i (next_of h) (first_or ls None) = Ok (ls !! i).
Proof.
  revert p ls. induction i as [|i IH]; intros p [|z ls] Hd Hi; simpl in *; try done; try lia.
  destruct Hd as (_ & _ & -> & Hd). apply (IH (Some z)); [done|lia].
Qed.

(** The backward loop walks it from its tail. *)
Lemma follow_prev h ls n (j : nat) :
  dseg h None ls n → (j ≤ length ls)%nat →
  follow j (prev_of h) (last_or ls None) = Ok (reverse ls !! j).
Proof.
  revert ls n. induction j as [|j IH]; intros ls n Hd Hj.
  - simpl. destruct ls as [|z ls _] using rev_ind; [done|].
    by rewrite last_or_snoc, reverse_snoc.
  - destruct ls as [|z ls _] using rev_ind; [simpl in Hj; lia|].
    rewrite last_or_snoc, reverse_snoc. simpl.
    rewrite length_app in Hj. simpl in Hj.
    destruct (dseg_mid _ _ _ _ _ _ Hd) as (_ & -> & _).
    apply dseg_app in Hd as [Hd _]. apply (IH ls _ Hd). lia.
Qed.

(** On a chain [getNodeAt] returns, whatever number the index is, the
    node that [seq_get] finds in the sequence of the nodes. *)
Lemma getNodeAt_seq d ls (index : JSNumber.number) :
  wf d ls → getNodeAt index d = Some (Ok (seq_get index ls)).
Proof.
  intros [(Hnd & Hd & Hhd & Htl) Hsz]. unfold getNodeAt, seq_get. rewrite Hsz, Hhd, Htl.
  destruct index as [| | |q]; try done.
  - (* NaN *)
    simpl. destruct ls as [|z ls _] using rev_ind; [done|].
    by rewrite last_or_snoc, last_snoc.
  - (* a finite number *)
    destruct (JSNumber.lt _ _ || JSNumber.ge _ _) eqn:Hout; [done|].
    apply orb_false_iff in Hout as [H0 Hn]. rewrite lt_Finite_Z in H0. rewrite ge_Finite_Z in Hn.
    apply Z.ltb_ge in H0. apply Z.leb_gt in Hn.
    assert (Qceiling q ≤ Z.of_nat (length ls)) as Hc.
    { assert (inject_Z (Qceiling q - 1) < inject_Z (Qfloor q + 1))%Q as Hlt.
      { eapply Qlt_trans; [apply Qceiling_lt|apply Qlt_floor]. }
      rewrite <- Zlt_Qlt in Hlt. lia. }
    destruct (JSNumber.lt _ (JSNumber.div _ _)).
    + rewrite forward_follow by lia. rewrite Z.sub_0_r. f_equal.
      apply (follow_next _ None); [done|lia].
    + rewrite backward_follow by lia. f_equal.
      rewrite (follow_prev _ _ None) by (done || lia).
      rewrite reverse_lookup by lia. do 2 f_equal. lia.
Qed.

(** At an integer within the bounds that is the node at that position. *)
Lemma seq_get_of_Z {X : Type} (xs : list X) (i : Z) :
  seq_get (JSNumber.of_Z i) xs =
    if (i <? 0) || (Z.of_nat (length xs) <=? i) then None else xs !! Z.to_nat i.
Proof.
  unfold seq_get. change (JSNumber.of_Z i) with (JSNumber.Finite (inject_Z i)) at 1.
  cbv beta iota. change (JSNumber.Finite (inject_Z i)) with (JSNumber.of_Z i).
  rewrite lt_of_Z, ge_of_Z. destruct ((i <? 0) || (Z.of_nat (length xs) <=? i)); [done|].
  rewrite Qceiling_Z, Qfloor_Z. by destruct (JSNumber.lt _ _).
Qed.

Lemma getNodeAt_spec d ls (i : nat) :
  wf d ls → (i < length ls)%nat →
  getNodeAt (JSNumber.of_Z (Z.of_nat i)) d = Some (Ok (ls !! i)).
Proof.
  intros Hwf Hi. rewrite (getNodeAt_seq d ls _ Hwf), seq_get_of_Z.
  destruct (Z.ltb_spec (Z.of_nat i) 0); [lia|].
  destruct (Z.leb_spec (Z.of_nat (length ls)) (Z.of_nat i)); [lia|]. simpl.
  by rewrite Nat2Z.id.
Qed.

(** [removeAt] relinks the neighbours of the node it takes out, or hands
    over to [removeFirst] or [removeLast] at the ends; the node taken out
    keeps the links it had. *)
Lemma removeAt_chain d l1 x l2 :
  wf d (l1 ++ x :: l2) →
  ∃ d', removeAt (JSNumber.of_Z (Z.of_nat (length l1))) d = Some (Ok (value_of (heap d) x, d')) ∧
        wf d' (l1 ++ l2) ∧
        prev_of (heap d') x = prev_of (heap d) x ∧
        next_of (heap d') x = next_of (heap d) x ∧
        (∀ y, value_of (heap d') y = value_of (heap d) y).
Proof.
  intros Hwf. pose proof Hwf as [(Hnd & Hd & Hhd & Htl) Hsz].
  rewrite length_app in Hsz. simpl in Hsz. unfold removeAt.
  rewrite lt_of_Z, ge_of_Z, !strict_eq_of_Z. rewrite Hsz.
  destruct (Z.ltb_spec (Z.of_nat (length l1)) 0); [lia|].
  destruct (Z.leb_spec (Z.of_nat (length l1 + S (length l2))) (Z.of_nat (length l1))); [lia|].
  simpl orb. cbv iota.
  destruct (Z.eqb_spec (Z.of_nat (length l1)) 0) as [E0|E0].
  { destruct l1; [|simpl in E0; lia]. simpl in *.
    destruct (removeFirst_chain d x l2 Hwf) as (Hv & ? & ? & ? & ?).
    exists (removeFirst d).2. split; [|done]. rewrite <- Hv. by destruct (removeFirst d). }
  destruct (Z.eqb_spec (Z.of_nat (length l1)) (Z.of_nat (length l1 + S (length l2)) - 1)) as [E1|E1].
  { destruct l2; [|simpl in E1; lia]. rewrite app_nil_r.
    destruct (removeLast_chain d l1 x Hwf) as (Hv & ? & ? & ? & ?).
    exists (removeLast d).2. split; [|done]. rewrite <- Hv. by destruct (removeLast d). }
  rewrite (getNodeAt_spec d (l1 ++ x :: l2)) by (done || (rewrite length_app; simpl; lia)).
  rewrite list_lookup_middle by done.
  destruct (dseg_mid _ _ _ _ _ _ Hd) as (Hbx & Hpx & Hnx).
  pose proof Hnd as Hnd'. apply NoDup_app in Hnd' as (Hnd1 & Hdisj & Hnd2).
  apply NoDup_cons in Hnd2 as (Hx2 & Hnd2).
  assert (x ∉ l1) as Hx1 by (intros Hin; apply (Hdisj x Hin); by left).
  destruct l1 as [|z0 l1 _] using rev_ind; [done|]. clear E0.
  destruct l2 as [|n l2]; [rewrite length_app in E1; simpl in E1; lia|]. clear E1.
  rewrite last_or_snoc in Hpx. simpl in Hnx. set (p := z0) in *.
  assert (p ≠ x ∧ n ≠ x) as [Hpx' Hnx'] by set_solver.
  assert ((p < length (heap d))%nat ∧ (n < length (heap d))%nat) as [Hbp Hbn].
  { split; (eapply dseg_bound; [exact Hd|set_solver]). }
  destruct d as [hd tl sz eq h]; cbn [head tail heap _size] in *.
  rewrite Hpx. cbv iota. cbn [head tail heap _size set_head set_tail set_heap set_size].
  rewrite next_of_set_next_ne, Hnx by done. cbv iota.
  cbn [head tail heap _size set_head set_tail set_heap set_size].
  rewrite prev_of_set_next, Hpx.
  eexists. split; [done|]. unfold wf, is_chain.
  cbn [head tail heap _size set_head set_tail set_heap set_size].
  assert (NoDup ((l1 ++ [p]) ++ n :: l2)) as Hnd12.
  { apply NoDup_app. split_and!; [done| |done]. intros y Hy Hy2. apply (Hdisj y Hy). by right. }
  split_and!.
  - done.
  - apply (dseg_unlink h _ (l1 ++ [p]) x (n :: l2) Hnd Hd).
    + by rewrite length_set_prev, length_set_next.
    + intros y Hy. rewrite last_or_snoc. simpl.
      rewrite prev_of_set_prev by (by rewrite length_set_next).
      rewrite prev_of_set_next. repeat case_decide; simplify_eq; done.
    + intros y Hy. rewrite last_or_snoc. simpl.
      rewrite next_of_set_prev, next_of_set_next by done.
      repeat case_decide; simplify_eq; done.
  - rewrite Hhd, !first_or_app. by destruct l1.
  - rewrite Htl, !last_or_app. by rewrite !last_or_cons.
  - rewrite !length_app in *. simpl in *. lia.
  - by rewrite prev_of_set_prev_ne, prev_of_set_next.
  - by rewrite next_of_set_prev, next_of_set_next_ne.
  - intros y. by rewrite list_value_of_set_prev, list_value_of_set_next.
Qed.

End ListFacts.

(** ** Facts about the list view *)

Section ViewFacts.
  Import LRUCache.
  Context {K : Type} `{Countable K} {V : Type}.
  #[local] Arguments JSNumber.gt : simpl never.
  #[local] Arguments removelast : simpl never.
  Implicit Types (s : LRUCache K V) (a : view K V) (o : op K V) (ops : list (op K V)).
  Implicit Types (es : list (K * V)) (k : K) (v : V).

Lemma gt_of_Z (n c : Z) : JSNumber.gt (JSNumber.of_Z n) (JSNumber.of_Z c) = (c <? n).
Proof.
  unfold JSNumber.gt, JSNumber.of_Z, Qle_bool. simpl. rewrite !Z.mul_1_r.
  destruct (Z.leb_spec n c), (Z.ltb_spec c n); simpl; try done; lia.
Qed.

Lemma le_of_Z (n c : Z) : JSNumber.le (JSNumber.of_Z n) (JSNumber.of_Z c) = (n <=? c).
Proof. unfold JSNumber.le, JSNumber.of_Z, Qle_bool. simpl. by rewrite !Z.mul_1_r. Qed.

Lemma constructor_of_Z (c : Z) (s0 : LRUCache K V) :
  constructor (JSNumber.of_Z c) = Ok s0 → 0 < c.
Proof.
  unfold constructor. rewrite le_of_Z. destruct (Z.leb_spec c 0); [done|]. intros _. lia.
Qed.

Lemma assoc_Some_split k v es :
  assoc k es = Some v → ∃ ea eb, es = ea ++ (k, v) :: eb ∧ k ∉ ea.*1.
Proof.
  induction es as [|[k' v'] es IH]; [done|]. simpl. case_decide as E; simpl in E.
  - intros [= ->]. subst. exists [], es. split; [done|]. apply not_elem_of_nil.
  - intros (ea & eb & -> & Hk)%IH. exists ((k', v') :: ea), eb. split; [done|].
    rewrite ?fmap_cons; simpl. apply not_elem_of_cons. done.
Qed.

(** With distinct keys, [without k] takes out one entry, the one [assoc k] finds. *)
Lemma without_assoc k v es :
  NoDup es.*1 → assoc k es = Some v →
  ∃ ea eb, es = ea ++ (k, v) :: eb ∧ without k es = ea ++ eb ∧
           (k ∉ ea.*1) ∧ (k ∉ eb.*1).
Proof.
  intros Hnd (ea & eb & -> & Hka)%assoc_Some_split.
  rewrite fmap_app in Hnd; simpl in Hnd. apply NoDup_app in Hnd as (_ & _ & Hnd).
  apply NoDup_cons in Hnd as [Hkb _]. simpl in Hkb.
  exists ea, eb. split_and!; try done. by apply without_split.
Qed.

Lemma without_keys_subseteq k es : (without k es).*1 ⊆ es.*1.
Proof.
  intros k' (e & -> & He)%list_elem_of_fmap. apply list_elem_of_fmap. exists e. split; [done|].
  unfold without in He. by apply list_elem_of_filter in He as [_ ?].
Qed.

Lemma without_keys_NoDup k es : NoDup es.*1 → NoDup (without k es).*1 ∧ k ∉ (without k es).*1.
Proof.
  intros Hnd. split.
  - unfold without. induction es as [|e es IH]; [done|].
    simpl in Hnd. apply NoDup_cons in Hnd as [He Hnd].
    destruct (decide (e.1 ≠ k)).
    + rewrite filter_cons_True by done. rewrite ?fmap_cons; simpl. apply NoDup_cons. split; [|by apply IH].
      intros Hin. apply He. by apply (without_keys_subseteq k).
    + rewrite filter_cons_False by done. by apply IH.
  - intros (e & -> & He)%list_elem_of_fmap. unfold without in He.
    by apply list_elem_of_filter in He as [? _].
Qed.

Lemma removelast_keys_NoDup es : NoDup es.*1 → NoDup (removelast es).*1.
Proof.
  destruct es as [|e es IH] using rev_ind; [done|]. rewrite removelast_last, fmap_app.
  by intros (? & _ & _)%NoDup_app.
Qed.

(** The keys of the list stay distinct. *)
Lemma view_step_NoDup o a :
  NoDup (v_entries a).*1 → NoDup (v_entries (view_step o a).2).*1.
Proof.
  intros Hnd. pose proof (without_keys_NoDup) as Hw.
  destruct o as [k|k v|k|k|k| | | |]; cbn; try done.
  - destruct (assoc k _) eqn:E; cbn; [|done].
    rewrite ?fmap_cons; simpl. apply NoDup_cons. simpl. destruct (Hw k _ Hnd). done.
  - destruct (assoc k _) eqn:E; cbn.
    + rewrite ?fmap_cons; simpl. apply NoDup_cons. simpl. destruct (Hw k _ Hnd). done.
    + apply assoc_None in E.
      assert (NoDup ((k, v) :: v_entries a).*1) as Hnd'.
      { rewrite ?fmap_cons; simpl. by apply NoDup_cons. }
      case_match; [|done]. by apply removelast_keys_NoDup in Hnd'.
  - destruct (assoc k _) eqn:E; cbn; [|done]. by destruct (Hw k _ Hnd).
  - apply NoDup_nil_2.
Qed.

Lemma view_step_capacity o a : v_capacity (view_step o a).2 = v_capacity a.
Proof. destruct o; simpl; repeat case_match; done. Qed.

Lemma length_removelast_cons (e : K * V) es : length (removelast (e :: es)) = length es.
Proof.
  destruct (exists_last (l := e :: es)) as (ea & e' & Ee); [done|].
  rewrite Ee, removelast_last. apply (f_equal length) in Ee.
  rewrite length_app in Ee. simpl in Ee. lia.
Qed.

(** How a call changes the number of entries. *)
Lemma view_step_length o a (c : Z) :
  NoDup (v_entries a).*1 → v_capacity a = JSNumber.of_Z c →
  let es := v_entries a in
  let a' := (view_step o a).2 in
  Z.of_nat (length (v_entries a')) =
    match o with
    | Put k _ =>
        Z.of_nat (length es) + (if assoc k es is Some _ then 0 else 1)
          - (v_evictions a' - v_evictions a)
    | Delete k => Z.of_nat (length es) - (if assoc k es is Some _ then 1 else 0)
    | Clear => 0
    | _ => Z.of_nat (length es)
    end ∧
  (Z.of_nat (length es) ≤ c → Z.of_nat (length (v_entries a')) ≤ c).
Proof.
  intros Hnd Hcap es a'. subst es a'.
  destruct o as [k|k v|k|k|k| | | |]; cbn; try (split; [done|lia]).
  - destruct (assoc k _) eqn:E; cbn; [|done].
    destruct (without_assoc _ _ _ Hnd E) as (ea & eb & -> & -> & _).
    rewrite !length_app. simpl. split; lia.
  - destruct (assoc k _) eqn:E; cbn.
    + destruct (without_assoc _ _ _ Hnd E) as (ea & eb & -> & -> & _).
      rewrite !length_app. simpl. split; lia.
    + rewrite Hcap, gt_of_Z. destruct (Z.ltb_spec c (Z.of_nat (length (v_entries a)) + 1)).
      * cbn -[removelast]. rewrite length_removelast_cons. split; lia.
      * cbn. split; lia.
  - destruct (assoc k _) eqn:E; cbn; [|split; [lia|done]].
    destruct (without_assoc _ _ _ Hnd E) as (ea & eb & -> & -> & _).
    rewrite !length_app. simpl. split; lia.
Qed.

Lemma views_size s a : views s a → _size s = Z.of_nat (length (v_entries a)).
Proof. intros (ls & [_ _ -> _] & Hf & _). by rewrite (Forall2_length _ _ _ Hf). Qed.

Lemma views_NoDup s a : views s a → NoDup (v_entries a).*1.
Proof. intros (ls & Hv). by eapply views_keys_NoDup. Qed.

Lemma views_present s a k : views s a → is_Some (assoc k (v_entries a)) ↔ is_Some (cache s !! k).
Proof. intros (ls & Hv). by eapply views_assoc_is_Some. Qed.

Lemma views_evictions s a : views s a → _evictions s = v_evictions a.
Proof. by intros (ls & _ & _ & _ & _ & _ & ?). Qed.

Lemma views_capacity s a : views s a → capacity s = v_capacity a.
Proof. by intros (ls & _ & _ & ? & _). Qed.

(** The size stays within an integer capacity and is what the tally says. *)
Lemma account_run (c : Z) ops s a (t : tally) :
  views s a → v_capacity a = JSNumber.of_Z c →
  Z.of_nat (length (v_entries a)) ≤ c →
  Z.of_nat (length (v_entries a)) = inserted t - deleted t - evicted t →
  ∃ rs s' t', run ops s = Some (rs, s') ∧ count ops s t = Some t' ∧
              _size s' ≤ c ∧ _size s' = inserted t' - deleted t' - evicted t'.
Proof.
  revert s a t. induction ops as [|o ops IH]; intros s a t Hv Hcap Hle Ht.
  - exists [], s, t. rewrite (views_size _ _ Hv). done.
  - destruct (refine_step o s a Hv) as (s1 & Hex & Hv1).
    pose proof (view_step_length o a c (views_NoDup _ _ Hv) Hcap) as [Hlen Hle1].
    cbn zeta in Hlen, Hle1.
    assert (Z.of_nat (length (v_entries (view_step o a).2)) =
            inserted (bump o s s1 t) - deleted (bump o s s1 t) - evicted (bump o s s1 t)) as Ht1.
    { pose proof (views_evictions _ _ Hv) as E1. pose proof (views_evictions _ _ Hv1) as E2.
      destruct o as [k|k v|k|k|k| | | |]; cbv beta iota in Hlen; rewrite Hlen;
        unfold bump; cbn [inserted deleted evicted]; rewrite ?E1, ?E2; try lia.
      - pose proof (views_present s a k Hv) as Hp.
        destruct (assoc k (v_entries a)), (cache s !! k);
          try lia; exfalso; destruct Hp as [Hp1 Hp2];
          first [by destruct Hp1 | by destruct Hp2].
      - pose proof (views_present s a k Hv) as Hp.
        destruct (assoc k (v_entries a)), (cache s !! k);
          try lia; exfalso; destruct Hp as [Hp1 Hp2];
          first [by destruct Hp1 | by destruct Hp2]. }
    destruct (IH s1 _ (bump o s s1 t) Hv1) as (rs & s' & t' & Hrun & Hcount & Hb & Hs');
      [by rewrite view_step_capacity|by apply Hle1|done|].
    exists ((view_step o a).1 :: rs), s', t'. simpl. rewrite Hex. simpl.
    rewrite Hrun, Hcount. done.
Qed.

(** What one call does to the two access counters. *)
Lemma view_step_accesses o a :
  let a' := (view_step o a).2 in
  v_hits a' + v_misses a' =
    (if is_reset o then 0 else v_hits a + v_misses a) + (if is_get o then 1 else 0) ∧
  (0 ≤ v_hits a → 0 ≤ v_misses a → 0 ≤ v_hits a' ∧ 0 ≤ v_misses a').
Proof.
  destruct o as [k|k v|k|k|k| | | |]; cbn; repeat case_match; cbn; split; lia.
Qed.

Lemma view_run_accesses ops a :
  let a' := (view_run ops a).2 in
  v_hits a' + v_misses a' =
    (if existsb is_reset ops then 0 else v_hits a + v_misses a) + gets_after is_reset ops ∧
  (0 ≤ v_hits a → 0 ≤ v_misses a → 0 ≤ v_hits a' ∧ 0 ≤ v_misses a').
Proof.
  revert a. induction ops as [|o ops IH]; intros a; [cbn; split; lia|].
  cbn zeta. simpl view_run. pose proof (view_step_accesses o a) as [E1 P1]. cbn zeta in E1, P1.
  destruct (view_step o a) as [r a1]. simpl in E1, P1.
  pose proof (IH a1) as [E2 P2]. cbn zeta in E2, P2.
  destruct (view_run ops a1) as [rs a2]. simpl in E2, P2 |- *.
  split; [|tauto]. rewrite E2.
  destruct (existsb is_reset ops); [by rewrite orb_true_r|].
  rewrite orb_false_r, E1. destruct (is_reset o); lia.
Qed.

Lemma gets_after_no_reset ops :
  existsb (λ o, match o with ResetStats => true | _ => false end) ops = false →
  gets_after (@is_reset K V) ops = gets_after is_clear ops.
Proof.
  induction ops as [|o ops IH]; [done|]. simpl. intros [Ho Hops]%orb_false_iff.
  rewrite IH by done.
  assert (existsb is_reset ops = existsb is_clear ops) as ->; [|done].
  clear -Hops. induction ops as [|o' ops IH]; [done|]. simpl in *.
  apply orb_false_iff in Hops as [? ?]. rewrite IH by done. by destruct o'.
Qed.

Lemma views_hits s a : views s a → _hits s = v_hits a ∧ _misses s = v_misses a.
Proof. by intros (ls & _ & _ & _ & ? & ? & _). Qed.

(** A state reached from a constructed cache is viewed by the list that
    the same calls leave, and the calls returned what the list says. *)
Lemma reach_views (cap : JSNumber.number) s0 ops rs s :
  constructor cap = Ok s0 → run ops s0 = Some (rs, s) →
  views s (view_run ops (mkView [] cap 0 0 0)).2 ∧
  rs = (view_run ops (mkView [] cap 0 0 0)).1.
Proof.
  intros Hc Hrun.
  destruct (refine_run ops s0 _ (views_constructor _ _ Hc)) as (s' & Hrun' & Hv).
  rewrite Hrun in Hrun'. by simplify_eq.
Qed.

Lemma view_run_capacity ops a : v_capacity (view_run ops a).2 = v_capacity a.
Proof.
  revert a. induction ops as [|o ops IH]; intros a; [done|]. simpl.
  pose proof (view_step_capacity o a) as E. destruct (view_step o a) as [r a1].
  pose proof (IH a1) as E'. destruct (view_run ops a1) as [rs a2]. simpl in *. congruence.
Qed.

Lemma view_run_NoDup ops a : NoDup (v_entries a).*1 → NoDup (v_entries (view_run ops a).2).*1.
Proof.
  revert a. induction ops as [|o ops IH]; intros a Hnd; [done|]. simpl.
  pose proof (view_step_NoDup o a Hnd) as E. destruct (view_step o a) as [r a1].
  pose proof (IH a1 E) as E'. by destruct (view_run ops a1) as [rs a2].
Qed.

Lemma view_run_bounded (c : Z) ops a :
  NoDup (v_entries a).*1 → v_capacity a = JSNumber.of_Z c →
  Z.of_nat (length (v_entries a)) ≤ c →
  Z.of_nat (length (v_entries (view_run ops a).2)) ≤ c.
Proof.
  revert a. induction ops as [|o ops IH]; intros a Hnd Hcap Hle; [done|]. simpl.
  pose proof (view_step_NoDup o a Hnd) as E.
  pose proof (view_step_capacity o a) as Ec.
  pose proof (view_step_length o a c Hnd Hcap) as [_ Hl]. cbn zeta in Hl.
  destruct (view_step o a) as [r a1]. simpl in *.
  pose proof (IH a1 E) as E'. destruct (view_run ops a1) as [rs a2]. simpl in *.
  apply E'; [congruence|by apply Hl].
Qed.

(** [entries()] returns the list of the view, [keys()] its keys. *)
Lemma views_entries s a : views s a → entries s = Some (v_entries a).
Proof.
  intros (ls & [Hc _ _ _] & Hf & _). unfold entries.
  rewrite (walk_chain _ _ _ _ Hc). simpl. by apply mapM_Some.
Qed.

Lemma views_keys s a : views s a → keys s = Some (v_entries a).*1.
Proof. intros Hv. unfold keys. by rewrite (views_entries _ _ Hv). Qed.

Lemma views_getMostRecent s a : views s a → (getMostRecent s).1 = list.head (v_entries a).
Proof. intros (ls & Hv). by eapply views_head. Qed.

Lemma views_getLeastRecent s a : views s a → (getLeastRecent s).1 = last (v_entries a).
Proof. intros (ls & Hv). by eapply views_tail. Qed.

Lemma views_has s a k : views s a → (has k s).1 = bool_decide (is_Some (assoc k (v_entries a))).
Proof. intros Hv. unfold has. simpl. apply bool_decide_ext. symmetry. by apply views_present. Qed.

Lemma views_put s a k v : views s a → views (put k v s) (view_step (Put k v) a).2.
Proof.
  intros Hv. destruct (refine_step (Put k v) s a Hv) as (s' & Hex & Hv').
  simpl in Hex. by simplify_eq.
Qed.

Lemma views_get s a k :
  views s a →
  RValue (get k s).1 = (view_step (Get k) a).1 ∧ views (get k s).2 (view_step (Get k) a).2.
Proof.
  intros Hv. destruct (refine_step (Get k) s a Hv) as (s' & Hex & Hv').
  unfold exec in Hex. destruct (get k s) as [r s1]. simpl. by simplify_eq.
Qed.

(** What the list says of a state reached under an integer capacity. *)
Lemma reach_facts (c : Z) s0 ops rs s :
  constructor (JSNumber.of_Z c) = Ok s0 → run ops s0 = Some (rs, s) →
  ∃ a, views s a ∧ v_capacity a = JSNumber.of_Z c ∧ NoDup (v_entries a).*1 ∧
       Z.of_nat (length (v_entries a)) ≤ c ∧ 0 < c.
Proof.
  intros Hc Hrun. pose proof (constructor_of_Z _ _ Hc) as Hpos.
  destruct (reach_views _ _ _ _ _ Hc Hrun) as [Hv _].
  eexists. split; [exact Hv|]. split_and!; [| | |done].
  - by rewrite view_run_capacity.
  - apply view_run_NoDup. simpl. apply NoDup_nil_2.
  - apply view_run_bounded; simpl; [apply NoDup_nil_2|done|lia].
Qed.

Lemma view_put_absent_full (c : Z) a k v :
  v_capacity a = JSNumber.of_Z c → assoc k (v_entries a) = None →
  c < Z.of_nat (length (v_entries a)) + 1 →
  (view_step (Put k v) a).2 =
    mkView (removelast ((k, v) :: v_entries a)) (v_capacity a)
           (v_hits a) (v_misses a) (v_evictions a + 1).
Proof.
  intros Hcap Hk Hgt. unfold view_step. rewrite Hk, Hcap, gt_of_Z.
  destruct (Z.ltb_spec c (Z.of_nat (length (v_entries a)) + 1)); [done|lia].
Qed.

Lemma view_put_present a k v v0 :
  assoc k (v_entries a) = Some v0 →
  (view_step (Put k v) a).2 =
    mkView ((k, v) :: without k (v_entries a)) (v_capacity a)
           (v_hits a) (v_misses a) (v_evictions a).
Proof. intros Hk. unfold view_step. by rewrite Hk. Qed.

(** *** Recency *)

Lemma last_touch_from_snoc (n : nat) k ops o :
  last_touch_from n k (ops ++ [o]) =
    if touches k o then S (n + length ops) else last_touch_from n k ops.
Proof.
  revert n. induction ops as [|o' ops IH]; intros n; simpl.
  - rewrite Nat.add_0_r. by destruct (touches k o).
  - rewrite IH. destruct (touches k o); [|done]. f_equal. lia.
Qed.

Lemma last_touch_from_bound (n : nat) k ops :
  (last_touch_from n k ops ≤ n + length ops)%nat.
Proof.
  revert n. induction ops as [|o ops IH]; intros n; simpl; [lia|].
  specialize (IH (S n)). destruct (last_touch_from (S n) k ops); [|lia].
  destruct (touches k o); lia.
Qed.

Lemma last_touch_snoc k ops o :
  last_touch k (ops ++ [o]) = if touches k o then S (length ops) else last_touch k ops.
Proof. apply last_touch_from_snoc. Qed.

Lemma last_touch_bound k ops : (last_touch k ops ≤ length ops)%nat.
Proof. apply (last_touch_from_bound 0). Qed.

Lemma ordered_ext (f g : K → nat) es :
  (∀ e, e ∈ es → g e.1 = f e.1) → ordered f es → ordered g es.
Proof.
  induction es as [|e es IH]; [done|]. intros Hfg (Hall & Hpos & Hord). simpl.
  rewrite (Hfg e) by (by left). split_and!; [|done|].
  - apply Forall_forall. intros e' He'. rewrite (Hfg e') by (by right).
    by apply (proj1 (Forall_forall _ _) Hall).
  - apply IH; [|done]. intros e' He'. apply Hfg. by right.
Qed.

Lemma ordered_filter (f : K → nat) (P : K * V → Prop) `{∀ e, Decision (P e)} es :
  ordered f es → ordered f (filter P es).
Proof.
  induction es as [|e es IH]; [done|]. intros (Hall & Hpos & Hord).
  destruct (decide (P e)).
  - rewrite filter_cons_True by done. simpl. split_and!; [|done|by apply IH].
    apply Forall_forall. intros e' [_ He']%list_elem_of_filter.
    by apply (proj1 (Forall_forall _ _) Hall).
  - rewrite filter_cons_False by done. by apply IH.
Qed.

Lemma ordered_app_l (f : K → nat) (ea eb : list (K * V)) :
  ordered f (ea ++ eb) → ordered f ea.
Proof.
  induction ea as [|e ea IH]; [done|]. simpl. intros (Hall & Hpos & Hord).
  split_and!; [|done|by apply IH]. by apply Forall_app in Hall as [? _].
Qed.

Lemma ordered_removelast (f : K → nat) es : ordered f es → ordered f (removelast es).
Proof.
  destruct es as [|e es IH] using rev_ind; [done|]. rewrite removelast_last.
  apply ordered_app_l.
Qed.

Lemma ordered_last (f : K → nat) (ea : list (K * V)) (e e' : K * V) :
  ordered f (ea ++ [e]) → e' ∈ ea → (f e.1 < f e'.1)%nat.
Proof.
  induction ea as [|e0 ea IH]; [by intros _ ?%elem_of_nil|]. simpl.
  intros (Hall & _ & Hord) Hin. apply elem_of_cons in Hin as [->|Hin].
  - rewrite Forall_app, Forall_singleton in Hall. by destruct Hall.
  - by apply IH.
Qed.

Lemma ordered_pos (f : K → nat) es (e : K * V) : ordered f es → e ∈ es → (0 < f e.1)%nat.
Proof.
  induction es as [|e0 es IH]; [by intros _ ?%elem_of_nil|]. simpl.
  intros (_ & Hpos & Hord) [->|Hin]%elem_of_cons; [done|by apply IH].
Qed.

Lemma touches_other k k' o : touches k o = true → k' ≠ k → touches k' o = false.
Proof.
  destruct o; simpl; try done; intros ->%bool_decide_eq_true ?; by apply bool_decide_eq_false.
Qed.

(** One more call keeps the list in the order of the last touches. *)
Lemma view_step_ordered hist o a :
  ordered (λ k, last_touch k hist) (v_entries a) →
  ordered (λ k, last_touch k (hist ++ [o])) (v_entries (view_step o a).2).
Proof.
  intros Hord.
  assert (∀ es k v, ordered (λ k, last_touch k hist) es → touches k o = true →
            ordered (λ k, last_touch k (hist ++ [o])) ((k, v) :: without k es)) as Htouch.
  { intros es k v Hes Hk. simpl. rewrite !last_touch_snoc, Hk. split_and!; [|lia|].
    - apply Forall_forall. intros e' [He' _]%list_elem_of_filter. rewrite last_touch_snoc.
      rewrite (touches_other k e'.1 o) by done.
      pose proof (last_touch_bound e'.1 hist). lia.
    - apply (ordered_ext (λ k, last_touch k hist)); [|by apply ordered_filter].
      intros e' [He' _]%list_elem_of_filter. rewrite last_touch_snoc.
      by rewrite (touches_other k e'.1 o). }
  assert (∀ es, ordered (λ k, last_touch k hist) es →
            (∀ e, e ∈ es → touches e.1 o = false) →
            ordered (λ k, last_touch k (hist ++ [o])) es) as Hkeep.
  { intros es Hes Hno. apply (ordered_ext (λ k, last_touch k hist)); [|done].
    intros e He. by rewrite last_touch_snoc, Hno. }
  assert (∀ k es, assoc k es = None → ∀ e, e ∈ es → e.1 ≠ k) as Hfresh.
  { intros k es Hk e He <-. apply assoc_None in Hk. apply Hk. apply list_elem_of_fmap. eauto. }
  destruct o as [k|k v|k|k|k| | | |]; cbn; try done; try (by apply Hkeep).
  - destruct (assoc k _) as [v0|] eqn:Hk; cbn.
    + apply (Htouch (v_entries a) k v0); [done|]. simpl. by apply bool_decide_eq_true.
    + apply Hkeep; [done|]. intros e He. simpl. apply bool_decide_eq_false.
      intros E. by apply (Hfresh k _ Hk e).
  - destruct (assoc k _) as [v0|] eqn:Hk; cbn.
    + apply (Htouch (v_entries a) k v); [done|]. simpl. by apply bool_decide_eq_true.
    + assert (ordered (λ k0, last_touch k0 (hist ++ [Put k v])) ((k, v) :: v_entries a)) as Hnew.
      { simpl. rewrite !last_touch_snoc. simpl. rewrite bool_decide_eq_true_2 by done.
        split_and!; [|lia|].
        - apply Forall_forall. intros e' He'. rewrite last_touch_snoc. simpl.
          rewrite bool_decide_eq_false_2 by (intros E; by apply (Hfresh k _ Hk e')).
          pose proof (last_touch_bound e'.1 hist). lia.
        - apply Hkeep; [done|]. intros e He. simpl. apply bool_decide_eq_false.
          intros E. by apply (Hfresh k _ Hk e). }
      case_match; cbn -[removelast]; [by apply ordered_removelast|done].
  - destruct (assoc k _) eqn:Hk; cbn; [|by apply Hkeep].
    apply Hkeep; [by apply ordered_filter|done].
Qed.

Lemma view_run_snoc ops o a :
  (view_run (ops ++ [o]) a).2 = (view_step o (view_run ops a).2).2.
Proof.
  revert a. induction ops as [|o' ops IH]; intros a; simpl.
  - by destruct (view_step o a).
  - destruct (view_step o' a) as [r a1]. specialize (IH a1).
    by destruct (view_run (ops ++ [o]) a1), (view_run ops a1).
Qed.

Lemma view_run_ordered ops (cap : JSNumber.number) :
  ordered (λ k, last_touch k ops) (v_entries (view_run ops (mkView (K:=K) (V:=V) [] cap 0 0 0)).2).
Proof.
  induction ops as [|o ops IH] using rev_ind; [done|].
  rewrite view_run_snoc. by apply view_step_ordered.
Qed.

Lemma views_has_true s a k :
  views s a → (has k s).1 = true ↔ ∃ v, (k, v) ∈ v_entries a.
Proof.
  intros Hv. rewrite (views_has _ _ k Hv), bool_decide_eq_true. split.
  - intros [v Hk]. apply assoc_Some_split in Hk as (ea & eb & -> & _). exists v.
    apply elem_of_app. right. by left.
  - intros [v Hin]. destruct (assoc k (v_entries a)) eqn:Hk; [by eexists|].
    apply assoc_None in Hk. destruct Hk. apply list_elem_of_fmap. by exists (k, v).
Qed.

End ViewFacts.

(** ** The properties of the design document *)

Section Claims.
  Import LRUCache.
  #[local] Existing Instance DoublyLinkedList.DoublyLinkedListNode_linked.
  Context {K : Type} `{Countable K} {V : Type}.
  Implicit Types (s : LRUCache K V) (ops : list (op K V)).

(** C1. Whatever sequence of public calls is made on a cache that was
    constructed, every call returns, and in the state it leaves a key is
    in the index exactly when a node with that key is reachable from the
    head, the index maps the key to that very node, and [_size] is both
    the number of index entries and the number of nodes of the chain.
    (The sequence is arbitrary, so this holds after each of its calls.) *)
Theorem C1_index_and_chain_agree (cap : JSNumber.number) s0 ops :
  constructor cap = Ok s0 →
  ∃ rs s, run ops s0 = Some (rs, s) ∧ consistent s.
Proof.
  intros Hc. destruct (refine_run ops s0 _ (views_constructor _ _ Hc)) as (s & Hrun & Hv).
  eexists _, s. split; [done|]. by eapply views_consistent.
Qed.

(** C2, as amended.  On a cache constructed with the integer capacity
    [c], whatever calls are made, every call returns, the size is at most
    [c], and it equals the number of puts of a key that was absent, minus
    the deletes that found their key and the evictions, all counted since
    the last [clear] (or the construction). *)
Theorem C2_size_bounded_and_accounted (c : Z) s0 ops :
  constructor (JSNumber.of_Z c) = Ok s0 →
  ∃ rs s t, run ops s0 = Some (rs, s) ∧ count ops s0 (mkTally 0 0 0) = Some t ∧
            _size s ≤ c ∧ _size s = inserted t - deleted t - evicted t.
Proof.
  intros Hc. pose proof (constructor_of_Z _ _ Hc) as Hpos.
  apply (account_run c ops s0 _ _ (views_constructor _ _ Hc)); simpl; [done|lia|done].
Qed.

(** The general half of C3: a [put] of an absent key into a cache that
    is at its integer capacity. *)
Lemma put_over_capacity (c : Z) s0 ops rs s k v :
  constructor (JSNumber.of_Z c) = Ok s0 → run ops s0 = Some (rs, s) →
  (has k s).1 = false → c < _size s + 1 →
  ∃ kt vt ks,
    (getLeastRecent s).1 = Some (kt, vt) ∧
    keys s = Some (ks ++ [kt]) ∧ keys (put k v s) = Some (k :: ks) ∧
    (has kt (put k v s)).1 = false ∧ (has k (put k v s)).1 = true ∧
    _size s = c ∧ _size (put k v s) = c ∧
    _evictions (put k v s) = _evictions s + 1 ∧
    _hits (put k v s) = _hits s ∧ _misses (put k v s) = _misses s.
Proof.
  intros Hc Hrun Hk Hgt.
  destruct (reach_facts _ _ _ _ _ Hc Hrun) as (a & Hv & Hcap & Hnd & Hle & Hpos).
  pose proof (views_size _ _ Hv) as Hsz. rewrite Hsz in Hgt.
  rewrite (views_has _ _ k Hv) in Hk. apply bool_decide_eq_false in Hk.
  assert (assoc k (v_entries a) = None) as Hnone.
  { destruct (assoc k _); [|done]. destruct Hk. by eexists. }
  pose proof (views_put s a k v Hv) as Hv'.
  rewrite (view_put_absent_full c) in Hv' by done.
  destruct (exists_last (l := v_entries a)) as (ea & [kt vt] & Ees).
  { intros E. rewrite E in Hgt. simpl in Hgt. lia. }
  rewrite Ees in Hv', Hnd, Hnone.
  change ((k, v) :: ea ++ [(kt, vt)]) with (((k, v) :: ea) ++ [(kt, vt)]) in Hv'.
  rewrite removelast_last in Hv'.
  rewrite fmap_app in Hnd. apply NoDup_app in Hnd as (_ & Hdisj & _).
  apply assoc_None in Hnone. rewrite fmap_app in Hnone. simpl in Hnone.
  apply not_elem_of_app in Hnone as [Hka Hkt]. apply not_elem_of_cons in Hkt as [Hkt _].
  destruct (views_hits _ _ Hv) as [Eh Em]. destruct (views_hits _ _ Hv') as [Eh' Em'].
  exists kt, vt, (ea.*1). split_and!.
  - rewrite (views_getLeastRecent _ _ Hv), Ees. apply last_snoc.
  - rewrite (views_keys _ _ Hv), Ees. by rewrite fmap_app.
  - by rewrite (views_keys _ _ Hv').
  - rewrite (views_has _ _ kt Hv'). apply bool_decide_eq_false. simpl.
    rewrite decide_False by (simpl; congruence).
    rewrite (proj2 (assoc_None kt ea)); [by intros [? ?]|].
    intros Hin. apply (Hdisj kt Hin). simpl. by left.
  - rewrite (views_has _ _ k Hv'). apply bool_decide_eq_true. simpl.
    rewrite decide_True by done. by eexists.
  - rewrite Hsz, Ees in *. lia.
  - rewrite (views_size _ _ Hv'). simpl. rewrite Ees, length_app in Hgt, Hle. simpl in *. lia.
  - by rewrite (views_evictions _ _ Hv'), (views_evictions _ _ Hv).
  - by rewrite Eh', Eh.
  - by rewrite Em', Em.
Qed.

(** The general half of C6: a [put] of a key that is present. *)
Lemma put_overwrites (cap : JSNumber.number) s0 ops rs s k v x :
  constructor cap = Ok s0 → run ops s0 = Some (rs, s) →
  cache s !! k = Some x →
  value_of (heap (put k v s)) x = Some v ∧ key_of (heap (put k v s)) x = Some k ∧
  head (put k v s) = Some x ∧ (getMostRecent (put k v s)).1 = Some (k, v) ∧
  cache (put k v s) = cache s ∧ length (heap (put k v s)) = length (heap s) ∧
  _size (put k v s) = _size s ∧ _evictions (put k v s) = _evictions s ∧
  _hits (put k v s) = _hits s ∧ _misses (put k v s) = _misses s ∧
  (get k (put k v s)).1 = Some v.
Proof.
  intros Hc Hrun Hx. destruct (reach_views _ _ _ _ _ Hc Hrun) as [Hv _].
  set (a := (view_run ops _).2) in *. clearbody a.
  pose proof (views_NoDup _ _ Hv) as Hnd.
  pose proof (views_put s a k v Hv) as Hv'.
  assert (∃ v0, assoc k (v_entries a) = Some v0) as [v0 Hk].
  { apply (views_present s a k Hv). by eexists. }
  rewrite (view_put_present a k v v0 Hk) in Hv'.
  set (s1 := set_heap (set_value x v (heap s)) s).
  assert (put k v s = moveToHead x s1) as Eput by (unfold put; by rewrite Hx).
  destruct (moveToHead_fields x s1) as (E1 & E2 & E3 & E4 & E5 & E6 & [El Hp]).
  destruct Hv as (ls & Hvb). pose proof Hvb as (Hinv & Hf & _).
  destruct (views_lookup_Some _ _ _ _ _ Hvb Hx)
    as (l1 & l2 & ea & eb & v1 & -> & Ees & Hf1 & Hf2 & Hka & Hkb & Hex).
  destruct (set_value_views s l1 x l2 ea eb k v v1 Hinv Hf1 Hf2 Hex) as (Hi1 & Hf1' & Hf2' & Hx').
  fold s1 in Hi1, Hf1', Hf2', Hx'.
  pose proof (moveToHead_chain s1 l1 x l2 (inv_chain _ _ Hi1)) as (_ & _ & Ehd & _).
  assert (entry_of (heap (put k v s)) x = Some (k, v)) as Hent by (by rewrite Eput, Hp).
  destruct (views_get (put k v s) _ k Hv') as [Hr _]. simpl in Hr.
  rewrite decide_True in Hr by done.
  split_and!.
  - by rewrite value_of_entry, Hent.
  - by rewrite key_of_entry, Hent.
  - by rewrite Eput.
  - by rewrite (views_getMostRecent _ _ Hv').
  - by rewrite Eput, E2.
  - rewrite Eput, El. unfold s1, set_value. cbn. apply length_alter.
  - by rewrite Eput, E3.
  - by rewrite Eput, E6.
  - by rewrite Eput, E4.
  - by rewrite Eput, E5.
  - simpl in Hr. by injection Hr.
Qed.

(** The other half of C6: under an integer capacity a key that was just
    put is present, so a second [put] of it overwrites. *)
Lemma put_twice (c : Z) s0 ops rs s k v1 v2 :
  constructor (JSNumber.of_Z c) = Ok s0 → run ops s0 = Some (rs, s) →
  _size (put k v2 (put k v1 s)) = _size (put k v1 s) ∧
  (get k (put k v2 (put k v1 s))).1 = Some v2.
Proof.
  intros Hc Hrun.
  assert (run (ops ++ [Put k v1]) s0 = Some (rs ++ [RThis], put k v1 s)) as Hrun1.
  { clear Hc. revert s0 rs Hrun. induction ops as [|o ops IH]; intros s0 rs Hrun; simpl in *.
    - by simplify_eq.
    - destruct (exec o s0) as [[r s1]|]; simpl in *; [|done].
      destruct (run ops s1) as [[rs1 s2]|] eqn:E; simpl in *; [|done]. simplify_eq.
      by rewrite (IH s1 rs1 E). }
  destruct (reach_facts _ _ _ _ _ Hc Hrun) as (a & Hv & Hcap & Hnd & Hle & Hpos).
  assert (is_Some (cache (put k v1 s) !! k)) as [x Hx].
  { pose proof (views_put s a k v1 Hv) as Hv1.
    apply (views_present _ _ k Hv1). destruct (assoc k (v_entries a)) eqn:Hk.
    - rewrite (view_put_present a k v1 _ Hk). simpl. rewrite decide_True by done. by eexists.
    - unfold view_step. rewrite Hk, Hcap, gt_of_Z.
      destruct (Z.ltb_spec c (Z.of_nat (length (v_entries a)) + 1)) as [Hgt|Hgt].
      + destruct (v_entries a) as [|e es]; [simpl in Hgt; lia|].
        simpl. rewrite decide_True by done. by eexists.
      + simpl. rewrite decide_True by done. by eexists. }
  destruct (put_overwrites _ _ _ _ _ k v2 x Hc Hrun1 Hx) as (_ & _ & _ & _ & _ & _ & ? & _ & _ & _ & ?).
  done.
Qed.

(** C4, as amended.  After any sequence of calls that leaves the cache
    non-empty, [getMostRecent()] returns the key that was touched by a
    [get] or [put] most recently among the keys still present, and
    [getLeastRecent()] the key that was touched least recently among them;
    every key still present was touched. *)
Theorem C4_recency_among_present_keys (cap : JSNumber.number) s0 ops rs s :
  constructor cap = Ok s0 → run ops s0 = Some (rs, s) → isEmpty s = false →
  ∃ km vm kl vl,
    (getMostRecent s).1 = Some (km, vm) ∧ (getLeastRecent s).1 = Some (kl, vl) ∧
    (has km s).1 = true ∧ (has kl s).1 = true ∧
    (∀ k, (has k s).1 = true → (0 < last_touch k ops)%nat) ∧
    (∀ k, (has k s).1 = true → k ≠ km → (last_touch k ops < last_touch km ops)%nat) ∧
    (∀ k, (has k s).1 = true → k ≠ kl → (last_touch kl ops < last_touch k ops)%nat).
Proof.
  intros Hc Hrun Hne. destruct (reach_views _ _ _ _ _ Hc Hrun) as [Hv _].
  pose proof (view_run_ordered ops cap) as Hord.
  set (a := (view_run ops _).2) in *. clearbody a.
  unfold isEmpty in Hne. rewrite (views_size _ _ Hv) in Hne. apply Z.eqb_neq in Hne.
  destruct (v_entries a) as [|[km vm] es'] eqn:Ees; [done|].
  destruct (exists_last (l := v_entries a)) as (ea & [kl vl] & Ees'); [by rewrite Ees|].
  exists km, vm, kl, vl. split_and!.
  - by rewrite (views_getMostRecent _ _ Hv), Ees.
  - rewrite (views_getLeastRecent _ _ Hv), Ees'. apply last_snoc.
  - apply (views_has_true _ _ km Hv). exists vm. rewrite Ees. by left.
  - apply (views_has_true _ _ kl Hv). exists vl. rewrite Ees'. apply elem_of_app. right. by left.
  - intros k [v Hin]%(views_has_true _ _ k Hv). rewrite Ees in Hin.
    by apply (ordered_pos _ _ (k, v) Hord).
  - intros k [v Hin]%(views_has_true _ _ k Hv) Hk. rewrite Ees in Hin.
    destruct Hord as (Hall & _). apply elem_of_cons in Hin as [[= -> ->]|Hin]; [done|].
    by apply (proj1 (Forall_forall _ _) Hall (k, v)).
  - intros k [v Hin]%(views_has_true _ _ k Hv) Hk. rewrite Ees' in Hin.
    rewrite <- Ees, Ees' in Hord.
    apply elem_of_app in Hin as [Hin|Hin].
    + by apply (ordered_last _ ea (kl, vl) (k, v) Hord).
    + apply elem_of_cons in Hin as [Hin|Hin]; [by simplify_eq|by apply elem_of_nil in Hin].
Qed.

(** C5, as amended.  Whatever calls are made on a constructed cache,
    [hits + misses] is the number of [get] calls made since the last
    [clear] or [resetStats] (or since the construction), which is the
    number since the last [clear] when [resetStats] was never called;
    [hitRate] is [hits / (hits + misses)] when there was such a [get] and
    0 when there was none. *)
Theorem C5_hits_and_misses_count_gets (cap : JSNumber.number) s0 ops :
  constructor cap = Ok s0 →
  ∃ rs s, run ops s0 = Some (rs, s) ∧
          _hits s + _misses s = gets_since_reset ops ∧
          0 ≤ _hits s ∧ 0 ≤ _misses s ∧
          hitRate s = (if gets_since_reset ops =? 0 then 0%Q
                       else (inject_Z (_hits s) / inject_Z (_hits s + _misses s))%Q) ∧
          (existsb (λ o, match o with ResetStats => true | _ => false end) ops = false →
           gets_since_reset ops = gets_since_clear ops).
Proof.
  intros Hc. destruct (refine_run ops s0 _ (views_constructor _ _ Hc)) as (s & Hrun & Hv).
  pose proof (view_run_accesses ops (mkView [] cap 0 0 0)) as [E P]. cbn zeta in E, P.
  destruct (views_hits _ _ Hv) as [Eh Em]. rewrite <- Eh, <- Em in E, P. simpl in E, P.
  assert (_hits s + _misses s = gets_since_reset ops) as Hsum.
  { rewrite E. unfold gets_since_reset. destruct (existsb is_reset ops); lia. }
  eexists _, s. split; [done|]. split_and!; try done; try lia.
  - unfold hitRate. by rewrite Hsum.
  - apply gets_after_no_reset.
Qed.

(** C6.  On a cache in any state that calls can leave it in, new or
    cleared included, under any accepted capacity: a [put] of a key that
    is present, at the node [x], overwrites the value of that node, makes
    it the head (so the most recently used entry), and leaves the index,
    the size and the three counters as they were; a [get] of the key then
    returns the new value.  And under an integer capacity, for every key,
    present or not: [put(k, v1)] then [put(k, v2)] leaves the size what
    it was after the first [put], and [get(k)] then returns [v2]. *)
Theorem C6_put_of_present_key_overwrites (cap : JSNumber.number) s0 ops rs s :
  constructor cap = Ok s0 → run ops s0 = Some (rs, s) →
  (∀ k v x, cache s !! k = Some x →
     value_of (heap (put k v s)) x = Some v ∧ key_of (heap (put k v s)) x = Some k ∧
     head (put k v s) = Some x ∧ (getMostRecent (put k v s)).1 = Some (k, v) ∧
     cache (put k v s) = cache s ∧ length (heap (put k v s)) = length (heap s) ∧
     _size (put k v s) = _size s ∧ _evictions (put k v s) = _evictions s ∧
     _hits (put k v s) = _hits s ∧ _misses (put k v s) = _misses s ∧
     (get k (put k v s)).1 = Some v) ∧
  (∀ (c : Z) k v1 v2, cap = JSNumber.of_Z c →
     _size (put k v2 (put k v1 s)) = _size (put k v1 s) ∧
     (get k (put k v2 (put k v1 s))).1 = Some v2).
Proof.
  intros Hc Hrun. split.
  - intros k v x Hx. by eapply put_overwrites.
  - intros c k v1 v2 ->. by eapply put_twice.
Qed.

(** C7, as amended.  The constructor throws for every capacity with
    [capacity <= 0], and for every capacity with [capacity > 0], integer
    or not, it returns an empty cache with the capacity it was given,
    unchanged.  Every positive integer is such a capacity, and every
    integer that is not positive is one of the former. *)
Theorem C7_constructor_rejects_nonpositive (cap : JSNumber.number) :
  (JSNumber.le cap (JSNumber.of_Z 0) = true →
   @constructor K _ _ V cap = Throw "LRUCache capacity must be greater than 0") ∧
  (JSNumber.gt cap (JSNumber.of_Z 0) = true →
   @constructor K _ _ V cap = Ok (mkLRUCache cap ∅ None None 0 0 0 0 [])) ∧
  (JSNumber.is_positive_integer cap → JSNumber.gt cap (JSNumber.of_Z 0) = true) ∧
  (∀ z : Z, z ≤ 0 → JSNumber.le (JSNumber.of_Z z) (JSNumber.of_Z 0) = true).
Proof.
  split_and!.
  - unfold constructor. by intros ->.
  - unfold constructor. destruct cap as [| | |q]; simpl; try done.
    by destruct (Qle_bool q (inject_Z 0)).
  - destruct cap as [| | |q]; simpl; try done. intros (z & Hz & Hq).
    destruct (Qle_bool q (inject_Z 0)) eqn:E; [|done].
    apply Qle_bool_iff in E. rewrite Hq in E. unfold Qle in E. simpl in E. lia.
  - intros z Hz. rewrite le_of_Z. by apply Z.leb_le.
Qed.

(** C8.  [peek] and [has] return the state they were called in, whole, so
    a history with such calls anywhere in it ends in the same state, after
    the same results of its other calls, as the history without them: in
    particular the same node is the tail, the next to be evicted. *)
Theorem C8_peek_and_has_change_nothing (k : K) s ops :
  (peek k s).2 = s ∧ (has k s).2 = s ∧
  run (without_observers ops) s =
    (λ '(rs, s'), (without_observed ops rs, s')) <$> run ops s.
Proof.
  split_and!; [done|done|]. revert s. induction ops as [|o ops IH]; intros s; [done|].
  unfold without_observers in *. destruct (is_observer o) eqn:Eo.
  - rewrite filter_cons_False by (by rewrite Eo). rewrite IH.
    assert (∃ r, exec o s = Some (r, s)) as [r Hex] by (destruct o; try done; by eexists).
    simpl. rewrite Hex. simpl. destruct (run ops s) as [[rs s']|]; simpl; [|done].
    by rewrite Eo.
  - rewrite filter_cons_True by done. simpl.
    destruct (exec o s) as [[r s1]|]; simpl; [|done]. rewrite IH.
    destruct (run ops s1) as [[rs s']|]; simpl; [|done]. by rewrite Eo.
Qed.


(** C10.  [resetStats] sets the three counters to zero and leaves the
    capacity, the index, the chain (head, tail and every node of the
    store, so every key, value and link) and the size as they were. *)
Theorem C10_resetStats_only_resets_counters s :
  _hits (resetStats s) = 0 ∧ _misses (resetStats s) = 0 ∧ _evictions (resetStats s) = 0 ∧
  capacity (resetStats s) = capacity s ∧ _size (resetStats s) = _size s ∧
  cache (resetStats s) = cache s ∧ head (resetStats s) = head s ∧
  tail (resetStats s) = tail s ∧ heap (resetStats s) = heap s ∧
  entries (resetStats s) = entries s.
Proof. by split_and!. Qed.

End Claims.

(** ** Concrete runs: string keys, integer values *)

Section Runs.
  Import LRUCache.
  #[local] Existing Instance DoublyLinkedList.DoublyLinkedListNode_linked.
  Open Scope string_scope.
  Open Scope Z_scope.

Lemma C1_index_and_chain_agree_witness :
  ∃ rs s, run [Put "a" 1; Put "b" 2; Get "a"; Delete "b"; Put "c" 3; Put "d" 4;
               Put "e" 5; Clear; Put "f" 6] cache3 = Some (rs, s) ∧ consistent s.
Proof. apply (C1_index_and_chain_agree (JSNumber.of_Z 3)). reflexivity. Defined.

(** C2, as stated, fails: after [put a], [delete a], [put a] the size is
    1, while one distinct key was put, one delete succeeded and nothing
    was evicted. *)
Lemma C2_counterexample :
  let ops := [Put "a" 1; Delete "a"; Put "a" 2] in
  ∃ rs s, constructor (JSNumber.of_Z 3) = Ok cache3 ∧
          run ops cache3 = Some (rs, s) ∧
          _size s = 1 ∧ distinct_keys_put ops = 1 ∧
          successful_deletes ops rs = 1 ∧ _evictions s = 0 ∧
          _size s ≠ distinct_keys_put ops - successful_deletes ops rs - _evictions s.
Proof.
  intros ops. eexists _, _. split; [reflexivity|]. split; [vm_compute; reflexivity|].
  vm_compute. split_and!; try reflexivity. discriminate.
Qed.

Lemma C2_size_bounded_and_accounted_witness :
  ∃ rs s t, run [Put "a" 1; Delete "a"; Put "a" 2; Put "b" 3; Put "c" 4; Put "d" 5] cache3
              = Some (rs, s) ∧
            count [Put "a" 1; Delete "a"; Put "a" 2; Put "b" 3; Put "c" 4; Put "d" 5] cache3
              (mkTally 0 0 0) = Some t ∧
            _size s ≤ 3 ∧ _size s = inserted t - deleted t - evicted t.
Proof. apply (C2_size_bounded_and_accounted 3). reflexivity. Defined.

(** C3.  On a cache of integer capacity [c], a [put] of an absent key
    that takes the size above [c] evicts once: the entry that
    [getLeastRecent()] returned, the last of [keys()], leaves the index and
    the chain, the new key comes first, the size is [c] before and after,
    and [evictions] grows by one.  With capacity 3, after [put a], [put b],
    [put c], [get a], the least recent key is [b]; [put d] evicts it:
    [has(b)] is then false and [has(a)] true. *)
Theorem C3_over_capacity_put_evicts_tail :
  (∀ (K : Type) (EqK : EqDecision K) (CK : Countable K) (V : Type) (c : Z)
     (s0 : LRUCache K V) ops rs (s : LRUCache K V) k v,
     constructor (JSNumber.of_Z c) = Ok s0 → run ops s0 = Some (rs, s) →
     (has k s).1 = false → c < _size s + 1 →
     ∃ kt vt ks,
       (getLeastRecent s).1 = Some (kt, vt) ∧
       keys s = Some (ks ++ [kt])%list ∧ keys (put k v s) = Some (k :: ks) ∧
       (has kt (put k v s)).1 = false ∧ (has k (put k v s)).1 = true ∧
       _size s = c ∧ _size (put k v s) = c ∧
       _evictions (put k v s) = _evictions s + 1 ∧
       _hits (put k v s) = _hits s ∧ _misses (put k v s) = _misses s) ∧
  (constructor (JSNumber.of_Z 3) = Ok cache3 ∧
   run abca_ops cache3 = Some (abca_rets, abca) ∧
   (getLeastRecent abca).1 = Some ("b", 2) ∧
   keys abca = Some ["a"; "c"; "b"] ∧
   keys (put "d" 4 abca) = Some ["d"; "a"; "c"] ∧
   (has "b" (put "d" 4 abca)).1 = false ∧ (has "a" (put "d" 4 abca)).1 = true ∧
   _size (put "d" 4 abca) = 3 ∧ _evictions abca = 0 ∧ _evictions (put "d" 4 abca) = 1).
Proof.
  split.
  - intros K EqK CK V. apply put_over_capacity.
  - split_and!; vm_compute; reflexivity.
Qed.

Lemma C3_over_capacity_put_evicts_tail_witness :
  ∃ kt vt ks,
    (getLeastRecent abca).1 = Some (kt, vt) ∧
    keys abca = Some (ks ++ [kt])%list ∧ keys (put "d" 4 abca) = Some ("d" :: ks) ∧
    (has kt (put "d" 4 abca)).1 = false ∧ (has "d" (put "d" 4 abca)).1 = true ∧
    _size abca = 3 ∧ _size (put "d" 4 abca) = 3 ∧
    _evictions (put "d" 4 abca) = _evictions abca + 1 ∧
    _hits (put "d" 4 abca) = _hits abca ∧ _misses (put "d" 4 abca) = _misses abca.
Proof.
  apply (proj1 C3_over_capacity_put_evicts_tail string _ _ Z 3 cache3 abca_ops abca_rets abca);
    vm_compute; reflexivity.
Defined.

(** C4, as stated, fails: after [put a], [put b], [delete b] the cache is
    not empty and the key touched most recently by a [get] or [put] is [b],
    yet [getMostRecent()] returns [a]. *)
Lemma C4_counterexample :
  let ops := [Put "a" 1; Put "b" 2; Delete "b"] in
  ∃ rs s, constructor (JSNumber.of_Z 3) = Ok cache3 ∧
          run ops cache3 = Some (rs, s) ∧ isEmpty s = false ∧
          (getMostRecent s).1 = Some ("a", 1) ∧
          last_touch "a" ops = 1%nat ∧ last_touch "b" ops = 2%nat.
Proof.
  intros ops. eexists _, _. split; [reflexivity|]. split; [vm_compute; reflexivity|].
  vm_compute. by split_and!.
Qed.

Lemma C4_recency_among_present_keys_witness :
  let ops := (abca_ops ++ [Put "d" 4; Delete "a"])%list in
  ∃ km vm kl vl,
    (getMostRecent (LRUCache.delete "a" (put "d" 4 abca)).2).1 = Some (km, vm) ∧
    (getLeastRecent (LRUCache.delete "a" (put "d" 4 abca)).2).1 = Some (kl, vl) ∧
    (has km (LRUCache.delete "a" (put "d" 4 abca)).2).1 = true ∧
    (has kl (LRUCache.delete "a" (put "d" 4 abca)).2).1 = true ∧
    (∀ k, (has k (LRUCache.delete "a" (put "d" 4 abca)).2).1 = true → (0 < last_touch k ops)%nat) ∧
    (∀ k, (has k (LRUCache.delete "a" (put "d" 4 abca)).2).1 = true → k ≠ km →
          (last_touch k ops < last_touch km ops)%nat) ∧
    (∀ k, (has k (LRUCache.delete "a" (put "d" 4 abca)).2).1 = true → k ≠ kl →
          (last_touch kl ops < last_touch k ops)%nat).
Proof.
  apply (C4_recency_among_present_keys (JSNumber.of_Z 3) cache3 _
           (abca_rets ++ [RThis; RBool true])%list); vm_compute; reflexivity.
Defined.

(** C5, as stated, fails: after [get a], [resetStats] one [get] was made
    since the construction and there was no [clear], yet [hits + misses]
    is 0. *)
Lemma C5_counterexample :
  let ops := [Get "a"; ResetStats] in
  ∃ rs s, constructor (JSNumber.of_Z 3) = Ok cache3 ∧
          run ops cache3 = Some (rs, s) ∧
          _hits s + _misses s = 0 ∧ gets_since_clear ops = 1.
Proof.
  intros ops. eexists _, _. split; [reflexivity|]. split; [vm_compute; reflexivity|].
  vm_compute. by split.
Qed.

Lemma C5_hits_and_misses_count_gets_witness :
  let ops := (abca_ops ++ [Get "z"; ResetStats; Get "a"; Get "y"; Get "b"])%list in
  ∃ rs s, run ops cache3 = Some (rs, s) ∧
          _hits s + _misses s = gets_since_reset ops ∧
          0 ≤ _hits s ∧ 0 ≤ _misses s ∧
          hitRate s = (if gets_since_reset ops =? 0 then 0%Q
                       else (inject_Z (_hits s) / inject_Z (_hits s + _misses s))%Q) ∧
          (existsb (λ o, match o with ResetStats => true | _ => false end) ops = false →
           gets_since_reset ops = gets_since_clear ops).
Proof. apply (C5_hits_and_misses_count_gets (JSNumber.of_Z 3)). reflexivity. Defined.

(** C6 on the cache left by [put a], [put b], [put c], [get a], where
    [b] is present, and on the new cache, where no key is. *)
Lemma C6_put_of_present_key_overwrites_witness :
  ((value_of (heap (put "b" 20 abca)) 1%nat = Some 20 ∧
    key_of (heap (put "b" 20 abca)) 1%nat = Some "b" ∧
    head (put "b" 20 abca) = Some 1%nat ∧
    (getMostRecent (put "b" 20 abca)).1 = Some ("b", 20) ∧
    cache (put "b" 20 abca) = cache abca ∧
    length (heap (put "b" 20 abca)) = length (heap abca) ∧
    _size (put "b" 20 abca) = _size abca ∧ _evictions (put "b" 20 abca) = _evictions abca ∧
    _hits (put "b" 20 abca) = _hits abca ∧ _misses (put "b" 20 abca) = _misses abca ∧
    (get "b" (put "b" 20 abca)).1 = Some 20) ∧
   (_size (put "b" 21 (put "b" 20 abca)) = _size (put "b" 20 abca) ∧
    (get "b" (put "b" 21 (put "b" 20 abca))).1 = Some 21)) ∧
  (_size (put "a" 2 (put "a" 1 cache3)) = _size (put "a" 1 cache3) ∧
   (get "a" (put "a" 2 (put "a" 1 cache3))).1 = Some 2).
Proof.
  split; [split|].
  - apply (proj1 (C6_put_of_present_key_overwrites (JSNumber.of_Z 3) cache3 abca_ops abca_rets
                    abca eq_refl eq_refl) "b" 20 1%nat).
    vm_compute; reflexivity.
  - apply (proj2 (C6_put_of_present_key_overwrites (JSNumber.of_Z 3) cache3 abca_ops abca_rets
                    abca eq_refl eq_refl) 3 "b" 20 21 eq_refl).
  - apply (proj2 (C6_put_of_present_key_overwrites (JSNumber.of_Z 3) cache3 [] []
                    cache3 eq_refl eq_refl) 3 "a" 1 2 eq_refl).
Defined.

(** C7, as stated, fails: 1.5 is not a positive integer, and the
    constructor accepts it, 1.5 being greater than 0. *)
Lemma C7_counterexample :
  (JSNumber.is_positive_integer (JSNumber.Finite (3 # 2)) → False) ∧
  JSNumber.gt (JSNumber.Finite (3 # 2)) (JSNumber.of_Z 0) = true ∧
  constructor (K := string) (V := Z) (JSNumber.Finite (3 # 2))
    = Ok (mkLRUCache (JSNumber.Finite (3 # 2)) ∅ None None 0 0 0 0 []).
Proof.
  split_and!; try reflexivity. intros (z & Hz & Hq). unfold Qeq in Hq. simpl in Hq. lia.
Qed.



End Runs.
(** ** More facts about the list view *)

Section MoreViewFacts.
  Import LRUCache.
  Context {K : Type} `{Countable K} {V : Type}.
  #[local] Arguments JSNumber.gt : simpl never.
  #[local] Arguments removelast : simpl never.
  Implicit Types (s : LRUCache K V) (a : view K V) (o : op K V) (ops : list (op K V)).
  Implicit Types (es : list (K * V)) (k : K) (v : V).

Lemma views_peek s a k : views s a → (peek k s).1 = assoc k (v_entries a).
Proof. intros (ls & Hv). unfold peek. simpl. symmetry. by eapply views_assoc. Qed.

Lemma views_delete s a k :
  views s a →
  RBool (delete k s).1 = (view_step (Delete k) a).1 ∧
  views (delete k s).2 (view_step (Delete k) a).2.
Proof.
  intros Hv. destruct (refine_step (Delete k) s a Hv) as (s' & Hex & Hv').
  unfold exec in Hex. destruct (delete k s) as [r s1]. simpl. by simplify_eq.
Qed.

Lemma without_keys k es : (without k es).*1 = filter (λ k', k' ≠ k) es.*1.
Proof.
  unfold without. induction es as [|e es IH]; [done|]. rewrite fmap_cons.
  destruct (decide (e.1 ≠ k)).
  - rewrite !filter_cons_True by done. rewrite fmap_cons. by f_equal.
  - by rewrite !filter_cons_False by done.
Qed.

Lemma assoc_without_ne k k' es : k' ≠ k → assoc k' (without k es) = assoc k' es.
Proof.
  intros Hne. unfold without. induction es as [|e es IH]; [done|].
  destruct (decide (e.1 ≠ k)).
  - rewrite filter_cons_True by done. simpl. by rewrite IH.
  - rewrite filter_cons_False by done. simpl. rewrite decide_False; [done|].
    intros E. apply n. congruence.
Qed.

Lemma assoc_without k es : assoc k (without k es) = None.
Proof.
  apply assoc_None. intros (e & -> & He)%list_elem_of_fmap. unfold without in He.
  by apply list_elem_of_filter in He as [? _].
Qed.

Lemma assoc_removelast k v es : assoc k (removelast es) = Some v → assoc k es = Some v.
Proof.
  destruct es as [|e es _] using rev_ind; [done|]. rewrite removelast_last.
  intros (ea & eb & -> & Hk)%assoc_Some_split. rewrite <- !app_assoc. simpl. by apply assoc_split.
Qed.

Lemma run_app ops ops' s rs s' :
  run ops s = Some (rs, s') →
  run (ops ++ ops') s = '(rs', s'') ← run ops' s'; Some (rs ++ rs', s'').
Proof.
  revert s rs. induction ops as [|o ops IH]; intros s rs Hrun; simpl in *.
  - simplify_eq. by destruct (run ops' s') as [[??]|].
  - destruct (exec o s) as [[r s1]|]; simpl in *; [|done].
    destruct (run ops s1) as [[rs1 s2]|] eqn:E; simpl in *; [|done]. simplify_eq.
    rewrite (IH s1 rs1 E). by destruct (run ops' s') as [[??]|].
Qed.

Lemma last_put_snoc k ops o :
  last_put k (ops ++ [o]) =
    match o with
    | Put k' v => if decide (k' = k) then Some v else last_put k ops
    | Delete k' => if decide (k' = k) then None else last_put k ops
    | Clear => None
    | _ => last_put k ops
    end.
Proof.
  induction ops as [|o' ops IH].
  - simpl. destruct o; try done; by case_decide.
  - simpl. rewrite IH, existsb_app. simpl. rewrite orb_false_r.
    destruct o as [k'|k' v'|k'|k'|k'| | | |]; try (by rewrite orb_false_r).
    + case_decide; [done|]. by rewrite orb_false_r.
    + case_decide.
      * rewrite bool_decide_eq_true_2 by done. by rewrite orb_true_r.
      * rewrite bool_decide_eq_false_2 by done. by rewrite orb_false_r.
    + by rewrite orb_true_r.
Qed.

(** The lists that the calls leave hold, for each key, the value of its
    last [put]. *)
Lemma view_run_last_put ops (cap : JSNumber.number) k v :
  assoc k (v_entries (view_run ops (mkView (K:=K) (V:=V) [] cap 0 0 0)).2) = Some v →
  last_put k ops = Some v.
Proof.
  revert v. induction ops as [|o ops IH] using rev_ind; [done|]. intros v.
  rewrite view_run_snoc, last_put_snoc.
  set (a := (view_run ops _).2) in *. clearbody a.
  destruct o as [k'|k' v'|k'|k'|k'| | | |]; cbn; try done; try apply IH.
  - destruct (assoc k' (v_entries a)) as [v0|] eqn:Hk; cbn; [|apply IH].
    case_decide as E; simpl in E.
    + intros [= <-]. subst. by apply IH.
    + rewrite assoc_without_ne by congruence. apply IH.
  - destruct (assoc k' (v_entries a)) as [v0|] eqn:Hk; cbn.
    + case_decide as E; simpl in E.
      * done.
      * rewrite assoc_without_ne by congruence. apply IH.
    + assert (assoc k ((k', v') :: v_entries a) = Some v →
              (if decide (k' = k) then Some v' else last_put k ops) = Some v) as Hcons.
      { simpl. case_decide as E; simpl in E; [done|]. apply IH. }
      destruct (JSNumber.gt _ _); cbn -[removelast assoc]; [|exact Hcons].
      intros Hk'. by apply Hcons, assoc_removelast.
  - destruct (assoc k' (v_entries a)) as [v0|] eqn:Hk; cbn.
    + case_decide as E.
      * subst. by rewrite assoc_without.
      * rewrite assoc_without_ne by congruence. apply IH.
    + case_decide as E; [subst; by rewrite Hk|]. apply IH.
Qed.

(** [n > capacity] stays false below [n]. *)
Lemma gt_of_Z_mono (cap : JSNumber.number) (n m : Z) :
  JSNumber.gt (JSNumber.of_Z n) cap = false → m ≤ n →
  JSNumber.gt (JSNumber.of_Z m) cap = false.
Proof.
  unfold JSNumber.gt, JSNumber.of_Z. destruct cap as [| | |q]; try done.
  intros Hn Hm. apply negb_false_iff in Hn. apply negb_false_iff.
  apply Qle_bool_iff in Hn. apply Qle_bool_iff.
  eapply Qle_trans; [|exact Hn]. by rewrite <- Zle_Qle.
Qed.

Lemma constructor_gt_0 (cap : JSNumber.number) (s0 : LRUCache K V) :
  constructor cap = Ok s0 → JSNumber.gt (JSNumber.of_Z 0) cap = false.
Proof.
  unfold constructor. destruct (JSNumber.le cap (JSNumber.of_Z 0)) eqn:E; [done|]. intros _.
  unfold JSNumber.gt, JSNumber.le, JSNumber.of_Z in *. destruct cap as [| | |q]; try done.
  apply negb_false_iff. apply Qle_bool_iff.
  destruct (Qlt_le_dec 0 q) as [Hlt|Hle]; [by apply Qlt_le_weak|].
  assert (Qle_bool q (inject_Z 0) = true) by (by apply Qle_bool_iff). congruence.
Qed.

(** Whatever the capacity, a call never leaves more entries than it
    allows. *)
Lemma view_step_within o a :
  NoDup (v_entries a).*1 →
  JSNumber.gt (JSNumber.of_Z (Z.of_nat (length (v_entries a)))) (v_capacity a) = false →
  JSNumber.gt (JSNumber.of_Z (Z.of_nat (length (v_entries (view_step o a).2)))) (v_capacity a) = false.
Proof.
  intros Hnd Hle.
  assert (∀ k v0, assoc k (v_entries a) = Some v0 →
            length ((k, v0) :: without k (v_entries a)) = length (v_entries a)) as Hsame.
  { intros k v1 Hk. destruct (without_assoc _ _ _ Hnd Hk) as (ea & eb & -> & -> & _).
    rewrite !length_app. simpl. rewrite !length_app. simpl. lia. }
  destruct o as [k|k v|k|k|k| | | |]; cbn; try done.
  - destruct (assoc k (v_entries a)) as [v0|] eqn:Hk; cbn -[length]; [|done].
    by rewrite (Hsame k v0 Hk).
  - destruct (assoc k (v_entries a)) as [v0|] eqn:Hk; cbn -[length].
    + pose proof (Hsame k v0 Hk) as E. simpl length in *. by rewrite E.
    + destruct (JSNumber.gt (JSNumber.of_Z (Z.of_nat (length (v_entries a)) + 1)) (v_capacity a)) eqn:Hgt;
        cbn -[length removelast].
      * by rewrite length_removelast_cons.
      * simpl length. by rewrite Nat2Z.inj_succ, <- Z.add_1_r.
  - destruct (assoc k (v_entries a)) as [v0|] eqn:Hk; cbn -[length]; [|done].
    eapply gt_of_Z_mono; [exact Hle|]. pose proof (without_length k (v_entries a)). lia.
  - eapply gt_of_Z_mono; [exact Hle|]. simpl. lia.
Qed.

Lemma view_run_within ops a :
  NoDup (v_entries a).*1 →
  JSNumber.gt (JSNumber.of_Z (Z.of_nat (length (v_entries a)))) (v_capacity a) = false →
  JSNumber.gt (JSNumber.of_Z (Z.of_nat (length (v_entries (view_run ops a).2)))) (v_capacity a) = false.
Proof.
  revert a. induction ops as [|o ops IH]; intros a Hnd Hle; [done|]. simpl.
  pose proof (view_step_NoDup o a Hnd) as E.
  pose proof (view_step_capacity o a) as Ec.
  pose proof (view_step_within o a Hnd Hle) as Hw.
  destruct (view_step o a) as [r a1]. simpl in *.
  rewrite <- Ec in Hw. pose proof (IH a1 E Hw) as E'.
  destruct (view_run ops a1) as [rs a2]. simpl in *. by rewrite <- Ec.
Qed.



(** A [put] leaves its entry first in the list. *)
Lemma view_put_head (c : Z) a k v :
  v_capacity a = JSNumber.of_Z c → 0 < c →
  ∃ es', v_entries (view_step (Put k v) a).2 = (k, v) :: es'.
Proof.
  intros Hcap Hpos. cbn. destruct (assoc k (v_entries a)); cbn; [by eexists|].
  rewrite Hcap, gt_of_Z. destruct (Z.ltb_spec c (Z.of_nat (length (v_entries a)) + 1)); cbn -[removelast];
    [|by eexists].
  destruct (v_entries a) as [|e es] eqn:Ees; [simpl in *; lia|].
  destruct (exists_last (l := e :: es)) as (ea & e' & ->); [done|].
  change ((k, v) :: ea ++ [e']) with (((k, v) :: ea) ++ [e']). rewrite removelast_last. by eexists.
Qed.

(** What a [put] leaves of the other entries was there before. *)
Lemma view_put_others a k v k' v' :
  k' ≠ k → assoc k' (v_entries (view_step (Put k v) a).2) = Some v' →
  assoc k' (v_entries a) = Some v'.
Proof.
  intros Hne. cbn. destruct (assoc k (v_entries a)); cbn.
  - rewrite decide_False by done. by rewrite assoc_without_ne.
  - case_match; cbn -[removelast assoc].
    + intros Hk%assoc_removelast. simpl in Hk. by rewrite decide_False in Hk.
    + simpl. by rewrite decide_False.
Qed.

(** A key that is among the first entries stays among them, one place
    further back at most, through a call that is not its [delete] nor a
    [clear]. *)
Lemma view_step_position (c : Z) o a k ea v eb :
  v_capacity a = JSNumber.of_Z c → NoDup (v_entries a).*1 →
  Z.of_nat (length (v_entries a)) ≤ c →
  v_entries a = ea ++ (k, v) :: eb →
  match o with Delete k' => k' ≠ k | Clear => False | _ => True end →
  Z.of_nat (length ea) + (if is_access o then 1 else 0) < c →
  ∃ ea' v' eb', v_entries (view_step o a).2 = ea' ++ (k, v') :: eb' ∧
                (length ea' ≤ length ea + (if is_access o then 1 else 0))%nat.
Proof.
  intros Hcap Hnd Hle Ees Ho Hpos.
  assert (∀ k', k' ≠ k → ∃ ea', without k' (v_entries a) = ea' ++ (k, v) :: without k' eb ∧
                                 (length ea' ≤ length ea)%nat) as Hwo.
  { intros k' Hk'. exists (without k' ea). split; [|apply without_length].
    rewrite Ees. unfold without. rewrite filter_app, filter_cons_True by (simpl; congruence). done. }
  assert (assoc k (v_entries a) = Some v) as Hk.
  { rewrite Ees. apply assoc_split. rewrite Ees, fmap_app in Hnd.
    apply NoDup_app in Hnd as (_ & Hdisj & _). intros Hin. apply (Hdisj k Hin). simpl. by left. }
  destruct o as [k'|k' v'|k'|k'|k'| | | |]; cbn [is_access] in *; cbn;
    try (exists ea, v, eb; split; [done|lia]).
  - destruct (assoc k' (v_entries a)) as [v0|] eqn:Hk'; cbn.
    + destruct (decide (k' = k)) as [->|Hne].
      * exists [], v0, (without k (v_entries a)). split; [done|simpl; lia].
      * destruct (Hwo k' Hne) as (ea' & -> & Hl). exists ((k', v0) :: ea'), v, (without k' eb).
        split; [done|simpl; lia].
    + exists ea, v, eb. split; [done|lia].
  - destruct (assoc k' (v_entries a)) as [v0|] eqn:Hk'; cbn.
    + destruct (decide (k' = k)) as [->|Hne].
      * exists [], v', (without k (v_entries a)). split; [done|simpl; lia].
      * destruct (Hwo k' Hne) as (ea' & -> & Hl). exists ((k', v') :: ea'), v, (without k' eb).
        split; [done|simpl; lia].
    + rewrite Hcap, gt_of_Z.
      destruct (Z.ltb_spec c (Z.of_nat (length (v_entries a)) + 1)); cbn -[removelast].
      * rewrite Ees. rewrite Ees, length_app in Hle, H0. simpl in Hle, H0.
        destruct eb as [|e eb _] using rev_ind; [simpl in *; lia|].
        assert ((k', v') :: ea ++ (k, v) :: eb ++ [e] = ((k', v') :: ea ++ (k, v) :: eb) ++ [e])
          as -> by (simpl; by rewrite <- app_assoc).
        rewrite removelast_last. exists ((k', v') :: ea), v, eb. split; [done|simpl; lia].
      * exists ((k', v') :: ea), v, eb. rewrite Ees. split; [done|simpl; lia].
  - destruct (assoc k' (v_entries a)) as [v0|] eqn:Hk'; cbn.
    + destruct (Hwo k' Ho) as (ea' & -> & Hl). exists ea', v, (without k' eb). split; [done|lia].
    + exists ea, v, eb. split; [done|lia].
Qed.

End MoreViewFacts.

(** ** What single calls do to a cache in use *)

Section CacheCalls.
  Import LRUCache.
  Context {K : Type} `{Countable K} {V : Type}.
  #[local] Arguments JSNumber.gt : simpl never.
  #[local] Arguments removelast : simpl never.
  Implicit Types (s : LRUCache K V) (a : view K V) (o : op K V) (ops : list (op K V)).
  Implicit Types (es : list (K * V)) (k : K) (v : V).

(** X1.  On a cache in use, [delete(k)] returns whether [k] was there.
    When it was not, nothing changes.  When it was, [k] is gone, every
    other key keeps its value and its place in the order, the size is one
    less, and the counters and the capacity are as before. *)
Theorem X1_delete_takes_out_its_key_only (cap : JSNumber.number) s0 ops rs s k :
  constructor cap = Ok s0 → run ops s0 = Some (rs, s) →
  (delete k s).1 = (has k s).1 ∧
  ((delete k s).1 = false → (delete k s).2 = s) ∧
  (has k (delete k s).2).1 = false ∧ (peek k (delete k s).2).1 = None ∧
  (∀ k', k' ≠ k → (peek k' (delete k s).2).1 = (peek k' s).1) ∧
  keys (delete k s).2 = (λ ks : list K, filter (λ k', k' ≠ k) ks) <$> keys s ∧
  _size (delete k s).2 = _size s - (if (delete k s).1 then 1 else 0) ∧
  _hits (delete k s).2 = _hits s ∧ _misses (delete k s).2 = _misses s ∧
  _evictions (delete k s).2 = _evictions s ∧ capacity (delete k s).2 = capacity s.
Proof.
  intros Hc Hrun. destruct (reach_views _ _ _ _ _ Hc Hrun) as [Hv _].
  set (a := (view_run ops _).2) in *. clearbody a.
  pose proof (views_NoDup _ _ Hv) as Hnd.
  destruct (views_delete s a k Hv) as [Hr Hv'].
  assert ((delete k s).1 = false → (delete k s).2 = s) as Hsame.
  { unfold delete. by destruct (cache s !! k). }
  assert (v_entries (view_step (Delete k) a).2 = without k (v_entries a)) as Ees.
  { simpl. destruct (assoc k (v_entries a)) eqn:Hk; [done|]. simpl.
    by rewrite without_notin by (by apply assoc_None). }
  assert ((delete k s).1 = bool_decide (is_Some (assoc k (v_entries a)))) as Eb.
  { simpl in Hr. destruct (assoc k (v_entries a)); simpl in Hr; injection Hr as ->; symmetry.
    - apply bool_decide_eq_true. by eexists.
    - apply bool_decide_eq_false. by intros [? ?]. }
  split_and!.
  - by rewrite Eb, (views_has _ _ k Hv).
  - done.
  - rewrite (views_has _ _ k Hv'), Ees, assoc_without. apply bool_decide_eq_false. by intros [? ?].
  - by rewrite (views_peek _ _ k Hv'), Ees, assoc_without.
  - intros k' Hk'. rewrite (views_peek _ _ k' Hv'), (views_peek _ _ k' Hv), Ees.
    by apply assoc_without_ne.
  - rewrite (views_keys _ _ Hv'), (views_keys _ _ Hv), Ees. simpl. by rewrite without_keys.
  - rewrite (views_size _ _ Hv'), (views_size _ _ Hv), Eb, Ees.
    destruct (assoc k (v_entries a)) as [v|] eqn:Hk.
    + rewrite bool_decide_eq_true_2 by (by eexists).
      destruct (without_assoc _ _ _ Hnd Hk) as (ea & eb & -> & -> & _).
      rewrite !length_app. simpl. lia.
    + rewrite bool_decide_eq_false_2 by (by intros [? ?]).
      rewrite without_notin by (by apply assoc_None). lia.
  - destruct (views_hits _ _ Hv) as [-> _]. destruct (views_hits _ _ Hv') as [-> _].
    simpl. by destruct (assoc k (v_entries a)).
  - destruct (views_hits _ _ Hv) as [_ ->]. destruct (views_hits _ _ Hv') as [_ ->].
    simpl. by destruct (assoc k (v_entries a)).
  - rewrite (views_evictions _ _ Hv), (views_evictions _ _ Hv').
    simpl. by destruct (assoc k (v_entries a)).
  - rewrite (views_capacity _ _ Hv), (views_capacity _ _ Hv'). apply view_step_capacity.
Qed.

(** X2.  On a cache in use, [get(k)] returns what [peek(k)] returns and
    changes no value.  A hit counts in [hits] and moves [k] to the front
    of the order, the other keys keeping theirs; a miss counts in
    [misses] and leaves the order alone.  Size, evictions and capacity
    are as before. *)
Theorem X2_get_returns_the_value_and_promotes (cap : JSNumber.number) s0 ops rs s k :
  constructor cap = Ok s0 → run ops s0 = Some (rs, s) →
  (get k s).1 = (peek k s).1 ∧
  (∀ k', (peek k' (get k s).2).1 = (peek k' s).1) ∧
  keys (get k s).2 =
    (λ ks : list K, if (has k s).1 then k :: filter (λ k', k' ≠ k) ks else ks) <$> keys s ∧
  _hits (get k s).2 = _hits s + (if (has k s).1 then 1 else 0) ∧
  _misses (get k s).2 = _misses s + (if (has k s).1 then 0 else 1) ∧
  _size (get k s).2 = _size s ∧ _evictions (get k s).2 = _evictions s ∧
  capacity (get k s).2 = capacity s.
Proof.
  intros Hc Hrun. destruct (reach_views _ _ _ _ _ Hc Hrun) as [Hv _].
  set (a := (view_run ops _).2) in *. clearbody a.
  pose proof (views_NoDup _ _ Hv) as Hnd.
  destruct (views_get s a k Hv) as [Hr Hv'].
  destruct (views_hits _ _ Hv) as [Eh Em]. destruct (views_hits _ _ Hv') as [Eh' Em'].
  pose proof (views_has _ _ k Hv) as Ehas.
  pose proof (views_size _ _ Hv) as Esz. pose proof (views_size _ _ Hv') as Esz'.
  pose proof (views_evictions _ _ Hv) as Eev. pose proof (views_evictions _ _ Hv') as Eev'.
  pose proof (views_keys _ _ Hv) as Eks. pose proof (views_keys _ _ Hv') as Eks'.
  assert (∀ k', (peek k' (get k s).2).1 = assoc k' (v_entries (view_step (Get k) a).2)) as Epk'.
  { intros k'. by apply views_peek. }
  assert ((has k s).1 = if assoc k (v_entries a) is Some _ then true else false) as Ehas'.
  { rewrite Ehas. destruct (assoc k (v_entries a)).
    - apply bool_decide_eq_true. by eexists.
    - apply bool_decide_eq_false. by intros [? ?]. }
  clear Ehas. rewrite Ehas'.
  split_and!.
  - rewrite (views_peek _ _ k Hv). simpl in Hr.
    destruct (assoc k (v_entries a)); simpl in Hr; by simplify_eq.
  - intros k'. rewrite Epk', (views_peek _ _ k' Hv). simpl.
    destruct (assoc k (v_entries a)) as [v|] eqn:Hk; simpl; [|done].
    case_decide as E; simpl in E; [by subst|]. apply assoc_without_ne. congruence.
  - rewrite Eks', Eks. simpl.
    destruct (assoc k (v_entries a)) as [v|] eqn:Hk; simpl; [|done]. by rewrite without_keys.
  - rewrite Eh', Eh. simpl. destruct (assoc k (v_entries a)) as [v|] eqn:Hk; simpl; lia.
  - rewrite Em', Em. simpl. destruct (assoc k (v_entries a)) as [v|] eqn:Hk; simpl; lia.
  - rewrite Esz', Esz. simpl.
    destruct (assoc k (v_entries a)) as [v|] eqn:Hk; simpl; [|done].
    destruct (without_assoc _ _ _ Hnd Hk) as (ea & eb & -> & -> & _).
    rewrite !length_app. simpl. lia.
  - rewrite Eev', Eev. simpl. by destruct (assoc k (v_entries a)).
  - rewrite (views_capacity _ _ Hv), (views_capacity _ _ Hv'). apply view_step_capacity.
Qed.

(** X3.  [clear()] on a cache in use returns (its loop ends), and leaves
    a cache that cannot be told from a new one of the same capacity: it
    is empty, its counters are zero, and any further calls return what
    they return on the new cache and leave the same entries, size and
    counters. *)
Theorem X3_clear_leaves_a_new_cache (cap : JSNumber.number) s0 ops rs s ops' :
  constructor cap = Ok s0 → run ops s0 = Some (rs, s) →
  ∃ s1, clear s = Some s1 ∧
        _size s1 = 0 ∧ keys s1 = Some [] ∧ capacity s1 = cap ∧
        _hits s1 = 0 ∧ _misses s1 = 0 ∧ _evictions s1 = 0 ∧
        (∀ k, (has k s1).1 = false) ∧
        ∃ rs' sa sb, run ops' s1 = Some (rs', sa) ∧ run ops' s0 = Some (rs', sb) ∧
                     entries sa = entries sb ∧ _size sa = _size sb ∧
                     _hits sa = _hits sb ∧ _misses sa = _misses sb ∧
                     _evictions sa = _evictions sb.
Proof.
  intros Hc Hrun. destruct (reach_views _ _ _ _ _ Hc Hrun) as [Hv _].
  pose proof (view_run_capacity ops (mkView (K:=K) (V:=V) [] cap 0 0 0)) as Ecap.
  set (a := (view_run ops _).2) in *. clearbody a. simpl in Ecap.
  destruct (refine_step Clear s a Hv) as (s1 & Hex & Hv1).
  simpl in Hex, Hv1. rewrite Ecap in Hv1.
  destruct (clear s) as [s1'|]; simpl in Hex; [|done]. injection Hex as ->.
  exists s1. split; [done|].
  destruct (views_hits _ _ Hv1) as [Eh Em].
  split_and!; try done.
  - by rewrite (views_size _ _ Hv1).
  - by rewrite (views_keys _ _ Hv1).
  - by rewrite (views_capacity _ _ Hv1).
  - by rewrite (views_evictions _ _ Hv1).
  - intros k. rewrite (views_has _ _ k Hv1). apply bool_decide_eq_false. by intros [? ?].
  - destruct (refine_run ops' s1 _ Hv1) as (sa & Hra & Hva).
    destruct (refine_run ops' s0 _ (views_constructor _ _ Hc)) as (sb & Hrb & Hvb).
    eexists _, sa, sb. split; [exact Hra|]. split; [exact Hrb|].
    destruct (views_hits _ _ Hva) as [-> ->]. destruct (views_hits _ _ Hvb) as [-> ->].
    rewrite (views_entries _ _ Hva), (views_entries _ _ Hvb).
    rewrite (views_size _ _ Hva), (views_size _ _ Hvb).
    rewrite (views_evictions _ _ Hva), (views_evictions _ _ Hvb). done.
Qed.

(** X4.  A cache never holds a stale value: when [peek(k)] (or [get(k)])
    finds a value, it is the value of the last [put(k, _)] of the history,
    and no [delete(k)] or [clear()] came after that [put]. *)
Theorem X4_values_are_those_last_put (cap : JSNumber.number) s0 ops rs s k v :
  constructor cap = Ok s0 → run ops s0 = Some (rs, s) →
  ((peek k s).1 = Some v → last_put k ops = Some v) ∧
  ((get k s).1 = Some v → last_put k ops = Some v).
Proof.
  intros Hc Hrun. destruct (reach_views _ _ _ _ _ Hc Hrun) as [Hv _].
  assert ((peek k s).1 = Some v → last_put k ops = Some v) as Hpeek.
  { rewrite (views_peek _ _ k Hv). apply view_run_last_put. }
  split; [done|]. intros Hg. apply Hpeek. rewrite <- Hg.
  destruct (views_get s _ k Hv) as [Hr _]. rewrite (views_peek _ _ k Hv).
  simpl in Hr. destruct (assoc k _); simpl in Hr; by simplify_eq.
Qed.

(** X5.  Whatever capacity the constructor accepted, an integer or not,
    [size > capacity] is false after every call, and the size is never
    negative. *)
Theorem X5_size_within_any_capacity (cap : JSNumber.number) s0 ops :
  constructor cap = Ok s0 →
  ∃ rs s, run ops s0 = Some (rs, s) ∧
          0 ≤ _size s ∧ JSNumber.gt (JSNumber.of_Z (_size s)) cap = false.
Proof.
  intros Hc. destruct (refine_run ops s0 _ (views_constructor _ _ Hc)) as (s & Hrun & Hv).
  eexists _, s. split; [done|]. rewrite (views_size _ _ Hv). split; [lia|].
  apply (view_run_within ops (mkView [] cap 0 0 0)); simpl; [apply NoDup_nil_2|].
  by eapply constructor_gt_0.
Qed.


(** X7.  Under an integer capacity, a key that was just put is there: a
    [get] or [peek] of it returns the value put, and it is the most
    recent entry.  The size is unchanged when the key was there, and
    otherwise one more, up to the capacity.  No other key changes its
    value (it can only have been evicted), and [hits] and [misses] are as
    before. *)
Theorem X7_put_then_get_round_trip (c : Z) s0 ops rs s k v :
  constructor (JSNumber.of_Z c) = Ok s0 → run ops s0 = Some (rs, s) →
  (get k (put k v s)).1 = Some v ∧ (peek k (put k v s)).1 = Some v ∧
  (has k (put k v s)).1 = true ∧ (getMostRecent (put k v s)).1 = Some (k, v) ∧
  _size (put k v s) = (if (has k s).1 then _size s else Z.min c (_size s + 1)) ∧
  (∀ k' v', k' ≠ k → (peek k' (put k v s)).1 = Some v' → (peek k' s).1 = Some v') ∧
  _hits (put k v s) = _hits s ∧ _misses (put k v s) = _misses s.
Proof.
  intros Hc Hrun.
  destruct (reach_facts _ _ _ _ _ Hc Hrun) as (a & Hv & Hcap & Hnd & Hle & Hpos).
  pose proof (views_put s a k v Hv) as Hv'.
  destruct (view_put_head c a k v Hcap Hpos) as (es' & Ees').
  assert ((peek k (put k v s)).1 = Some v) as Hpk.
  { rewrite (views_peek _ _ k Hv'), Ees'. simpl. by rewrite decide_True. }
  destruct (views_hits _ _ Hv) as [Eh Em]. destruct (views_hits _ _ Hv') as [Eh' Em'].
  split_and!.
  - destruct (views_get _ _ k Hv') as [Hr _].
    set (a' := (view_step (Put k v) a).2) in *. clearbody a'. simpl in Hr.
    rewrite Ees' in Hr. simpl in Hr. rewrite decide_True in Hr by done. by injection Hr.
  - done.
  - rewrite (views_has _ _ k Hv'), Ees'. simpl. rewrite decide_True by done.
    apply bool_decide_eq_true. by eexists.
  - by rewrite (views_getMostRecent _ _ Hv'), Ees'.
  - rewrite (views_size _ _ Hv'), (views_size _ _ Hv), (views_has _ _ k Hv).
    pose proof (view_step_length (Put k v) a c Hnd Hcap) as [Hlen _]. cbn zeta in Hlen.
    rewrite Hlen. clear Hlen. cbn.
    destruct (assoc k (v_entries a)) as [v0|] eqn:Hk.
    + rewrite bool_decide_eq_true_2 by (by eexists). cbn. lia.
    + rewrite bool_decide_eq_false_2 by (by intros [? ?]).
      rewrite Hcap, gt_of_Z.
      destruct (Z.ltb_spec c (Z.of_nat (length (v_entries a)) + 1)); cbn; lia.
  - intros k' v' Hne. rewrite (views_peek _ _ k' Hv'), (views_peek _ _ k' Hv).
    by apply view_put_others.
  - rewrite Eh', Eh. cbn. destruct (assoc k (v_entries a)); [done|]. by destruct (JSNumber.gt _ _).
  - rewrite Em', Em. cbn. destruct (assoc k (v_entries a)); [done|]. by destruct (JSNumber.gt _ _).
Qed.

(** X8.  Under the integer capacity [c], a key that has fewer than [c]
    keys before it in the order is still there after further calls, as
    long as these are not a [delete] of it nor a [clear], and the keys
    before it and the [get] and [put] calls among them number less than
    [c] together.  So the most recent key outlives any [c - 1] calls. *)
Theorem X8_recent_keys_outlive_later_calls (c : Z) s0 ops rs s k (before after : list K) ops' :
  constructor (JSNumber.of_Z c) = Ok s0 → run ops s0 = Some (rs, s) →
  keys s = Some (before ++ k :: after) → keeps k ops' →
  Z.of_nat (length before) + Z.of_nat (length (filter is_access ops')) < c →
  ∃ rs' s', run ops' s = Some (rs', s') ∧ (has k s').1 = true.
Proof.
  intros Hc Hrun Hks Hkeep Hlt.
  destruct (reach_facts _ _ _ _ _ Hc Hrun) as (a & Hv & Hcap & Hnd & Hle & Hpos).
  rewrite (views_keys _ _ Hv) in Hks. injection Hks as Hks.
  apply fmap_app_inv in Hks as (ea & eb' & -> & Heb & Ees).
  destruct eb' as [|[k0 v0] eb]; [done|]. rewrite fmap_cons in Heb. simpl in Heb.
  injection Heb as <- _. rewrite length_fmap in Hlt.
  clear Hc Hrun Hpos. revert s a ea v0 eb Hv Hcap Hnd Hle Ees Hlt.
  induction Hkeep as [|o ops' Ho Hkeep IH]; intros s a ea v0 eb Hv Hcap Hnd Hle Ees Hlt.
  - exists [], s. split; [done|]. apply (views_has_true _ _ k Hv). exists v0. rewrite Ees.
    apply elem_of_app. right. by left.
  - destruct (refine_step o s a Hv) as (s1 & Hex & Hv1).
    assert (Z.of_nat (length (filter is_access (o :: ops'))) =
            (if is_access o then 1 else 0) + Z.of_nat (length (filter is_access ops'))) as Ef.
    { destruct (is_access o) eqn:Eo.
      - rewrite filter_cons_True by (by apply Is_true_true_2). simpl length. lia.
      - rewrite filter_cons_False by (by apply Is_true_false_2). lia. }
    rewrite Ef in Hlt.
    destruct (view_step_position c o a k ea v0 eb Hcap Hnd Hle Ees) as (ea' & v' & eb' & Ees' & Hl).
    { by destruct o. }
    { pose proof (Zle_0_nat (length (filter is_access ops'))). lia. }
    pose proof (view_step_length o a c Hnd Hcap) as [_ Hle1]. cbn zeta in Hle1.
    destruct (IH s1 _ ea' v' eb' Hv1) as (rs' & s' & Hrun' & Hhas).
    + by rewrite view_step_capacity.
    + by apply view_step_NoDup.
    + by apply Hle1.
    + done.
    + destruct (is_access o); lia.
    + eexists _, s'. simpl. rewrite Hex. simpl. rewrite Hrun'. simpl. done.
Qed.

(** X9.  Under the integer capacity [c], [isEmpty()] holds exactly when
    there is no key (and no most recent entry), and [isFull()] exactly
    when the size is [c].  A [put] into a cache that is not full evicts
    nothing: [evictions] is unchanged and every key stays. *)
Theorem X9_isEmpty_and_isFull (c : Z) s0 ops rs s :
  constructor (JSNumber.of_Z c) = Ok s0 → run ops s0 = Some (rs, s) →
  (isEmpty s = true ↔ keys s = Some []) ∧
  (isEmpty s = true ↔ (getMostRecent s).1 = None) ∧
  (isFull s = true ↔ _size s = c) ∧
  (isFull s = false →
   ∀ k v, _evictions (put k v s) = _evictions s ∧
          ∀ k', (has k' s).1 = true → (has k' (put k v s)).1 = true).
Proof.
  intros Hc Hrun.
  destruct (reach_facts _ _ _ _ _ Hc Hrun) as (a & Hv & Hcap & Hnd & Hle & Hpos).
  pose proof (views_size _ _ Hv) as Hsz.
  unfold isEmpty, isFull. rewrite (views_capacity _ _ Hv), Hcap, le_of_Z, Hsz.
  split_and!.
  - rewrite (views_keys _ _ Hv), Z.eqb_eq. destruct (v_entries a); simpl; split; try done; lia.
  - rewrite (views_getMostRecent _ _ Hv), Z.eqb_eq.
    destruct (v_entries a); simpl; split; try done; lia.
  - rewrite Z.leb_le. lia.
  - intros Hnf%Z.leb_gt k v. pose proof (views_put s a k v Hv) as Hv'.
    assert ((view_step (Put k v) a).2 =
            if assoc k (v_entries a) is Some _
            then mkView ((k, v) :: without k (v_entries a)) (v_capacity a)
                        (v_hits a) (v_misses a) (v_evictions a)
            else mkView ((k, v) :: v_entries a) (v_capacity a)
                        (v_hits a) (v_misses a) (v_evictions a)) as Estep.
    { cbn. destruct (assoc k (v_entries a)); [done|]. rewrite Hcap, gt_of_Z.
      destruct (Z.ltb_spec c (Z.of_nat (length (v_entries a)) + 1)); [lia|done]. }
    rewrite Estep in Hv'. clear Estep. split.
    + rewrite (views_evictions _ _ Hv'), (views_evictions _ _ Hv).
      by destruct (assoc k (v_entries a)).
    + intros k'. rewrite (views_has _ _ k' Hv'), (views_has _ _ k' Hv), !bool_decide_eq_true.
      intros [v' Hk']. destruct (decide (k = k')) as [->|Hne].
      { destruct (assoc k' (v_entries a)); simpl; rewrite decide_True by done; by eexists. }
      destruct (assoc k (v_entries a)); simpl; rewrite decide_False by done.
      * rewrite assoc_without_ne by done. by eexists.
      * by eexists.
Qed.

End CacheCalls.

(** ** Traversals *)

Section TraverseFacts.
  Context {N : Type} `{Linked N}.
  Implicit Types (h : list N) (ls : list loc) (nodes : list N).

(** Every reference of a chain designates a node of the store. *)
Lemma dseg_nodes h p ls n :
  dseg h p ls n → ∃ nodes, Forall2 (λ l node, h !! l = Some node) ls nodes.
Proof.
  revert p. induction ls as [|x ls IH]; intros p Hd; [by exists []|].
  destruct Hd as (Hb & _ & _ & Hd). destruct (IH _ Hd) as (nodes & Hf).
  destruct (lookup_lt_is_Some_2 h x Hb) as [node Hx].
  exists (node :: nodes). by constructor.
Qed.

(** On a chain the loop ends within the bound, and does what [scan] does
    on the nodes of the chain. *)
Lemma traverse_dseg {A R : Type} (body : N → Z → A → A + R) fuel h p ls nodes index acc :
  dseg h p ls None → Forall2 (λ l node, h !! l = Some node) ls nodes →
  (length ls ≤ fuel)%nat →
  traverse fuel h body (first_or ls None) index acc = Some (scan body nodes index acc).
Proof.
  intros Hd Hf. revert fuel p index acc Hd.
  induction Hf as [|x node ls nodes Hx Hf IH]; intros fuel p index acc Hd Hlen.
  - by destruct fuel.
  - destruct fuel as [|fuel]; [simpl in Hlen; lia|]. simpl. rewrite Hx.
    destruct (body node index acc) as [acc'|r]; [|done].
    destruct Hd as (_ & _ & Hnx & Hd). unfold next_of in Hnx. rewrite Hx in Hnx. simpl in Hnx.
    rewrite Hnx. apply (IH fuel (Some x)); [done|]. simpl in Hlen. lia.
Qed.

Lemma traverse_chain {A R : Type} (body : N → Z → A → A + R) h hd tl ls nodes index acc :
  is_chain h hd tl ls → Forall2 (λ l node, h !! l = Some node) ls nodes →
  traverse (length h) h body hd index acc = Some (scan body nodes index acc).
Proof.
  intros Hc Hf. pose proof (is_chain_length _ _ _ _ Hc) as Hlen.
  destruct Hc as (_ & Hd & -> & _). by eapply traverse_dseg.
Qed.

(** A body that never returns folds its step over the nodes. *)
Lemma scan_fold_from {A : Type} (step : N → Z → A → A) nodes (j : nat) acc :
  scan (R := Empty_set) (λ node i acc, inl (step node i acc)) nodes (Z.of_nat j) acc =
    inl (fold_left (λ acc '(i, node), step node (Z.of_nat i) acc)
                   (imap (λ i node, ((j + i)%nat, node)) nodes) acc).
Proof.
  revert j acc. induction nodes as [|node nodes IH]; intros j acc; [done|].
  simpl. rewrite Nat.add_0_r. replace (Z.of_nat j + 1) with (Z.of_nat (S j)) by lia.
  rewrite IH. do 2 f_equal. apply imap_ext. intros i x _. simpl. f_equal. lia.
Qed.

Lemma scan_fold {A : Type} (step : N → Z → A → A) nodes acc :
  scan (R := Empty_set) (λ node i acc, inl (step node i acc)) nodes 0 acc =
    inl (fold_left (λ acc '(i, node), step node (Z.of_nat i) acc) (imap pair nodes) acc).
Proof. apply (scan_fold_from step nodes 0). Qed.

(** A body that returns [r] at the first node that satisfies [test]. *)
Lemma scan_find_from {R : Type} (test : N → Z → bool) (r : R) nodes (j : nat) :
  scan (λ node i (_ : unit), if test node i then inr r else inl ()) nodes (Z.of_nat j) () =
    if existsb (λ '(i, node), test node (Z.of_nat i)) (imap (λ i node, ((j + i)%nat, node)) nodes)
    then inr r else inl ().
Proof.
  revert j. induction nodes as [|node nodes IH]; intros j; [done|].
  simpl. rewrite Nat.add_0_r. destruct (test node (Z.of_nat j)); [done|]. simpl.
  replace (Z.of_nat j + 1) with (Z.of_nat (S j)) by lia. rewrite IH.
  assert (imap (λ i node0, ((S j + i)%nat, node0)) nodes =
          imap ((λ i node0, ((j + i)%nat, node0)) ∘ S) nodes) as ->; [|done].
  apply imap_ext. intros i x _. simpl. f_equal. lia.
Qed.

Lemma scan_find {R : Type} (test : N → Z → bool) (r : R) nodes :
  scan (λ node i (_ : unit), if test node i then inr r else inl ()) nodes 0 () =
    if existsb (λ '(i, node), test node (Z.of_nat i)) (imap pair nodes)
    then inr r else inl ().
Proof. apply (scan_find_from test r nodes 0). Qed.

(** Some indexed element passes a test when some position holds an element
    that passes it. *)
Lemma existsb_imap {X : Type} (test : X → Z → bool) (xs : list X) :
  existsb (λ '(i, x), test x (Z.of_nat i)) (imap pair xs) = true ↔
  ∃ (i : nat) x, xs !! i = Some x ∧ test x (Z.of_nat i) = true.
Proof.
  rewrite existsb_exists. split.
  - intros ([i x] & Hin & Ht). apply list_elem_of_In, list_elem_of_lookup in Hin as [n Hn].
    rewrite list_lookup_imap in Hn. destruct (xs !! n) as [y|] eqn:E; simpl in Hn; [|done].
    injection Hn as <- <-. by exists n, y.
  - intros (i & x & Hx & Ht). exists (i, x). split; [|done].
    apply list_elem_of_In, list_elem_of_lookup. exists i. by rewrite list_lookup_imap, Hx.
Qed.

End TraverseFacts.

(** ** The cache's read-only methods *)

Section CacheReads.
  Import LRUCache.
  Context {K : Type} `{Countable K} {V : Type}.
  Implicit Types (s : LRUCache K V) (a : view K V) (o : op K V) (ops : list (op K V)).
  Implicit Types (es : list (K * V)) (k : K) (v : V).

(** The nodes of the chain, with the entries they hold. *)
Lemma views_nodes ls s a :
  views_by ls s a →
  ∃ nodes, Forall2 (λ l node, heap s !! l = Some node) ls nodes ∧
           v_entries a = (λ node, (key node, value node)) <$> nodes.
Proof.
  intros (_ & Hf & _). induction Hf as [|l e ls es He Hf IH]; [by exists []|].
  destruct IH as (nodes & Hn & ->). unfold entry_of in He.
  destruct (heap s !! l) as [node|] eqn:Hl; simpl in He; [|done]. injection He as <-.
  exists (node :: nodes). split; [by constructor|done].
Qed.

(** The index holds the nodes of the chain, and no other. *)
Lemma views_index_nodes ls s a l :
  views_by ls s a → l ∈ (map_to_list (cache s)).*2 ↔ l ∈ ls.
Proof.
  intros ([_ Hidx _ _] & Hf & _). split.
  - intros ([k l'] & -> & Hin)%list_elem_of_fmap. apply elem_of_map_to_list in Hin.
    by apply Hidx in Hin as [? _].
  - intros Hl. apply list_elem_of_lookup in Hl as [i Hi].
    destruct (Forall2_lookup_l _ _ _ _ _ Hf Hi) as ([k v] & _ & He).
    apply list_elem_of_fmap. exists (k, l). split; [done|].
    apply elem_of_map_to_list, Hidx. split; [by eapply list_elem_of_lookup_2|].
    by rewrite key_of_entry, He.
Qed.

(** A part of a positive whole, as a quotient. *)
Lemma quotient_bounds (n c : Z) :
  0 < c → 0 ≤ n ≤ c →
  (0 <= inject_Z n / inject_Z c)%Q ∧ (inject_Z n / inject_Z c <= 1)%Q ∧
  ((inject_Z n / inject_Z c == 1)%Q ↔ n = c).
Proof.
  intros Hc [Hn0 Hnc].
  assert (0 < inject_Z c)%Q as Hcq.
  { change (inject_Z 0 < inject_Z c)%Q. by rewrite <- Zlt_Qlt. }
  assert (¬ (inject_Z c == 0)%Q) as Hc0.
  { intros E. rewrite E in Hcq. by apply Qlt_irrefl in Hcq. }
  split_and!.
  - apply Qle_shift_div_l; [done|]. rewrite Qmult_0_l. change (inject_Z 0 <= inject_Z n)%Q.
    by rewrite <- Zle_Qle.
  - apply Qle_shift_div_r; [done|]. rewrite Qmult_1_l. by rewrite <- Zle_Qle.
  - split.
    + intros E. assert (inject_Z n == inject_Z c)%Q as E'.
      { rewrite <- (Qmult_div_r (inject_Z n) (inject_Z c)) by done. rewrite E. apply Qmult_1_r. }
      apply inject_Z_injective. exact E'.
    + intros ->. by apply Qmult_inv_r.
Qed.

(** X10.  On a cache in use, [contains(value)], which scans the index,
    says whether some value of [toArray()], the chain, is [===] to
    [value]. *)
Theorem X10_contains_finds_the_values_of_the_chain {SV : StrictEq V}
    (cap : JSNumber.number) s0 ops rs s v :
  constructor cap = Ok s0 → run ops s0 = Some (rs, s) →
  ∃ vs, toArray s = Some vs ∧ contains v s = existsb (λ v', strict_eq v' v) vs.
Proof.
  intros Hc Hrun. destruct (reach_views _ _ _ _ _ Hc Hrun) as [Hv _].
  set (a := (view_run ops _).2) in *. clearbody a.
  exists (v_entries a).*2. split.
  { unfold toArray. by rewrite (views_entries _ _ Hv). }
  destruct Hv as (ls & Hv). pose proof Hv as (_ & Hf & _).
  unfold contains. apply Bool.eq_iff_eq_true. rewrite !existsb_exists. split.
  - intros (l & Hl & Ht). apply list_elem_of_In in Hl.
    apply (views_index_nodes _ _ _ _ Hv) in Hl. apply list_elem_of_lookup in Hl as [i Hi].
    destruct (Forall2_lookup_l _ _ _ _ _ Hf Hi) as ([k v'] & Hes & He).
    rewrite value_of_entry, He in Ht. simpl in Ht. exists v'. split; [|done].
    apply list_elem_of_In, list_elem_of_fmap. exists (k, v'). split; [done|].
    by eapply list_elem_of_lookup_2.
  - intros (v' & Hin & Ht). apply list_elem_of_In, list_elem_of_fmap in Hin as ([k v''] & -> & Hin).
    apply list_elem_of_lookup in Hin as [i Hi].
    destruct (Forall2_lookup_r _ _ _ _ _ Hf Hi) as (l & Hl & He).
    exists l. split.
    + apply list_elem_of_In, (views_index_nodes _ _ _ _ Hv). by eapply list_elem_of_lookup_2.
    + by rewrite value_of_entry, He.
Qed.

(** X11.  On a cache in use under the integer capacity [c], the snapshot
    of [getStats()] holds the size, the capacity and the counters;
    [utilization] is [size / c], between 0 and 1, and 1 exactly when the
    cache is full; [hitRate] is between 0 and 1. *)
Theorem X11_getStats_is_a_snapshot_within_bounds (c : Z) s0 ops rs s :
  constructor (JSNumber.of_Z c) = Ok s0 → run ops s0 = Some (rs, s) →
  stats_size (getStats s) = size s ∧ stats_capacity (getStats s) = JSNumber.of_Z c ∧
  stats_hits (getStats s) = hits s ∧ stats_misses (getStats s) = misses s ∧
  stats_evictions (getStats s) = evictions s ∧ stats_hitRate (getStats s) = hitRate s ∧
  stats_utilization (getStats s) = JSNumber.Finite (inject_Z (_size s) / inject_Z c) ∧
  (0 <= inject_Z (_size s) / inject_Z c)%Q ∧ (inject_Z (_size s) / inject_Z c <= 1)%Q ∧
  ((inject_Z (_size s) / inject_Z c == 1)%Q ↔ isFull s = true) ∧
  (0 <= hitRate s)%Q ∧ (hitRate s <= 1)%Q.
Proof.
  intros Hc Hrun.
  destruct (reach_facts _ _ _ _ _ Hc Hrun) as (a & Hv & Hcap & Hnd & Hle & Hpos).
  destruct (reach_views _ _ _ _ _ Hc Hrun) as [Hv0 _].
  pose proof (view_run_accesses ops (mkView (K:=K) (V:=V) [] (JSNumber.of_Z c) 0 0 0)) as [_ Hnn].
  cbn zeta in Hnn. destruct (views_hits _ _ Hv0) as [Eh Em]. rewrite <- Eh, <- Em in Hnn.
  destruct Hnn as [Hh Hm]; [done|done|]. clear Hv0 Eh Em.
  pose proof (views_size _ _ Hv) as Hsz. pose proof (views_capacity _ _ Hv) as Ecap.
  rewrite Hcap in Ecap.
  assert (0 ≤ _size s ≤ c) as Hs by lia.
  destruct (quotient_bounds (_size s) c Hpos Hs) as (Hu0 & Hu1 & Hfull).
  split_and!; try done.
  - unfold getStats. simpl. rewrite Ecap. unfold JSNumber.div, JSNumber.of_Z.
    destruct (Qeq_bool (inject_Z c) 0) eqn:E; [|done].
    apply Qeq_bool_iff, (inject_Z_injective c 0) in E. lia.
  - rewrite Hfull. unfold isFull. rewrite Ecap, le_of_Z, Z.leb_le. lia.
  - unfold hitRate. destruct (Z.eqb_spec (_hits s + _misses s) 0); [done|].
    apply (quotient_bounds (_hits s) (_hits s + _misses s)); lia.
  - unfold hitRate. destruct (Z.eqb_spec (_hits s + _misses s) 0); [done|].
    apply (quotient_bounds (_hits s) (_hits s + _misses s)); lia.
Qed.

(** With a callback that hands the cache back as it got it, the loop of
    [forEach] ends within the bound on a chain, having applied the
    callback to the nodes of the chain in their order. *)
Lemma forEach_from_dseg {W : Type} (fuel : nat)
    (callback : V → K → Z → W → LRUCache K V → option (outcome (W * LRUCache K V)))
    (effect : V → K → Z → W → W) s p ls nodes (j : nat) (w : W) :
  (∀ v k i w, callback v k i w s = Some (Ok (effect v k i w, s))) →
  dseg (heap s) p ls None → Forall2 (λ l node, heap s !! l = Some node) ls nodes →
  (length ls ≤ fuel)%nat →
  forEach_from fuel callback (first_or ls None) (Z.of_nat j) w s =
    Some (Ok (fold_left (λ w '(i, node), effect (value node) (key node) (Z.of_nat i) w)
                        (imap (λ i node, ((j + i)%nat, node)) nodes) w, s)).
Proof.
  intros Hcb Hd Hf. revert fuel p j w Hd.
  induction Hf as [|x node ls nodes Hx Hf IH]; intros fuel p j w Hd Hlen.
  - by destruct fuel.
  - destruct fuel as [|fuel]; [simpl in Hlen; lia|]. cbn [first_or forEach_from].
    rewrite Hx, Hcb. destruct Hd as (_ & _ & Hnx & Hd). rewrite Hnx.
    replace (Z.of_nat j + 1) with (Z.of_nat (S j)) by lia.
    rewrite (IH fuel (Some x) (S j)) by (done || (simpl in Hlen; lia)).
    simpl. rewrite Nat.add_0_r.
    assert (imap (λ i (node : LRUNode K V), (S (j + i), node)) nodes =
            imap ((λ i (node : LRUNode K V), ((j + i)%nat, node)) ∘ S) nodes) as ->; [|done].
    apply imap_ext. intros i y _. simpl. f_equal. lia.
Qed.

(** X12.  On a cache in use, with a callback that leaves the cache as it
    is (it can read it), [forEach(callback)] returns, having called
    [callback(value, key, index)] once for each entry of [entries()], in
    their order, most recent first, with the indices 0, 1, 2, ...; the
    cache is then as it was.  A callback that changes the cache it is
    called from is not covered: the loop follows the links as the
    callback leaves them. *)
Theorem X12_forEach_visits_the_entries_in_order {W : Type}
    (cap : JSNumber.number) s0 ops rs s
    (callback : V → K → Z → W → LRUCache K V → option (outcome (W * LRUCache K V)))
    (effect : V → K → Z → W → W) (w : W) (fuel : nat) :
  constructor cap = Ok s0 → run ops s0 = Some (rs, s) →
  (∀ v k i w, callback v k i w s = Some (Ok (effect v k i w, s))) →
  size s ≤ Z.of_nat fuel →
  ∃ es, entries s = Some es ∧
        forEach fuel callback s w =
          Some (Ok (fold_left (λ w '(i, (k, v)), effect v k (Z.of_nat i) w) (imap pair es) w, s)).
Proof.
  intros Hc Hrun Hcb Hfuel. destruct (reach_views _ _ _ _ _ Hc Hrun) as [Hv _].
  set (a := (view_run ops _).2) in *. clearbody a.
  exists (v_entries a). split; [by apply views_entries|].
  pose proof (views_size _ _ Hv) as Hsz.
  destruct Hv as (ls & Hv). destruct (views_nodes _ _ _ Hv) as (nodes & Hn & Ees).
  pose proof Hv as (_ & Hfe & _). pose proof (Forall2_length _ _ _ Hfe) as Hlen.
  destruct Hv as ([Hch _ _ _] & _). destruct Hch as (_ & Hd & Hhd & _).
  unfold forEach. rewrite Hhd. change 0 with (Z.of_nat 0).
  rewrite (forEach_from_dseg fuel callback effect s None ls nodes 0 w Hcb Hd Hn)
    by (unfold size in Hfuel; lia).
  do 3 f_equal. rewrite Ees.
  assert (∀ (l : list (nat * LRUNode K V)) w,
            fold_left (λ w '(i, node), effect (value node) (key node) (Z.of_nat i) w) l w =
            fold_left (λ w '(i, (k, v)), effect v k (Z.of_nat i) w)
                      ((λ '(i, node), (i, (key node, value node))) <$> l) w) as Hfold.
  { intros l. induction l as [|[i node] l IH]; intros w'; [done|]. simpl. by rewrite IH. }
  etrans; [apply Hfold|]. f_equal. rewrite fmap_imap, imap_fmap. by apply imap_ext.
Qed.

End CacheReads.

(** ** The benchmark's NaiveLRUCache *)

Section NaiveFacts.
  Import LRUCache.
  Context {K : Type} `{Countable K} {V : Type}.
  Context {strict_eq_K : StrictEq K} {undefined_K : Undefined K} {undefined_V : Undefined V}.
  #[local] Arguments JSNumber.gt : simpl never.
  #[local] Arguments JSNumber.le : simpl never.
  #[local] Arguments JSNumber.ge : simpl never.
  #[local] Arguments removelast : simpl never.
  Implicit Types (n : NaiveLRUCache.NaiveLRUCache K V) (a : view K V).
  Implicit Types (es : list (K * V)) (k : K) (v : V) (l : list K).

Lemma filter_ne_notin k l : k ∉ l → filter (λ k', k' ≠ k) l = l.
Proof.
  induction l as [|x l IH]; [done|]. intros [Hx Hl]%not_elem_of_cons.
  rewrite filter_cons_True by done. by rewrite IH.
Qed.

(** [indexOf] finds a key that is there and is [===] to itself and to no
    other key, and [splice] at its index takes it out. *)
Lemma indexOf_from_elem (i : Z) k l :
  (∀ k', strict_eq k k' = true → k = k') → strict_eq k k = true →
  NoDup l → k ∈ l →
  i ≤ NaiveLRUCache.indexOf_from i k l ∧
  base.delete (Z.to_nat (NaiveLRUCache.indexOf_from i k l - i)) l = filter (λ k', k' ≠ k) l.
Proof.
  intros Hsound Hrefl. revert i.
  induction l as [|x l IH]; intros i Hnd Hin; [by apply elem_of_nil in Hin|].
  apply NoDup_cons in Hnd as [Hx Hnd]. simpl. destruct (strict_eq k x) eqn:E.
  - apply Hsound in E as <-. rewrite Z.sub_diag. simpl.
    rewrite filter_cons_False by (by intros ?). split; [lia|]. by rewrite filter_ne_notin.
  - assert (x ≠ k) as Hne by (intros ->; congruence).
    apply elem_of_cons in Hin as [->|Hin]; [done|].
    destruct (IH (i + 1) Hnd Hin) as [Hle Hdel]. split; [lia|].
    rewrite filter_cons_True by done.
    replace (Z.to_nat (NaiveLRUCache.indexOf_from (i + 1) k l - i))
      with (S (Z.to_nat (NaiveLRUCache.indexOf_from (i + 1) k l - (i + 1)))) by lia.
    simpl. by rewrite Hdel.
Qed.

Lemma splice_indexOf k l :
  (∀ k', strict_eq k k' = true → k = k') → strict_eq k k = true →
  NoDup l → k ∈ l →
  (-1 <? NaiveLRUCache.indexOf k l) = true ∧
  NaiveLRUCache.splice (NaiveLRUCache.indexOf k l) l = filter (λ k', k' ≠ k) l.
Proof.
  intros Hsound Hrefl Hnd Hin.
  destruct (indexOf_from_elem 0 k l Hsound Hrefl Hnd Hin) as [Hle Hdel].
  unfold NaiveLRUCache.indexOf, NaiveLRUCache.splice. rewrite Z.sub_0_r in Hdel.
  split; [|done]. apply Z.ltb_lt. lia.
Qed.

Lemma assoc_snoc_ne k k' v' es : k ≠ k' → assoc k (es ++ [(k', v')]) = assoc k es.
Proof.
  intros Hne. induction es as [|e es IH]; simpl.
  - by rewrite decide_False by done.
  - by rewrite IH.
Qed.

Lemma assoc_list_to_map k es : assoc k es = (list_to_map es : gmap K V) !! k.
Proof.
  induction es as [|[k' v'] es IH]; [done|]. simpl. case_decide as E; simpl in E.
  - subst. by rewrite lookup_insert_eq.
  - by rewrite lookup_insert_ne.
Qed.

Lemma naive_size n a :
  NaiveLRUCache.views n a → NoDup (v_entries a).*1 →
  base.size (NaiveLRUCache.cache n) = length (v_entries a).
Proof.
  intros (_ & Hlook & _) Hnd.
  assert (NaiveLRUCache.cache n = list_to_map (v_entries a)) as ->.
  { apply map_eq. intros k. by rewrite Hlook, assoc_list_to_map. }
  by apply map_size_list_to_map.
Qed.

(** The entries stay those that plain calls stored. *)
Lemma assoc_elem k v es : assoc k es = Some v → (k, v) ∈ es.
Proof.
  intros (ea & eb & -> & _)%assoc_Some_split. apply elem_of_app. right. by left.
Qed.

Lemma plain_step (o : NaiveLRUCache.op K V) a :
  Forall NaiveLRUCache.plain_entry (v_entries a) → NaiveLRUCache.plain o = true →
  Forall NaiveLRUCache.plain_entry (v_entries (view_step (NaiveLRUCache.on_cache o) a).2).
Proof.
  intros Hall Hp.
  assert (∀ k, Forall NaiveLRUCache.plain_entry (without k (v_entries a))) as Hwo.
  { intros k. apply Forall_forall. intros e [_ He]%list_elem_of_filter.
    by apply (proj1 (Forall_forall _ _) Hall). }
  destruct o as [k|k v|]; cbn [NaiveLRUCache.on_cache view_step].
  - destruct (assoc k (v_entries a)) as [v0|] eqn:Hk; cbn; [|done].
    apply Forall_cons. split; [|apply Hwo].
    apply (proj1 (Forall_forall _ _) Hall). by apply assoc_elem.
  - assert (NaiveLRUCache.plain_entry (k, v)) as Hkv.
    { cbn in Hp. apply andb_prop in Hp as [[E1 E2]%andb_prop E3].
      apply negb_true_iff in E2. apply negb_true_iff in E3. done. }
    destruct (assoc k (v_entries a)); cbn.
    + apply Forall_cons. split; [done|apply Hwo].
    + destruct (JSNumber.gt _ _); cbn -[removelast]; [|by apply Forall_cons].
      destruct (exists_last (l := (k, v) :: v_entries a)) as (ea & e & Ees); [done|].
      rewrite Ees, removelast_last.
      assert (Forall NaiveLRUCache.plain_entry (ea ++ [e])) as Hall'.
      { rewrite <- Ees. by apply Forall_cons. }
      by apply Forall_app in Hall' as [? _].
  - cbn. constructor.
Qed.

(** Every plain call does to the object what [view_step] does to its
    list, with the same value returned by a [get]. *)
Lemma naive_refine_step (c : Z) (o : NaiveLRUCache.op K V) n a :
  (∀ k k' : K, strict_eq k k' = true → k = k') →
  NaiveLRUCache.views n a → v_capacity a = JSNumber.of_Z c → 0 < c →
  NoDup (v_entries a).*1 →
  Forall NaiveLRUCache.plain_entry (v_entries a) → NaiveLRUCache.plain o = true →
  NaiveLRUCache.views (NaiveLRUCache.exec o n).2 (view_step (NaiveLRUCache.on_cache o) a).2 ∧
  NaiveLRUCache.got [(NaiveLRUCache.exec o n).1] =
    NaiveLRUCache.got [(view_step (NaiveLRUCache.on_cache o) a).1].
Proof.
  intros Hsound Hv Hcap Hpos Hnd Hall Hp. pose proof Hv as (Hord & Hlook & Hc).
  pose proof (proj1 (Forall_forall _ _) Hall) as Hplain.
  assert (∀ k v0, assoc k (v_entries a) = Some v0 →
            (-1 <? NaiveLRUCache.indexOf k (NaiveLRUCache.order n)) = true ∧
            NaiveLRUCache.splice (NaiveLRUCache.indexOf k (NaiveLRUCache.order n))
                                 (NaiveLRUCache.order n) ++ [k] =
              reverse ((k, v0) :: without k (v_entries a)).*1) as Hmove.
  { intros k v0 Hk.
    destruct (Hplain _ (assoc_elem _ _ _ Hk)) as (Hrefl & _ & _). simpl in Hrefl.
    destruct (splice_indexOf k (NaiveLRUCache.order n)) as [Hidx Hspl].
    - intros k'. apply Hsound.
    - done.
    - by rewrite Hord, reverse_Permutation.
    - rewrite Hord, elem_of_reverse. apply assoc_Some_split in Hk as (ea & eb & -> & _).
      rewrite fmap_app. apply elem_of_app. right. by left.
    - split; [done|]. rewrite Hspl, Hord, fmap_cons, reverse_cons, without_keys.
      by rewrite filter_reverse. }
  destruct o as [k|k v|]; cbn [NaiveLRUCache.on_cache NaiveLRUCache.exec].
  - (* get *)
    unfold NaiveLRUCache.get. rewrite Hlook. cbn [view_step].
    destruct (assoc k (v_entries a)) as [v0|] eqn:Hk; cbn; [|done].
    destruct (Hplain _ (assoc_elem _ _ _ Hk)) as (_ & _ & Hu). simpl in Hu. rewrite Hu. cbn.
    destruct (Hmove k v0 Hk) as [-> Hord']. cbn. split; [|done].
    split_and!; [done| |done]. cbn. intros k'. rewrite Hlook.
    case_decide as E; simpl in E; [by subst|]. symmetry. apply assoc_without_ne. congruence.
  - (* put *)
    cbn [fst snd]. split.
    2:{ cbn. destruct (assoc k (v_entries a)); [done|]. by destruct (JSNumber.gt _ _). }
    unfold NaiveLRUCache.put. rewrite Hlook. cbn [view_step].
    destruct (assoc k (v_entries a)) as [v0|] eqn:Hk.
    + rewrite bool_decide_eq_true_2 by (by eexists).
      destruct (Hmove k v0 Hk) as [-> Hord']. cbn.
      split_and!; [by rewrite Hord'| |done]. cbn. intros k'.
      case_decide as E; simpl in E; [subst; by rewrite lookup_insert_eq|].
      rewrite lookup_insert_ne by done. rewrite Hlook. symmetry. apply assoc_without_ne. congruence.
    + rewrite bool_decide_eq_false_2 by (by intros [? ?]).
      rewrite (naive_size n a Hv Hnd), Hc, Hcap, ge_of_Z, gt_of_Z.
      destruct (Z.leb_spec c (Z.of_nat (length (v_entries a)))) as [Hfull|Hroom];
        destruct (Z.ltb_spec c (Z.of_nat (length (v_entries a)) + 1)); try lia.
      * destruct (exists_last (l := v_entries a)) as (ea & [kl vl] & Ees).
        { intros E. rewrite E in Hfull. simpl in Hfull. lia. }
        assert (NaiveLRUCache.order n = kl :: reverse ea.*1) as ->.
        { rewrite Hord, Ees, fmap_app. apply reverse_snoc. }
        assert (is_undefined kl = false) as Hukl.
        { destruct (Hplain (kl, vl)) as (_ & Hu & _); [|done].
          rewrite Ees. apply elem_of_app. right. by left. }
        rewrite Hukl. rewrite Ees. cbn -[removelast].
        change ((k, v) :: ea ++ [(kl, vl)]) with (((k, v) :: ea) ++ [(kl, vl)]).
        rewrite removelast_last. unfold NaiveLRUCache.views. cbn -[reverse].
        split_and!; [by rewrite reverse_cons| |congruence].
        intros k'. case_decide as E; simpl in E; [subst; by rewrite lookup_insert_eq|].
        rewrite lookup_insert_ne by done.
        rewrite Ees, fmap_app in Hnd. apply NoDup_app in Hnd as (_ & Hdisj & _).
        destruct (decide (k' = kl)) as [->|Hne].
        -- rewrite lookup_delete_eq. symmetry. apply assoc_None. intros Hin.
           apply (Hdisj kl Hin). by left.
        -- rewrite lookup_delete_ne by done. rewrite Hlook, Ees. by apply assoc_snoc_ne.
      * unfold NaiveLRUCache.views. cbn -[reverse].
        split_and!; [by rewrite Hord, reverse_cons| |congruence].
        intros k'. case_decide as E; simpl in E; [subst; by rewrite lookup_insert_eq|].
        rewrite lookup_insert_ne by done. apply Hlook.
  - (* clear *)
    cbn. split; [|done]. split_and!; [done| |done]. intros k. apply lookup_empty.
Qed.

Lemma naive_refine_run (c : Z) (ops : list (NaiveLRUCache.op K V)) n a :
  (∀ k k' : K, strict_eq k k' = true → k = k') →
  NaiveLRUCache.views n a → v_capacity a = JSNumber.of_Z c → 0 < c →
  NoDup (v_entries a).*1 →
  Forall NaiveLRUCache.plain_entry (v_entries a) → forallb NaiveLRUCache.plain ops = true →
  NaiveLRUCache.views (NaiveLRUCache.run ops n).2 (view_run (NaiveLRUCache.on_cache <$> ops) a).2 ∧
  NaiveLRUCache.got (NaiveLRUCache.run ops n).1 =
    NaiveLRUCache.got (view_run (NaiveLRUCache.on_cache <$> ops) a).1.
Proof.
  intros Hsound. revert n a.
  induction ops as [|o ops IH]; intros n a Hv Hcap Hpos Hnd Hall Hp; [done|].
  rewrite fmap_cons. simpl in Hp. apply andb_prop in Hp as [Hpo Hps]. simpl.
  destruct (naive_refine_step c o n a Hsound Hv Hcap Hpos Hnd Hall Hpo) as [Hv1 Hr1].
  pose proof (view_step_NoDup (NaiveLRUCache.on_cache o) a Hnd) as Hnd1.
  pose proof (view_step_capacity (NaiveLRUCache.on_cache o) a) as Ec.
  pose proof (plain_step o a Hall Hpo) as Hall1.
  destruct (NaiveLRUCache.exec o n) as [r n1]. destruct (view_step _ a) as [r' a1].
  simpl in *. destruct (IH n1 a1 Hv1) as [Hv2 Hr2]; [congruence|done|done|done|done|].
  destruct (NaiveLRUCache.run ops n1) as [rs n2]. destruct (view_run _ a1) as [rs' a2].
  simpl in *. split; [done|]. rewrite Hr2. destruct r, r'; simpl in *; congruence.
Qed.

(** X13.  The benchmark compares like with like, as long as no [put]
    stores [undefined] or uses a key that is [undefined] or not [===] to
    itself (NaN): under an integer capacity, any sequence of such [put]
    calls and of [get] and [clear] calls returns from the [get]s of a
    [NaiveLRUCache] what it returns from the [get]s of an [LRUCache], and
    leaves the same values under the same keys, the [order] array being
    [keys()] reversed.  ([===] holds between equal keys only.) *)
Theorem X13_naive_cache_agrees_with_the_cache (c : Z) (s0 : LRUCache K V)
    (ops : list (NaiveLRUCache.op K V)) :
  (∀ k k' : K, strict_eq k k' = true → k = k') →
  forallb NaiveLRUCache.plain ops = true →
  constructor (JSNumber.of_Z c) = Ok s0 →
  ∃ rs s, run (NaiveLRUCache.on_cache <$> ops) s0 = Some (rs, s) ∧
          NaiveLRUCache.got
            (NaiveLRUCache.run ops (NaiveLRUCache.constructor (JSNumber.of_Z c))).1 =
            NaiveLRUCache.got rs ∧
          keys s =
            Some (reverse (NaiveLRUCache.order
               (NaiveLRUCache.run ops (NaiveLRUCache.constructor (JSNumber.of_Z c))).2)) ∧
          ∀ k, NaiveLRUCache.cache
                 (NaiveLRUCache.run ops (NaiveLRUCache.constructor (JSNumber.of_Z c))).2 !! k =
               (peek k s).1.
Proof.
  intros Hsound Hplain Hc. pose proof (constructor_of_Z _ _ Hc) as Hpos.
  destruct (refine_run (NaiveLRUCache.on_cache <$> ops) s0 _ (views_constructor _ _ Hc))
    as (s & Hrun & Hv).
  assert (NaiveLRUCache.views (NaiveLRUCache.constructor (JSNumber.of_Z c))
            (mkView (K:=K) (V:=V) [] (JSNumber.of_Z c) 0 0 0)) as Hv0.
  { by split_and!. }
  destruct (naive_refine_run c ops _ _ Hsound Hv0 eq_refl Hpos (NoDup_nil_2 (A:=K))
              (Forall_nil_2 _) Hplain)
    as [(Hord & Hlook & _) Hgot].
  eexists _, s. split; [exact Hrun|]. split_and!.
  - exact Hgot.
  - rewrite (views_keys _ _ Hv), Hord. by rewrite reverse_involutive.
  - intros k. by rewrite Hlook, (views_peek _ _ k Hv).
Qed.

End NaiveFacts.

(** ** The standalone list as a sequence *)

Section ListRefinement.
  Import DoublyLinkedList.
  Context {T : Type}.
  Implicit Types (d : DoublyLinkedList T) (h : list (DoublyLinkedListNode T)).
  Implicit Types (ls : list loc) (x y : loc) (vs : list T) (o : op T).
  #[local] Arguments dseg : simpl never.

Lemma list_value_of_alloc h (node : DoublyLinkedListNode T) y :
  (y < length h)%nat → value_of (h ++ [node]) y = value_of h y.
Proof. intros Hy. unfold value_of. by rewrite lookup_app_l. Qed.

Lemma list_value_of_new h (node : DoublyLinkedListNode T) :
  value_of (h ++ [node]) (length h) = Some (value node).
Proof. unfold value_of. by rewrite list_lookup_middle. Qed.

(** The two insertions allocate a node for the value and leave the values
    of the others alone. *)
Lemma addFirst_values d (v : T) :
  value_of (heap (addFirst v d)) (length (heap d)) = Some v ∧
  ∀ y, (y < length (heap d))%nat → value_of (heap (addFirst v d)) y = value_of (heap d) y.
Proof.
  unfold addFirst. destruct d as [hd tl sz eq h]; cbn [head tail heap _size set_head set_tail set_heap set_size].
  destruct hd as [z|]; cbn [head tail heap _size set_head set_tail set_heap set_size].
  - rewrite !list_value_of_set_prev, !list_value_of_set_next, list_value_of_new. split; [done|].
    intros y Hy. by rewrite !list_value_of_set_prev, !list_value_of_set_next, list_value_of_alloc.
  - rewrite list_value_of_new. split; [done|]. intros y Hy. by rewrite list_value_of_alloc.
Qed.

Lemma addLast_values d (v : T) :
  value_of (heap (addLast v d)) (length (heap d)) = Some v ∧
  ∀ y, (y < length (heap d))%nat → value_of (heap (addLast v d)) y = value_of (heap d) y.
Proof.
  unfold addLast. destruct d as [hd tl sz eq h]; cbn [head tail heap _size set_head set_tail set_heap set_size].
  destruct tl as [z|]; cbn [head tail heap _size set_head set_tail set_heap set_size].
  - rewrite !list_value_of_set_next, !list_value_of_set_prev, list_value_of_new. split; [done|].
    intros y Hy. by rewrite !list_value_of_set_next, !list_value_of_set_prev, list_value_of_alloc.
  - rewrite list_value_of_new. split; [done|]. intros y Hy. by rewrite list_value_of_alloc.
Qed.

Lemma wf_bound d ls y : wf d ls → y ∈ ls → (y < length (heap d))%nat.
Proof. intros [(_ & Hd & _) _] Hy. by eapply dseg_bound. Qed.

Lemma holds_length d vs : holds d vs → _size d = Z.of_nat (length vs).
Proof. intros (ls & [_ ->] & Hf). by rewrite (Forall2_length _ _ _ Hf). Qed.

(** [toArray()] returns the values the list holds. *)
Lemma holds_toArray d vs : holds d vs → toArray d = Some vs.
Proof.
  intros (ls & [Hc _] & Hf). unfold toArray. rewrite (walk_chain _ _ _ _ Hc). simpl.
  by apply mapM_Some.
Qed.

Lemma holds_constructor (eq : T → T → bool) : holds (constructor eq) [].
Proof. exists []. split; [apply constructor_wf|constructor]. Qed.

Lemma Forall2_values_frame h h' ls vs :
  Forall2 (λ l v, value_of h l = Some v) ls vs →
  (∀ y, y ∈ ls → value_of h' y = value_of h y) →
  Forall2 (λ l v, value_of h' l = Some v) ls vs.
Proof.
  induction 1 as [|l v ls vs Hl Hf IH]; intros Hsame; constructor.
  - rewrite Hsame; [done|by left].
  - apply IH. intros y Hy. apply Hsame. by right.
Qed.

Lemma holds_addFirst d vs (v : T) : holds d vs → holds (addFirst v d) (v :: vs).
Proof.
  intros (ls & Hwf & Hf). destruct (addFirst_values d v) as [Hnew Hold].
  exists (length (heap d) :: ls). split; [by apply addFirst_wf|]. constructor; [done|].
  apply (Forall2_values_frame (heap d)); [done|]. intros y Hy. apply Hold. by eapply wf_bound.
Qed.

Lemma holds_addLast d vs (v : T) : holds d vs → holds (addLast v d) (vs ++ [v]).
Proof.
  intros (ls & Hwf & Hf). destruct (addLast_values d v) as [Hnew Hold].
  exists (ls ++ [length (heap d)]). split; [by apply addLast_wf|]. apply Forall2_app.
  - apply (Forall2_values_frame (heap d)); [done|]. intros y Hy. apply Hold. by eapply wf_bound.
  - by constructor.
Qed.

Lemma holds_removeFirst d vs :
  holds d vs → (removeFirst d).1 = list.head vs ∧ holds (removeFirst d).2 (list.tail vs).
Proof.
  intros (ls & Hwf & Hf). destruct Hf as [|x v ls vs Hx Hf].
  - pose proof Hwf as [(_ & _ & Hhd & _) Hsz]. unfold removeFirst. simpl in Hhd. rewrite Hhd.
    simpl. split; [done|]. exists []. split; [done|constructor].
  - destruct (removeFirst_chain d x ls Hwf) as (Hr & Hwf' & _ & _ & Hval). simpl.
    split; [by rewrite Hr|]. exists ls. split; [done|].
    apply (Forall2_values_frame (heap d)); [done|]. intros y _. apply Hval.
Qed.

Lemma holds_removeLast d vs :
  holds d vs → (removeLast d).1 = last vs ∧ holds (removeLast d).2 (removelast vs).
Proof.
  intros (ls & Hwf & Hf). destruct vs as [|v vs _] using rev_ind.
  - apply Forall2_nil_inv_r in Hf as ->.
    pose proof Hwf as [(_ & _ & _ & Htl) Hsz]. unfold removeLast. simpl in Htl.
    unfold last_or in Htl. simpl in Htl. rewrite Htl.
    simpl. split; [done|]. exists []. split; [done|constructor].
  - apply Forall2_app_inv_r in Hf as (ls' & lx & Hf & Hx & ->).
    apply Forall2_cons_inv_r in Hx as (x & lx' & Hx & Hnil & ->).
    apply Forall2_nil_inv_r in Hnil as ->.
    destruct (removeLast_chain d ls' x Hwf) as (Hr & Hwf' & _ & _ & Hval).
    rewrite last_snoc, removelast_last. split; [by rewrite Hr|]. exists ls'. split; [done|].
    apply (Forall2_values_frame (heap d)); [done|]. intros y _. apply Hval.
Qed.

Lemma holds_removeAt d vs (index : Z) :
  holds d vs →
  ∃ d', removeAt (JSNumber.of_Z index) d = Some (Ok ((seq_step (RemoveAt index) vs).1, d')) ∧
        holds d' (seq_step (RemoveAt index) vs).2.
Proof.
  intros Hh. pose proof (holds_length _ _ Hh) as Hsz. destruct Hh as (ls & Hwf & Hf).
  cbn [seq_step].
  destruct ((index <? 0) || (Z.of_nat (length vs) <=? index)) eqn:Hout.
  { unfold removeAt. rewrite lt_of_Z, ge_of_Z, Hsz, Hout. exists d. split; [done|]. by exists ls. }
  apply orb_false_iff in Hout as [H0%Z.ltb_ge Hn%Z.leb_gt].
  assert (Z.to_nat index < length ls)%nat as Hi by (rewrite (Forall2_length _ _ _ Hf); lia).
  destruct (lookup_lt_is_Some_2 ls _ Hi) as [x Hx].
  destruct (Forall2_lookup_l _ _ _ _ _ Hf Hx) as (v & Hv & Hxv).
  pose proof (take_drop_middle ls _ x Hx) as Els.
  pose proof (take_drop_middle vs _ v Hv) as Evs.
  rewrite <- Els in Hwf.
  destruct (removeAt_chain d _ x _ Hwf) as (d' & Hr & Hwf' & _ & _ & Hval).
  rewrite length_take_le in Hr by lia. rewrite Z2Nat.id in Hr by done.
  exists d'. rewrite Hr, Hv, Hxv. split; [done|]. exists (take (Z.to_nat index) ls ++ drop (S (Z.to_nat index)) ls).
  split; [done|]. rewrite delete_take_drop.
  apply (Forall2_values_frame (heap d)); [|intros y _; apply Hval].
  apply Forall2_app; [by apply Forall2_take|by apply Forall2_drop].
Qed.

Lemma holds_clear d vs :
  holds d vs →
  ∃ d', clear d = Some d' ∧ holds d' [] ∧ equalityFn d' = equalityFn d ∧
        ∀ ls, wf d ls → ∀ y, y ∈ ls → prev_of (heap d') y = None ∧ next_of (heap d') y = None.
Proof.
  intros (ls & Hwf & Hf). pose proof Hwf as [(Hnd & Hd & Hhd & Htl) Hsz].
  destruct (clear_links_dseg (length (heap d)) (heap d) None ls Hnd Hd) as (h' & Hcl & Hlen & Hclr).
  { by eapply is_chain_length. }
  unfold clear. rewrite Hhd, Hcl. simpl. eexists. split; [done|]. split_and!.
  - exists []. split; [|constructor]. split; [|done]. unfold is_chain. simpl.
    split_and!; try done. apply NoDup_nil_2.
  - done.
  - intros ls' Hwf' y Hy. apply Hclr.
    assert (ls' = ls) as ->; [|done].
    destruct Hwf' as [Hc' _]. destruct Hwf as [Hc _].
    pose proof (walk_chain _ _ _ _ Hc) as E1. pose proof (walk_chain _ _ _ _ Hc') as E2. congruence.
Qed.

(** No call changes the equality function. *)
Lemma removeFirst_equalityFn d : equalityFn (removeFirst d).2 = equalityFn d.
Proof.
  unfold removeFirst. destruct d as [[z|] tl sz eq h]; [|done]. cbn. by destruct (next_of h z).
Qed.

Lemma removeLast_equalityFn d : equalityFn (removeLast d).2 = equalityFn d.
Proof.
  unfold removeLast. destruct d as [hd [z|] sz eq h]; [|done]. cbn. by destruct (prev_of h z).
Qed.

Lemma removeAt_equalityFn (index : JSNumber.number) d r d' :
  removeAt index d = Some (Ok (r, d')) → equalityFn d' = equalityFn d.
Proof.
  unfold removeAt. destruct (JSNumber.lt _ _ || JSNumber.ge _ _); [by intros [= _ <-]|].
  destruct (JSNumber.strict_eq index (JSNumber.of_Z 0)).
  { intros [= E]. rewrite <- (removeFirst_equalityFn d). by rewrite E. }
  destruct (JSNumber.strict_eq index _).
  { intros [= E]. rewrite <- (removeLast_equalityFn d). by rewrite E. }
  destruct (getNodeAt index d) as [[[node|]|m]|]; [|by intros [= _ <-]|done|done].
  intros [= _ <-]. destruct d as [hd tl sz eq h]. cbn.
  destruct (prev_of h node); cbn; by destruct (next_of _ node).
Qed.

(** Every call does to the list what [seq_step] does to the sequence of
    its values, returns what [seq_step] returns, and does not throw. *)
Lemma list_refine_step o d vs :
  holds d vs →
  ∃ d', exec o d = Some (Ok ((seq_step o vs).1, d')) ∧ holds d' (seq_step o vs).2 ∧
        equalityFn d' = equalityFn d.
Proof.
  intros Hh. destruct o as [v|v| | |index|]; cbn [exec seq_step].
  - eexists. split; [done|]. split; [by apply holds_addFirst|]. unfold addFirst.
    destruct d as [[z|] tl sz eq h]; done.
  - eexists. split; [done|]. split; [by apply holds_addLast|]. unfold addLast.
    destruct d as [hd [z|] sz eq h]; done.
  - destruct (holds_removeFirst d vs Hh) as [Hr Hh']. exists (removeFirst d).2.
    rewrite <- Hr. split; [by destruct (removeFirst d)|]. split; [done|].
    unfold removeFirst. destruct d as [[z|] tl sz eq h]; [|done]. cbn.
    by destruct (next_of h z).
  - destruct (holds_removeLast d vs Hh) as [Hr Hh']. exists (removeLast d).2.
    rewrite <- Hr. split; [by destruct (removeLast d)|]. split; [done|].
    unfold removeLast. destruct d as [hd [z|] sz eq h]; [|done]. cbn.
    by destruct (prev_of h z).
  - destruct (holds_removeAt d vs index Hh) as (d' & Hr & Hh'). exists d'. rewrite Hr.
    split; [done|]. split; [done|]. by eapply removeAt_equalityFn.
  - destruct (holds_clear d vs Hh) as (d' & -> & Hh' & He & _). exists d'. done.
Qed.

Lemma list_refine_run (ops : list (op T)) d vs :
  holds d vs →
  ∃ d', run ops d = Some (Ok ((seq_run ops vs).1, d')) ∧ holds d' (seq_run ops vs).2 ∧
        equalityFn d' = equalityFn d.
Proof.
  revert d vs. induction ops as [|o ops IH]; intros d vs Hh; [by exists d|].
  destruct (list_refine_step o d vs Hh) as (d1 & Hex & Hh1 & He1).
  simpl. rewrite Hex. destruct (seq_step o vs) as [r vs1]. simpl in *.
  destruct (IH d1 vs1 Hh1) as (d2 & Hrun & Hh2 & He2). rewrite Hrun.
  destruct (seq_run ops vs1) as [rs vs2]. simpl in *. exists d2. split; [done|].
  split; [done|]. congruence.
Qed.

(** A list in use holds the values that [seq_run] computes. *)
Lemma list_reach (eq : T → T → bool) (ops : list (op T)) rs d :
  run ops (constructor eq) = Some (Ok (rs, d)) →
  holds d (seq_run ops []).2 ∧ rs = (seq_run ops []).1 ∧ equalityFn d = eq.
Proof.
  intros Hrun. destruct (list_refine_run ops _ _ (holds_constructor eq)) as (d' & Hrun' & Hh & He).
  rewrite Hrun in Hrun'. by simplify_eq.
Qed.

(** The nodes of the chain, with the values they hold; every traversal
    of the list is a [scan] of them. *)
Lemma holds_nodes d vs :
  holds d vs →
  ∃ nodes, vs = value <$> nodes ∧
           ∀ (A R : Type) (body : DoublyLinkedListNode T → Z → A → A + R) index acc,
             traverse (length (heap d)) (heap d) body (head d) index acc =
               Some (scan body nodes index acc).
Proof.
  intros (ls & [Hc _] & Hf).
  assert (∃ nodes, Forall2 (λ l node, heap d !! l = Some node) ls nodes ∧ vs = value <$> nodes)
    as (nodes & Hn & ->).
  { clear Hc. induction Hf as [|l v ls vs Hl Hf IH]; [by exists []|].
    destruct IH as (nodes & Hn & ->). unfold value_of in Hl.
    destruct (heap d !! l) as [node|] eqn:E; simpl in Hl; [|done]. injection Hl as <-.
    exists (node :: nodes). split; [by constructor|done]. }
  exists nodes. split; [done|]. intros A R body index acc. by eapply traverse_chain.
Qed.

Lemma holds_contains d vs (element : T) :
  holds d vs → contains element d = Some (existsb (λ v, equalityFn d v element) vs).
Proof.
  intros Hh. destruct (holds_nodes d vs Hh) as (nodes & -> & Htr).
  unfold contains. rewrite Htr. simpl. f_equal. clear Hh Htr. generalize 0.
  induction nodes as [|node nodes IH]; intros index; [done|].
  simpl. destruct (equalityFn d (value node) element); [done|]. apply IH.
Qed.


(** With a callback that hands the list back as it got it, [forEach]
    ends within the bound, having applied the callback to the values in
    their order. *)
Lemma holds_forEach {W : Type} d vs (fuel : nat)
    (callback : T → Z → W → DoublyLinkedList T → option (outcome (W * DoublyLinkedList T)))
    (g : T → Z → W → W) (w : W) :
  holds d vs → (∀ v i w, callback v i w d = Some (Ok (g v i w, d))) →
  (length vs ≤ fuel)%nat →
  forEach fuel callback d w =
    Some (Ok (fold_left (λ w '(i, v), g v (Z.of_nat i) w) (imap pair vs) w, d)).
Proof.
  intros (ls & [(_ & Hd & Hhd & _) _] & Hf) Hcb Hfuel. unfold forEach. rewrite Hhd.
  assert (∀ (j : nat) p,
            dseg (heap d) p ls None →
            forEach_from fuel callback (first_or ls None) (Z.of_nat j) w d =
              Some (Ok (fold_left (λ w '(i, v), g v (Z.of_nat i) w)
                                  (imap (λ i v, ((j + i)%nat, v)) vs) w, d))) as Hgen;
    [|by apply (Hgen 0%nat None)].
  clear Hd Hhd. revert fuel w Hfuel.
  induction Hf as [|x v ls vs Hx Hf IH]; intros fuel w Hfuel j p Hd.
  - by destruct fuel.
  - destruct fuel as [|fuel]; [simpl in Hfuel; lia|]. cbn [first_or forEach_from].
    unfold value_of in Hx. destruct (heap d !! x) as [node|]; simpl in Hx; [|done].
    injection Hx as <-. rewrite Hcb. destruct Hd as (_ & _ & Hnx & Hd). rewrite Hnx.
    replace (Z.of_nat j + 1) with (Z.of_nat (S j)) by lia.
    rewrite (IH fuel _ ltac:(simpl in Hfuel; lia) (S j) (Some x) Hd).
    simpl. rewrite Nat.add_0_r.
    assert (imap (λ i (v : T), (S (j + i), v)) vs =
            imap ((λ i (v : T), ((j + i)%nat, v)) ∘ S) vs) as ->; [|done].
    apply imap_ext. intros i y _. simpl. f_equal. lia.
Qed.

Lemma fold_left_snoc {X Y : Type} (g : nat → X → Y) (l : list (nat * X)) (acc : list Y) :
  fold_left (λ acc '(i, e), acc ++ [g i e]) l acc = acc ++ ((λ '(i, e), g i e) <$> l).
Proof.
  revert acc. induction l as [|[i e] l IH]; intros acc; simpl; [by rewrite app_nil_r|].
  rewrite IH. by rewrite <- app_assoc.
Qed.

Lemma fold_left_snoc_if {X Y : Type} (t : nat → X → bool) (g : X → Y)
    (l : list (nat * X)) (acc : list Y) :
  fold_left (λ acc '(i, e), if t i e then acc ++ [g e] else acc) l acc =
    acc ++ ((λ ie, g ie.2) <$> base.filter (λ ie, t ie.1 ie.2 = true) l).
Proof.
  revert acc. induction l as [|[i e] l IH]; intros acc; simpl; [by rewrite app_nil_r|].
  rewrite IH. destruct (t i e) eqn:E.
  - rewrite filter_cons_True by done. rewrite fmap_cons. by rewrite <- app_assoc.
  - rewrite filter_cons_False by (simpl; by rewrite E). done.
Qed.

End ListRefinement.

(** ** What the list's methods return *)

Section ListCalls.
  Import DoublyLinkedList.
  Context {T : Type}.
  Implicit Types (d : DoublyLinkedList T) (ls : list loc) (vs : list T) (ops : list (op T)).

(** X14.  The list is a sequence.  Whatever calls of [addFirst],
    [addLast], [removeFirst], [removeLast], [clear] and of [removeAt] at
    an integer index, within the bounds or not, are made on a new list,
    none throws or loops, each returns what it returns on the sequence of
    the values (the first, the last or the indexed value taken out,
    [undefined] when there is none), [toArray()] is then that sequence,
    [size] its length, and the nodes form a chain linked both ways.
    ([removeAt] at a number that is no integer is not covered.) *)
Theorem X14_the_list_is_a_sequence (eq : T → T → bool) ops :
  ∃ rs d, run ops (constructor eq) = Some (Ok (rs, d)) ∧
          rs = (seq_run ops []).1 ∧ toArray d = Some (seq_run ops []).2 ∧
          size d = Z.of_nat (length (seq_run ops []).2) ∧
          (isEmpty d = true ↔ (seq_run ops []).2 = []) ∧
          ∃ ls, wf d ls.
Proof.
  destruct (list_refine_run ops _ _ (holds_constructor eq)) as (d & Hrun & Hh & _).
  exists (seq_run ops []).1, d. split; [done|]. split; [done|].
  pose proof (holds_length _ _ Hh) as Hsz. split_and!.
  - by apply holds_toArray.
  - done.
  - unfold isEmpty. rewrite Hsz, Z.eqb_eq. destruct (seq_run ops []).2; simpl; split; try done; lia.
  - destruct Hh as (ls & Hwf & _). by exists ls.
Qed.


(** X16.  On a list in use, [contains(element)] returns, and says whether
    the equality function the list was constructed with holds between
    some value of [toArray()] and [element], the value first. *)
Theorem X16_contains_tests_every_value (eq : T → T → bool) ops rs d (element : T) :
  run ops (constructor eq) = Some (Ok (rs, d)) →
  ∃ vs, toArray d = Some vs ∧
        contains element d = Some (existsb (λ v, eq v element) vs).
Proof.
  intros Hrun. destruct (list_reach eq ops rs d Hrun) as (Hh & _ & He).
  set (vs := (seq_run ops []).2) in *. clearbody vs. exists vs.
  split; [by apply holds_toArray|].
  by rewrite (holds_contains d vs element Hh), He.
Qed.

(** X17.  On a list in use, [map(callback)] returns the array of the
    results of [callback(value, index)] in the order of [toArray()],
    [filter(predicate)] the values that [predicate(value, index)] accepts,
    in that order, and [forEach(callback)], with a callback that leaves
    the list as it is (it can read it), returns, having called
    [callback(value, index)] once for each value, in that order, the list
    then being as it was; the indices are 0, 1, 2, ...  A callback of
    [forEach] that changes the list it is called from is not covered: the
    loop follows the links as the callback leaves them. *)
Theorem X17_map_filter_and_forEach_follow_the_sequence {U W : Type}
    (eq : T → T → bool) ops rs d
    (f : T → Z → U) (p : T → Z → bool) (g : T → Z → W → W) (w : W) :
  run ops (constructor eq) = Some (Ok (rs, d)) →
  ∃ vs, toArray d = Some vs ∧
        map f d = Some (imap (λ i v, f v (Z.of_nat i)) vs) ∧
        filter p d =
          Some (base.filter (λ iv, p iv.2 (Z.of_nat iv.1) = true) (imap pair vs)).*2 ∧
        ∀ (fuel : nat)
          (callback : T → Z → W → DoublyLinkedList T → option (outcome (W * DoublyLinkedList T))),
          (∀ v i w, callback v i w d = Some (Ok (g v i w, d))) →
          (length vs ≤ fuel)%nat →
          forEach fuel callback d w =
            Some (Ok (fold_left (λ w '(i, v), g v (Z.of_nat i) w) (imap pair vs) w, d)).
Proof.
  intros Hrun. destruct (list_reach eq ops rs d Hrun) as (Hh & _ & He).
  set (vs := (seq_run ops []).2) in *. clearbody vs. exists vs.
  split; [by apply holds_toArray|].
  destruct (holds_nodes d vs Hh) as (nodes & -> & Htr).
  assert (imap pair (value <$> nodes) =
          (λ '(i, node), (i, value node)) <$> imap pair nodes) as Epairs.
  { rewrite fmap_imap, imap_fmap. by apply imap_ext. }
  split_and!.
  - unfold map. rewrite Htr. simpl.
    rewrite (scan_fold (λ node i result, result ++ [f (value node) i])). f_equal.
    etrans; [apply (fold_left_snoc (λ i node, f (value node) (Z.of_nat i)))|].
    simpl. rewrite fmap_imap, imap_fmap. by apply imap_ext.
  - unfold filter. rewrite Htr. simpl.
    rewrite (scan_fold (λ node i result, if p (value node) i then result ++ [value node] else result)).
    f_equal.
    etrans; [apply (fold_left_snoc_if (λ i node, p (value node) (Z.of_nat i)) value)|].
    simpl. rewrite Epairs. generalize (imap pair nodes). clear.
    intros l. induction l as [|[i node] l IH]; [done|]. rewrite fmap_cons.
    destruct (p (value node) (Z.of_nat i)) eqn:E.
    + rewrite !filter_cons_True by done. rewrite !fmap_cons. by rewrite IH.
    + rewrite !filter_cons_False by (simpl; by rewrite E). done.
  - intros fuel callback Hcb Hfuel. by apply holds_forEach.
Qed.

(** X18.  On a list in use, [some(predicate)] is true exactly when
    [predicate(value, index)] holds at some position of [toArray()], and
    [every(predicate)] exactly when it holds at every position; so on an
    empty list [some] is false and [every] true, and [every(p)] is the
    negation of [some(not p)]. *)
Theorem X18_some_and_every_quantify_over_the_sequence (eq : T → T → bool) ops rs d
    (p : T → Z → bool) :
  run ops (constructor eq) = Some (Ok (rs, d)) →
  ∃ vs bs be, toArray d = Some vs ∧ some p d = Some bs ∧ every p d = Some be ∧
    (bs = true ↔ ∃ (i : nat) v, vs !! i = Some v ∧ p v (Z.of_nat i) = true) ∧
    (be = true ↔ ∀ (i : nat) v, vs !! i = Some v → p v (Z.of_nat i) = true) ∧
    (vs = [] → bs = false ∧ be = true) ∧
    some (λ v i, negb (p v i)) d = Some (negb be).
Proof.
  intros Hrun. destruct (list_reach eq ops rs d Hrun) as (Hh & _ & He).
  set (vs := (seq_run ops []).2) in *. clearbody vs.
  destruct (holds_nodes d vs Hh) as (nodes & Evs & Htr).
  assert (∀ q : T → Z → bool,
            some q d = Some (existsb (λ '(i, v), q v (Z.of_nat i)) (imap pair vs))) as Hsome.
  { intros q. unfold some. rewrite Htr. simpl. f_equal.
    rewrite (scan_find (λ node i, q (value node) i) true). rewrite Evs.
    assert (existsb (λ '(i, node), q (value node) (Z.of_nat i)) (imap pair nodes) =
            existsb (λ '(i, v), q v (Z.of_nat i)) (imap pair (value <$> nodes))) as ->.
    { rewrite imap_fmap.
      assert (∀ (j : nat) (l : list (DoublyLinkedListNode T)),
                existsb (λ '(i, node), q (value node) (Z.of_nat i)) (imap (λ i n, ((j + i)%nat, n)) l) =
                existsb (λ '(i, v), q v (Z.of_nat i)) (imap (λ i n, ((j + i)%nat, value n)) l)) as Hgen.
      { intros j l. revert j. induction l as [|n l IH]; intros j; [done|]. simpl. f_equal.
        rewrite (imap_ext _ (λ i n, ((S j + i)%nat, n)) l) by (intros; simpl; f_equal; lia).
        rewrite IH. f_equal. apply imap_ext. intros. simpl. f_equal. lia. }
      apply (Hgen 0%nat). }
    by destruct (existsb _ _). }
  assert (every p d = Some (negb (existsb (λ '(i, v), negb (p v (Z.of_nat i))) (imap pair vs))))
    as Hevery.
  { unfold every. rewrite Htr. simpl. f_equal.
    rewrite (scan_find (λ node i, negb (p (value node) i)) false).
    pose proof (Hsome (λ v i, negb (p v i))) as Hs. unfold some in Hs. rewrite Htr in Hs.
    simpl in Hs. rewrite (scan_find (λ node i, negb (p (value node) i)) true) in Hs.
    destruct (existsb (λ '(i, node), negb (p (value node) (Z.of_nat i))) (imap pair nodes));
      simpl in *; injection Hs as <-; done. }
  exists vs, (existsb (λ '(i, v), p v (Z.of_nat i)) (imap pair vs)),
    (negb (existsb (λ '(i, v), negb (p v (Z.of_nat i))) (imap pair vs))).
  split; [by apply holds_toArray|]. split; [apply Hsome|]. split; [apply Hevery|]. split_and!.
  - apply (existsb_imap p).
  - rewrite negb_true_iff, <- not_true_iff_false, (existsb_imap (λ v i, negb (p v i))). split.
    + intros Hno i v Hv. destruct (p v (Z.of_nat i)) eqn:E; [done|]. destruct Hno.
      exists i, v. by rewrite E.
    + intros Hall (i & v & Hv & Hn). rewrite (Hall i v Hv) in Hn. done.
  - by intros ->.
  - rewrite (Hsome (λ v i, negb (p v i))). by rewrite negb_involutive.
Qed.

(** X19.  On a list in use, [clear()] returns (its loop ends) and leaves
    every node that was in the chain with both links [null]; the list is
    then empty and cannot be told from a new one: any further calls
    return what they return on a new list and leave the same values. *)
Theorem X19_clear_unlinks_every_node (eq : T → T → bool) ops rs d ops' :
  run ops (constructor eq) = Some (Ok (rs, d)) →
  ∃ ls d', wf d ls ∧ clear d = Some d' ∧
           (∀ y, y ∈ ls → prev_of (heap d') y = None ∧ next_of (heap d') y = None) ∧
           toArray d' = Some [] ∧ size d' = 0 ∧ head d' = None ∧ tail d' = None ∧
           ∃ rs' da db, run ops' d' = Some (Ok (rs', da)) ∧
                        run ops' (constructor eq) = Some (Ok (rs', db)) ∧
                        toArray da = toArray db ∧ size da = size db.
Proof.
  intros Hrun. destruct (list_reach eq ops rs d Hrun) as (Hh & _ & He).
  set (vs := (seq_run ops []).2) in *. clearbody vs.
  destruct (holds_clear d vs Hh) as (d' & Hcl & Hh' & He' & Hun).
  destruct Hh as (ls & Hwf & Hf). exists ls, d'. split; [done|]. split; [done|].
  split; [by apply Hun|]. split; [by apply holds_toArray|].
  split; [unfold size; by rewrite (holds_length _ _ Hh')|].
  assert (head d' = None ∧ tail d' = None) as [? ?].
  { unfold clear in Hcl. destruct (clear_links _ _ _); simpl in Hcl; [|done]. by injection Hcl as <-. }
  split; [done|]. split; [done|].
  destruct (list_refine_run ops' d' [] Hh') as (da & Hra & Hha & _).
  destruct (list_refine_run ops' _ [] (holds_constructor eq)) as (db & Hrb & Hhb & _).
  eexists _, da, db. split; [exact Hra|]. split; [exact Hrb|].
  rewrite (holds_toArray _ _ Hha), (holds_toArray _ _ Hhb).
  unfold size. by rewrite (holds_length _ _ Hha), (holds_length _ _ Hhb).
Qed.

(** X20.  On a list in use, a [removeFirst()] right after [addFirst(v)]
    returns [v] and leaves the values as they were, and so does
    [removeLast()] after [addLast(v)]; from the other end, [removeFirst()]
    after [addLast(v)] returns the first of the values with [v] appended,
    and [removeLast()] after [addFirst(v)] the last of them with [v] in
    front. *)
Theorem X20_add_then_remove_at_either_end (eq : T → T → bool) ops rs d (v : T) :
  run ops (constructor eq) = Some (Ok (rs, d)) →
  ∃ vs, toArray d = Some vs ∧
        (removeFirst (addFirst v d)).1 = Some v ∧
        toArray (removeFirst (addFirst v d)).2 = Some vs ∧
        (removeLast (addLast v d)).1 = Some v ∧
        toArray (removeLast (addLast v d)).2 = Some vs ∧
        (removeFirst (addLast v d)).1 = list.head (vs ++ [v]) ∧
        (removeLast (addFirst v d)).1 = last (v :: vs).
Proof.
  intros Hrun. destruct (list_reach eq ops rs d Hrun) as (Hh & _ & _).
  set (vs := (seq_run ops []).2) in *. clearbody vs. exists vs.
  pose proof (holds_addFirst d vs v Hh) as Hf. pose proof (holds_addLast d vs v Hh) as Hl.
  destruct (holds_removeFirst _ _ Hf) as [Hff Hff']. destruct (holds_removeLast _ _ Hl) as [Hll Hll'].
  destruct (holds_removeFirst _ _ Hl) as [Hlf _]. destruct (holds_removeLast _ _ Hf) as [Hfl _].
  rewrite removelast_last in Hll'. rewrite last_snoc in Hll. simpl in Hff, Hff'.
  split_and!; try done; by apply holds_toArray.
Qed.

End ListCalls.

(** ** Lists of numbers under the default equality *)

Section NumberLists.
  Import DoublyLinkedList.

Lemma strict_eq_refl (x : JSNumber.number) : x ≠ JSNumber.NaN → JSNumber.strict_eq x x = true.
Proof. destruct x as [| | |q]; try done. intros _. simpl. by apply Qeq_bool_iff. Qed.

Lemma strict_eq_NaN (x : JSNumber.number) : JSNumber.strict_eq x JSNumber.NaN = false.
Proof. by destruct x. Qed.

(** X21.  A list of numbers constructed with the default equality never
    finds [NaN]: [contains(NaN)] is false on every such list, also right
    after [addLast(NaN)], because [NaN === NaN] is false.  Any other
    number is found right after it was added. *)
Theorem X21_default_equality_never_finds_NaN ops rs (d : DoublyLinkedList JSNumber.number)
    (x : JSNumber.number) :
  run ops (constructor Types.defaultEquality) = Some (Ok (rs, d)) →
  contains JSNumber.NaN d = Some false ∧
  contains JSNumber.NaN (addLast JSNumber.NaN d) = Some false ∧
  (x ≠ JSNumber.NaN → contains x (addLast x d) = Some true).
Proof.
  intros Hrun. destruct (list_reach _ ops rs d Hrun) as (Hh & _ & He).
  set (vs := (seq_run ops []).2) in *. clearbody vs.
  assert (∀ y, equalityFn (addLast y d) = Types.defaultEquality) as He'.
  { intros y. rewrite <- He. unfold addLast. by destruct d as [hd [z|] sz eq h]. }
  assert (∀ l : list JSNumber.number,
            existsb (λ v, Types.defaultEquality v JSNumber.NaN) l = false) as Hnan.
  { intros l. induction l as [|v l IH]; [done|]. simpl. rewrite IH.
    unfold Types.defaultEquality, strict_eq, number_strict_eq. by rewrite strict_eq_NaN. }
  split_and!.
  - by rewrite (holds_contains d vs _ Hh), He, Hnan.
  - by rewrite (holds_contains _ _ _ (holds_addLast d vs _ Hh)), He', Hnan.
  - intros Hx. rewrite (holds_contains _ _ _ (holds_addLast d vs x Hh)), He'.
    rewrite existsb_app. simpl. unfold Types.defaultEquality at 2.
    unfold strict_eq, number_strict_eq. rewrite strict_eq_refl by done.
    by rewrite orb_true_r.
Qed.

End NumberLists.

(** ** The default functions *)

Section DefaultFunctions.
  Import Types.
  #[local] Arguments Z.pow : simpl never.
  #[local] Arguments Z.mul : simpl never.

(** [ToInt32] picks, among the integers that differ from [z] by a
    multiple of [2 ^ 32], the one in the range of the 32-bit integers. *)
Lemma ToInt32_spec (z : Z) :
  -2 ^ 31 ≤ ToInt32 z < 2 ^ 31 ∧ ∃ k, ToInt32 z = z + 2 ^ 32 * k.
Proof.
  unfold ToInt32. cbv zeta.
  pose proof (Z.mod_pos_bound z (2 ^ 32) eq_refl) as Hb.
  pose proof (Z.div_mod z (2 ^ 32) ltac:(done)) as Hd.
  destruct (Z.leb_spec (2 ^ 31) (z mod 2 ^ 32)).
  - split; [lia|]. exists (- (z `div` 2 ^ 32) - 1). lia.
  - split; [lia|]. exists (- (z `div` 2 ^ 32)). lia.
Qed.

Lemma ToInt32_congr (a b k : Z) : a = b + 2 ^ 32 * k → ToInt32 a = ToInt32 b.
Proof.
  intros Hab. destruct (ToInt32_spec a) as [Ha [ka Ea]]. destruct (ToInt32_spec b) as [Hb [kb Eb]].
  lia.
Qed.

Lemma ToInt32_id (z : Z) : -2 ^ 31 ≤ z < 2 ^ 31 → ToInt32 z = z.
Proof. intros Hz. destruct (ToInt32_spec z) as [H [k E]]. lia. Qed.

(** One round of the loop multiplies by 31 and adds the code unit, in
    32-bit arithmetic. *)
Lemma hash_round (hash c : Z) : bor (shl hash 5 - hash + c) 0 = ToInt32 (31 * hash + c).
Proof.
  unfold bor, shl. change (5 mod 32) with 5. change (ToInt32 0) with 0.
  rewrite Z.lor_0_r, Z.shiftl_mul_pow2 by done.
  destruct (ToInt32_spec hash) as [_ [k0 E0]].
  destruct (ToInt32_spec (ToInt32 hash * 2 ^ 5)) as [_ [k1 E1]].
  destruct (ToInt32_spec (ToInt32 (ToInt32 hash * 2 ^ 5) - hash + c)) as [H2 [k2 E2]].
  rewrite ToInt32_id by done.
  apply (ToInt32_congr _ _ (32 * k0 + k1)). rewrite E1, E0. lia.
Qed.

Lemma hash_units_range (hash : Z) (units : list Z) :
  -2 ^ 31 ≤ hash < 2 ^ 31 → -2 ^ 31 ≤ hash_units hash units < 2 ^ 31.
Proof.
  revert hash. induction units as [|c units IH]; intros hash Hh; [done|].
  cbn [hash_units]. cbv zeta. rewrite hash_round. apply IH. apply ToInt32_spec.
Qed.

Lemma polynomial_congr (a b k : Z) (units : list Z) :
  a = b + 2 ^ 32 * k → ∃ k', polynomial a units = polynomial b units + 2 ^ 32 * k'.
Proof.
  revert a b k. induction units as [|c units IH]; intros a b k Hab; [by exists k|].
  unfold polynomial. simpl. apply (IH _ _ (31 * k)). lia.
Qed.

Lemma hash_units_polynomial (hash : Z) (units : list Z) :
  ToInt32 (hash_units hash units) = ToInt32 (polynomial hash units).
Proof.
  revert hash. induction units as [|c units IH]; intros hash; [done|].
  cbn [hash_units]. cbv zeta. rewrite hash_round, IH.
  destruct (ToInt32_spec (31 * hash + c)) as [_ [k E]].
  destruct (polynomial_congr _ _ k units E) as [k' E'].
  unfold polynomial in *. simpl. by apply (ToInt32_congr _ _ k').
Qed.

Lemma hash_units_app (hash : Z) (units units' : list Z) :
  hash_units hash (units ++ units') = hash_units (hash_units hash units) units'.
Proof.
  revert hash. induction units as [|c units IH]; intros hash; [done|].
  cbn [hash_units app]. cbv zeta. apply IH.
Qed.

Lemma polynomial_from (acc : Z) (units : list Z) :
  polynomial acc units = acc * 31 ^ Z.of_nat (length units) + polynomial 0 units.
Proof.
  revert acc. induction units as [|c units IH]; intros acc.
  - unfold polynomial. simpl. change (31 ^ 0) with 1. lia.
  - unfold polynomial in *. simpl fold_left. rewrite (IH (31 * acc + c)), (IH (31 * 0 + c)).
    simpl length. rewrite Nat2Z.inj_succ, Z.pow_succ_r by lia. lia.
Qed.

(** X22.  The hash that [defaultHash] gives a string is the polynomial
    [c0 * 31^(n-1) + ... + c(n-1)] of its code units, brought into the
    range of the 32-bit integers: the shift, the subtraction and [| 0]
    of each round amount to "times 31, plus the code unit" modulo
    [2 ^ 32].  The empty string hashes to 0, and the hash of a
    concatenation is computed from the hash of its first part. *)
Theorem X22_defaultHash_is_the_polynomial_hash (units units' : list Z) :
  defaultHash (String units) = JSNumber.of_Z (ToInt32 (polynomial 0 units)) ∧
  -2 ^ 31 ≤ hash_units 0 units < 2 ^ 31 ∧
  defaultHash (String []) = JSNumber.of_Z 0 ∧
  hash_units 0 (units ++ units') =
    ToInt32 (hash_units 0 units * 31 ^ Z.of_nat (length units') + polynomial 0 units').
Proof.
  assert (∀ u, -2 ^ 31 ≤ hash_units 0 u < 2 ^ 31) as Hr.
  { intros u. apply hash_units_range. done. }
  split; [|split; [|split]].
  - unfold defaultHash. f_equal. rewrite <- hash_units_polynomial. symmetry. by apply ToInt32_id.
  - apply Hr.
  - done.
  - rewrite <- polynomial_from, <- hash_units_polynomial, <- hash_units_app. symmetry.
    by apply ToInt32_id.
Qed.

Lemma Qle_bool_false (x y : Q) : Qle_bool x y = false ↔ (y < x)%Q.
Proof.
  rewrite <- not_true_iff_false, Qle_bool_iff. split; [apply Qnot_le_lt|apply Qlt_not_le].
Qed.

(** X23.  On numbers, [defaultComparator(a, b)] is -1 exactly when
    [a < b] and 1 exactly when [a > b], and it is the opposite of
    [defaultComparator(b, a)].  It is 0 exactly when [a === b] or one of
    the two is [NaN]: [NaN] compares as equal to every number.  Among the
    numbers other than [NaN] it orders as [<=] does, transitively. *)
Theorem X23_defaultComparator_on_numbers (a b c : JSNumber.number) :
  (defaultComparator a b = -1 ↔ JSNumber.lt a b = true) ∧
  (defaultComparator a b = 1 ↔ JSNumber.gt a b = true) ∧
  defaultComparator a b = - defaultComparator b a ∧
  (defaultComparator a b = 0 ↔
     a = JSNumber.NaN ∨ b = JSNumber.NaN ∨ JSNumber.strict_eq a b = true) ∧
  (a ≠ JSNumber.NaN → b ≠ JSNumber.NaN →
   (defaultComparator a b ≤ 0 ↔ JSNumber.le a b = true)) ∧
  (a ≠ JSNumber.NaN → b ≠ JSNumber.NaN → c ≠ JSNumber.NaN →
   defaultComparator a b ≤ 0 → defaultComparator b c ≤ 0 → defaultComparator a c ≤ 0).
Proof.
  assert (∀ x y : JSNumber.number,
            x ≠ JSNumber.NaN → y ≠ JSNumber.NaN →
            (defaultComparator x y ≤ 0 ↔ JSNumber.le x y = true)) as Hle.
  { intros x y Hx Hy. unfold defaultComparator. simpl.
    destruct x as [| | |p], y as [| | |q]; simpl; try done.
    destruct (Qle_bool q p) eqn:E1, (Qle_bool p q) eqn:E2; simpl; try done.
    apply Qle_bool_false in E1, E2. exfalso. apply (Qlt_irrefl p). eapply Qlt_trans; eassumption. }
  split_and!.
  - unfold defaultComparator. simpl. destruct (JSNumber.lt a b); [done|].
    by destruct (JSNumber.gt a b).
  - unfold defaultComparator. simpl. destruct (JSNumber.lt a b) eqn:E1; [|by destruct (JSNumber.gt a b)].
    split; [done|]. intros E2. exfalso.
    destruct a as [| | |p], b as [| | |q]; simpl in *; try done.
    apply negb_true_iff, Qle_bool_false in E1, E2. apply (Qlt_irrefl p). eapply Qlt_trans; eassumption.
  - unfold defaultComparator. simpl.
    destruct a as [| | |p], b as [| | |q]; simpl; try done.
    destruct (Qle_bool q p) eqn:E1, (Qle_bool p q) eqn:E2; simpl; try done.
    apply Qle_bool_false in E1, E2. exfalso. apply (Qlt_irrefl p). eapply Qlt_trans; eassumption.
  - unfold defaultComparator. simpl.
    destruct a as [| | |p], b as [| | |q]; simpl; try (by split; [auto|intros [?|[?|?]]]);
      try (by split; [|intros [?|[?|?]]]).
    destruct (Qle_bool q p) eqn:E1, (Qle_bool p q) eqn:E2; simpl.
    + split; [|done]. intros _. right. right. apply Qeq_bool_iff.
      apply Qle_bool_iff in E1, E2. by apply Qle_antisym.
    + split; [done|]. intros [?|[?|E]]; try done. apply Qeq_bool_iff in E.
      apply Qle_bool_false in E2. rewrite E in E2. by apply Qlt_irrefl in E2.
    + split; [done|]. intros [?|[?|E]]; try done. apply Qeq_bool_iff in E.
      apply Qle_bool_false in E1. rewrite E in E1. by apply Qlt_irrefl in E1.
    + split; [done|]. intros [?|[?|E]]; try done. apply Qeq_bool_iff in E.
      apply Qle_bool_false in E1. rewrite E in E1. by apply Qlt_irrefl in E1.
  - apply Hle.
  - intros Ha Hb Hc. rewrite !Hle by done.
    destruct a as [| | |p], b as [| | |q], c as [| | |r]; simpl; try done.
    rewrite !Qle_bool_iff. apply Qle_trans.
Qed.

Lemma string_lt_irrefl (a : list Z) : string_lt a a = false.
Proof. induction a as [|x a IH]; [done|]. simpl. by rewrite Z.ltb_irrefl. Qed.

Lemma string_lt_asym (a b : list Z) : string_lt a b = true → string_lt b a = false.
Proof.
  revert b. induction a as [|x a IH]; intros [|y b]; simpl; try done.
  destruct (Z.ltb_spec x y), (Z.ltb_spec y x); try done; try lia. apply IH.
Qed.

Lemma string_lt_total (a b : list Z) : string_lt a b = false → string_lt b a = false → a = b.
Proof.
  revert b. induction a as [|x a IH]; intros [|y b]; simpl; try done.
  destruct (Z.ltb_spec x y), (Z.ltb_spec y x); try done.
  intros Hab Hba. assert (x = y) as -> by lia. f_equal. by apply IH.
Qed.

Lemma string_lt_trans (a b c : list Z) :
  string_lt a b = true → string_lt b c = true → string_lt a c = true.
Proof.
  revert b c. induction a as [|x a IH]; intros [|y b] [|z c]; simpl; try done.
  destruct (Z.ltb_spec x y), (Z.ltb_spec y x), (Z.ltb_spec y z), (Z.ltb_spec z y),
    (Z.ltb_spec x z), (Z.ltb_spec z x); try done; try lia. apply IH.
Qed.

(** X24.  On strings, [defaultComparator] is a total order: it is 0
    exactly on equal strings, the opposite of the comparison the other
    way round, and transitive. *)
Theorem X24_defaultComparator_on_strings (a b c : list Z) :
  (defaultComparator a b = 0 ↔ a = b) ∧
  defaultComparator a b = - defaultComparator b a ∧
  (defaultComparator a b = -1 → defaultComparator b c = -1 → defaultComparator a c = -1) ∧
  (defaultComparator a b ≤ 0 → defaultComparator b c ≤ 0 → defaultComparator a c ≤ 0).
Proof.
  assert (∀ x y : list Z, defaultComparator x y = -1 ↔ string_lt x y = true) as Hlt.
  { intros x y. unfold defaultComparator. simpl. destruct (string_lt x y); [done|].
    by destruct (string_lt y x). }
  assert (∀ x y : list Z, defaultComparator x y ≤ 0 ↔ string_lt y x = false) as Hle.
  { intros x y. unfold defaultComparator. simpl. destruct (string_lt x y) eqn:E.
    - by rewrite (string_lt_asym _ _ E).
    - by destruct (string_lt y x). }
  split_and!.
  - unfold defaultComparator. simpl. split.
    + destruct (string_lt a b) eqn:E1; [done|]. destruct (string_lt b a) eqn:E2; [done|].
      intros _. by apply string_lt_total.
    + intros ->. by rewrite string_lt_irrefl.
  - unfold defaultComparator. simpl. destruct (string_lt a b) eqn:E1.
    + by rewrite (string_lt_asym _ _ E1).
    + by destruct (string_lt b a).
  - rewrite !Hlt. apply string_lt_trans.
  - rewrite !Hle. intros Hba Hcb. destruct (string_lt c a) eqn:Hca; [|done].
    destruct (string_lt a b) eqn:Hab.
    + by rewrite (string_lt_trans _ _ _ Hca Hab) in Hcb.
    + assert (a = b) as -> by (by apply string_lt_total). congruence.
Qed.

End DefaultFunctions.

(** ** The two access counters, one by one *)

Section AccessCounters.
  Import LRUCache.
  Context {K : Type} `{Countable K} {V : Type}.
  #[local] Arguments JSNumber.gt : simpl never.
  Implicit Types (s : LRUCache K V) (a : view K V) (o : op K V) (ops : list (op K V)).

Lemma view_run_hits_and_misses ops a :
  let a' := (view_run ops a).2 in
  let rs := (view_run ops a).1 in
  v_hits a' = (if existsb is_reset ops then 0 else v_hits a) + gets_that true ops rs ∧
  v_misses a' = (if existsb is_reset ops then 0 else v_misses a) + gets_that false ops rs.
Proof.
  revert a. induction ops as [|o ops IH]; intros a; [cbn; lia|].
  cbn zeta. simpl view_run.
  assert (v_hits (view_step o a).2 =
            (if is_reset o then 0 else v_hits a) +
            match o, (view_step o a).1 with Get _, RValue (Some _) => 1 | _, _ => 0 end ∧
          v_misses (view_step o a).2 =
            (if is_reset o then 0 else v_misses a) +
            match o, (view_step o a).1 with Get _, RValue None => 1 | _, _ => 0 end) as [E1 E2].
  { destruct o as [k|k v|k|k|k| | | |]; cbn; try (split; lia);
      destruct (assoc k (v_entries a)); cbn; try (split; lia).
    destruct (JSNumber.gt _ _); cbn; split; lia. }
  destruct (view_step o a) as [r a1]. simpl in E1, E2.
  pose proof (IH a1) as [E3 E4]. cbn zeta in E3, E4.
  destruct (view_run ops a1) as [rs a2]. simpl in E3, E4 |- *.
  rewrite E3, E4. destruct (existsb is_reset ops); [rewrite orb_true_r; lia|].
  rewrite orb_false_r, E1, E2.
  destruct o as [k|k v|k|k|k| | | |]; cbn; try lia; destruct r as [[v'|]| | | |]; lia.
Qed.

(** X25.  On a cache in use, [hits] is the number of [get] calls that
    returned a value and [misses] the number of [get] calls that returned
    [undefined], both counted since the last [clear] or [resetStats] (or
    since the construction). *)
Theorem X25_hits_and_misses_count_the_outcomes_of_get (cap : JSNumber.number) s0 ops rs s :
  constructor cap = Ok s0 → run ops s0 = Some (rs, s) →
  _hits s = gets_that true ops rs ∧ _misses s = gets_that false ops rs.
Proof.
  intros Hc Hrun. destruct (reach_views _ _ _ _ _ Hc Hrun) as [Hv ->].
  pose proof (view_run_hits_and_misses ops (mkView [] cap 0 0 0)) as [E1 E2].
  cbn zeta in E1, E2. destruct (views_hits _ _ Hv) as [-> ->]. rewrite E1, E2. simpl.
  destruct (existsb is_reset ops); lia.
Qed.

End AccessCounters.

(** ** Nodes that left the chain *)

Section Unlinked.
  Import LRUCache.
  Context {K : Type} `{Countable K} {V : Type}.
  Implicit Types (s : LRUCache K V) (a : view K V) (o : op K V) (ops : list (op K V)).
  Implicit Types (ls : list loc) (x y : loc).

Lemma chain_unique (h : list (LRUNode K V)) hd tl ls ls' :
  is_chain h hd tl ls → is_chain h hd tl ls' → ls = ls'.
Proof.
  intros Hc Hc'. pose proof (walk_chain _ _ _ _ Hc). pose proof (walk_chain _ _ _ _ Hc').
  congruence.
Qed.

(** [removeNode] changes no link of a node outside of the chain. *)
Lemma removeNode_outside s l1 x l2 y :
  is_chain (heap s) (head s) (tail s) (l1 ++ x :: l2) → y ∉ l1 ++ x :: l2 →
  prev_of (heap (removeNode x s)) y = prev_of (heap s) y ∧
  next_of (heap (removeNode x s)) y = next_of (heap s) y.
Proof.
  intros (Hnd & Hd & Hhd & Htl) Hy.
  destruct (dseg_mid _ _ _ _ _ _ Hd) as (Hbx & Hpx & Hnx).
  assert (∀ z, last_or l1 None = Some z → z ∈ l1) as Hl1.
  { intros z Hz. by apply last_or_elem in Hz as [?|[_ [=]]]. }
  assert (∀ z, first_or l2 None = Some z → z ∈ l2) as Hf2.
  { intros z Hz. by apply first_or_elem in Hz as [?|[_ [=]]]. }
  destruct (removeNode_eq x s _ _ Hpx Hnx) as (Eh & _).
  { intros p' Hp' ->. apply Hl1 in Hp'. apply NoDup_app in Hnd as (_ & Hdisj & _).
    apply (Hdisj x Hp'). by left. }
  rewrite Eh. clear Eh.
  assert (x ≠ y) as Hxy by (intros ->; apply Hy; set_solver).
  rewrite prev_of_set_next, prev_of_set_prev_ne by done.
  rewrite next_of_set_next_ne, next_of_set_prev by done.
  destruct (first_or l2 None) as [n'|] eqn:E2; destruct (last_or l1 None) as [p'|] eqn:E1;
    unfold id.
  - assert (n' ≠ y) by (intros ->; apply Hy; specialize (Hf2 y eq_refl); set_solver).
    assert (p' ≠ y) by (intros ->; apply Hy; specialize (Hl1 y eq_refl); set_solver).
    by rewrite prev_of_set_prev_ne, prev_of_set_next, next_of_set_prev, next_of_set_next_ne.
  - assert (n' ≠ y) by (intros ->; apply Hy; specialize (Hf2 y eq_refl); set_solver).
    by rewrite prev_of_set_prev_ne, next_of_set_prev.
  - assert (p' ≠ y) by (intros ->; apply Hy; specialize (Hl1 y eq_refl); set_solver).
    by rewrite prev_of_set_next, next_of_set_next_ne.
  - done.
Qed.

(** [addToHead] changes the links of its node and of the head only. *)
Lemma addToHead_outside s x ls y :
  is_chain (heap s) (head s) (tail s) ls → y ≠ x → y ∉ ls →
  prev_of (heap (addToHead x s)) y = prev_of (heap s) y ∧
  next_of (heap (addToHead x s)) y = next_of (heap s) y.
Proof.
  intros (Hnd & Hd & Hhd & Htl) Hyx Hy.
  unfold addToHead. destruct s as [c m hd tl sz hi mi ev h]; simpl in *.
  assert (∀ z, hd = Some z → z ≠ y) as Hhdy.
  { intros z -> ->. apply Hy. symmetry in Hhd. by apply first_or_elem in Hhd as [?|[_ [=]]]. }
  destruct hd as [z|]; simpl; destruct tl; simpl.
  - rewrite prev_of_set_prev_ne by (by apply Hhdy).
    rewrite prev_of_set_next, prev_of_set_prev_ne by done.
    by rewrite next_of_set_prev, next_of_set_next_ne, next_of_set_prev by done.
  - rewrite prev_of_set_prev_ne by (by apply Hhdy).
    rewrite prev_of_set_next, prev_of_set_prev_ne by done.
    by rewrite next_of_set_prev, next_of_set_next_ne, next_of_set_prev by done.
  - rewrite prev_of_set_next, prev_of_set_prev_ne by done.
    by rewrite next_of_set_next_ne, next_of_set_prev by done.
  - rewrite prev_of_set_next, prev_of_set_prev_ne by done.
    by rewrite next_of_set_next_ne, next_of_set_prev by done.
Qed.

Lemma moveToHead_outside s l1 x l2 y :
  is_chain (heap s) (head s) (tail s) (l1 ++ x :: l2) → y ∉ l1 ++ x :: l2 →
  prev_of (heap (moveToHead x s)) y = prev_of (heap s) y ∧
  next_of (heap (moveToHead x s)) y = next_of (heap s) y.
Proof.
  intros Hc Hy. unfold moveToHead. case_decide; [done|].
  destruct (removeNode_chain s l1 x l2 Hc) as (Hc' & _).
  destruct (removeNode_outside s l1 x l2 y Hc Hy) as [<- <-].
  apply (addToHead_outside _ x (l1 ++ l2)); [done|set_solver|set_solver].
Qed.

Lemma links_out_of_range (h : list (LRUNode K V)) y :
  (length h ≤ y)%nat → prev_of h y = None ∧ next_of h y = None.
Proof. intros Hy. unfold prev_of, next_of. by rewrite lookup_ge_None_2. Qed.

(** The loop of [clear] only ever clears links. *)
Lemma clear_links_keeps_none fuel (h h' : list (LRUNode K V)) (current : option loc) y :
  clear_links fuel h current = Some h' →
  (prev_of h y = None → prev_of h' y = None) ∧ (next_of h y = None → next_of h' y = None).
Proof.
  revert h current. induction fuel as [|fuel IH]; intros h [c|] Hcl; simpl in Hcl;
    simplify_eq; try done.
  apply IH in Hcl as [Hp Hn].
  assert (length (set_next c None (set_prev c None h)) = length h) as Hlen.
  { by rewrite length_set_next, length_set_prev. }
  destruct (decide (y < length h)%nat) as [Hy|Hy].
  2:{ destruct (links_out_of_range (set_next c None (set_prev c None h)) y) as [? ?]; [lia|].
      split; intros _; auto. }
  split.
  - intros Hpy. apply Hp. rewrite prev_of_set_next. destruct (decide (c = y)) as [->|Hne].
    + rewrite prev_of_set_prev by done. by rewrite decide_True.
    + by rewrite prev_of_set_prev_ne.
  - intros Hny. apply Hn. destruct (decide (c = y)) as [->|Hne].
    + rewrite next_of_set_next by (by rewrite length_set_prev). by rewrite decide_True.
    + by rewrite next_of_set_next_ne, next_of_set_prev.
Qed.

Lemma removeNode_unlinked s l1 x l2 :
  is_chain (heap s) (head s) (tail s) (l1 ++ x :: l2) →
  unlinked_outside s (l1 ++ x :: l2) → unlinked_outside (removeNode x s) (l1 ++ l2).
Proof.
  intros Hc Hun y Hy. destruct (decide (y = x)) as [->|Hne].
  - by destruct (removeNode_chain s l1 x l2 Hc) as (_ & ? & ?).
  - assert (y ∉ l1 ++ x :: l2) as Hy' by set_solver.
    destruct (removeNode_outside s l1 x l2 y Hc Hy') as [-> ->]. by apply Hun.
Qed.

Lemma moveToHead_unlinked s l1 x l2 :
  is_chain (heap s) (head s) (tail s) (l1 ++ x :: l2) →
  unlinked_outside s (l1 ++ x :: l2) → unlinked_outside (moveToHead x s) (x :: l1 ++ l2).
Proof.
  intros Hc Hun y Hy. assert (y ∉ l1 ++ x :: l2) as Hy' by set_solver.
  destruct (moveToHead_outside s l1 x l2 y Hc Hy') as [-> ->]. by apply Hun.
Qed.

Lemma evictTail_unlinked s l1 t :
  is_chain (heap s) (head s) (tail s) (l1 ++ [t]) →
  unlinked_outside s (l1 ++ [t]) →
  is_chain (heap (evictTail s)) (head (evictTail s)) (tail (evictTail s)) l1 ∧
  unlinked_outside (evictTail s) l1.
Proof.
  intros Hc Hun. pose proof Hc as (_ & Hd & _ & Htl).
  assert (t < length (heap s))%nat as Hb by (eapply dseg_bound; [exact Hd|set_solver]).
  destruct (lookup_lt_is_Some_2 _ _ Hb) as [node Hnode].
  unfold evictTail. rewrite Htl, last_or_snoc. unfold key_of. rewrite Hnode. simpl.
  destruct (removeNode_chain s l1 t [] Hc) as (Hc' & _). rewrite app_nil_r in Hc'.
  pose proof (removeNode_unlinked s l1 t [] Hc Hun) as Hun'. rewrite app_nil_r in Hun'.
  split; [exact Hc'|exact Hun'].
Qed.

Lemma set_value_chain s x (v : V) ls :
  is_chain (heap s) (head s) (tail s) ls →
  is_chain (set_value x v (heap s)) (head s) (tail s) ls.
Proof.
  intros (Hnd & Hd & Hhd & Htl). split_and!; try done.
  apply (dseg_frame (heap s)); [done|unfold set_value; by rewrite length_alter|].
  intros y _. apply links_set_value.
Qed.

Lemma alloc_chain (h : list (LRUNode K V)) hd tl ls (node : LRUNode K V) :
  is_chain h hd tl ls → is_chain (h ++ [node]) hd tl ls.
Proof.
  intros (Hnd & Hd & Hhd & Htl). split_and!; try done.
  apply (dseg_frame h); [done|rewrite length_app; lia|].
  intros y Hy. pose proof (dseg_bound _ _ _ _ _ Hd Hy).
  by rewrite prev_of_alloc, next_of_alloc.
Qed.

(** A call leaves no link in a node outside of the chain when there was
    none before. *)
Lemma unlinked_step o s r s' ls ls' :
  inv s ls → unlinked_outside s ls → exec o s = Some (r, s') →
  is_chain (heap s') (head s') (tail s') ls' → unlinked_outside s' ls'.
Proof.
  intros [Hc Hidx _ _] Hun Hex Hc'.
  assert (∀ k x, cache s !! k = Some x → ∃ l1 l2, ls = l1 ++ x :: l2) as Hsplit.
  { intros k x Hx. apply Hidx in Hx as [Hx _]. by apply list_elem_of_split. }
  assert (∀ s1, heap s1 = heap s → head s1 = head s → tail s1 = tail s →
            is_chain (heap s1) (head s1) (tail s1) ls' → unlinked_outside s1 ls') as Hsame.
  { intros s1 E1 E2 E3 Hc1. rewrite E1, E2, E3 in Hc1.
    rewrite <- (chain_unique _ _ _ _ _ Hc Hc1). intros y Hy. rewrite E1. by apply Hun. }
  destruct o as [k|k v|k|k|k| | | |]; simpl in Hex.
  - (* get *)
    unfold get in Hex. destruct (cache s !! k) as [x|] eqn:Hx; simplify_eq.
    + destruct (Hsplit k x Hx) as (l1 & l2 & ->).
      set (s1 := set_hits (_hits s + 1) s) in *.
      rewrite (chain_unique _ _ _ _ _ Hc' (moveToHead_chain s1 l1 x l2 Hc)).
      by apply moveToHead_unlinked.
    + by apply Hsame.
  - (* put *)
    injection Hex as _ <-. unfold put in *. destruct (cache s !! k) as [x|] eqn:Hx.
    + destruct (Hsplit k x Hx) as (l1 & l2 & ->).
      set (s1 := set_heap (set_value x v (heap s)) s) in *.
      assert (is_chain (heap s1) (head s1) (tail s1) (l1 ++ x :: l2)) as Hc1.
      { exact (set_value_chain s x v _ Hc). }
      rewrite (chain_unique _ _ _ _ _ Hc' (moveToHead_chain s1 l1 x l2 Hc1)).
      apply moveToHead_unlinked; [done|]. intros y Hy.
      destruct (links_set_value x v (heap s) y) as [E1 E2]. unfold s1. cbn.
      rewrite E1, E2. by apply Hun.
    + set (x := length (heap s)) in *.
      set (s2 := set_cache _ (set_heap _ s)) in *.
      assert (is_chain (heap s2) (head s2) (tail s2) ls) as Hc2.
      { exact (alloc_chain _ _ _ _ _ Hc). }
      assert (x ∉ ls) as Hx'.
      { intros Hin. destruct Hc as (_ & Hd & _). pose proof (dseg_bound _ _ _ _ _ Hd Hin).
        unfold x in *. lia. }
      assert (x < length (heap s2))%nat as Hbx.
      { unfold s2, x. cbn. rewrite length_app. simpl. lia. }
      pose proof (addToHead_chain s2 x ls Hc2 Hx' Hbx) as Hc3.
      assert (unlinked_outside (addToHead x s2) (x :: ls)) as Hun3.
      { intros y Hy. apply not_elem_of_cons in Hy as [Hyx Hy].
        destruct (addToHead_outside s2 x ls y Hc2 Hyx Hy) as [-> ->].
        unfold s2. cbn. destruct (decide (y < length (heap s))%nat) as [Hlt|Hge].
        - rewrite prev_of_alloc, next_of_alloc by done. by apply Hun.
        - apply links_out_of_range. rewrite length_app. simpl. unfold x in Hyx. lia. }
      set (s4 := set_size _ (addToHead x s2)) in *.
      destruct (JSNumber.gt _ _).
      * destruct (exists_last (l := x :: ls)) as (l1 & t & El); [done|].
        rewrite El in Hc3, Hun3.
        destruct (evictTail_unlinked s4 l1 t Hc3 Hun3) as [Hc4 Hun4].
        by rewrite (chain_unique _ _ _ _ _ Hc' Hc4).
      * by rewrite (chain_unique _ _ _ _ _ Hc' Hc3).
  - by simplify_eq; apply Hsame.
  - (* delete *)
    unfold delete in Hex. destruct (cache s !! k) as [x|] eqn:Hx; simplify_eq.
    + destruct (Hsplit k x Hx) as (l1 & l2 & ->).
      destruct (removeNode_chain s l1 x l2 Hc) as (Hc1 & _).
      cbn in Hc'. rewrite (chain_unique _ _ _ _ _ Hc' Hc1).
      by apply (removeNode_unlinked s l1 x l2).
    + by apply Hsame.
  - by simplify_eq; apply Hsame.
  - by simplify_eq; apply Hsame.
  - by simplify_eq; apply Hsame.
  - (* clear *)
    unfold clear in Hex. destruct (clear_links _ _ _) as [h'|] eqn:Hcl; simpl in Hex; simplify_eq.
    cbn in *. intros y _.
    destruct (clear_links_keeps_none _ _ _ _ y Hcl) as [Hp Hn].
    destruct (decide (y ∈ ls)) as [Hin|Hnin].
    + destruct Hc as (Hnd & Hd & Hhd & _). rewrite Hhd in Hcl.
      destruct (clear_links_dseg (length (heap s)) (heap s) None ls Hnd Hd) as (h'' & Hcl' & _ & Hclr).
      { eapply is_chain_length. by split_and!. }
      rewrite Hcl in Hcl'. injection Hcl' as <-. by apply Hclr.
    + destruct (Hun y Hnin). split; [by apply Hp|by apply Hn].
  - by simplify_eq; apply Hsame.
Qed.

Lemma unlinked_run ops s a rs s' :
  views s a → (∀ ls, is_chain (heap s) (head s) (tail s) ls → unlinked_outside s ls) →
  run ops s = Some (rs, s') →
  ∀ ls', is_chain (heap s') (head s') (tail s') ls' → unlinked_outside s' ls'.
Proof.
  revert s a rs. induction ops as [|o ops IH]; intros s a rs Hv Hun Hrun; simpl in Hrun.
  - by simplify_eq.
  - destruct (refine_step o s a Hv) as (s1 & Hex & Hv1). rewrite Hex in Hrun. simpl in Hrun.
    destruct (run ops s1) as [[rs1 s2]|] eqn:Hrun1; simpl in Hrun; simplify_eq.
    apply (IH s1 _ rs1 Hv1); [|done]. intros ls1 Hc1.
    destruct Hv as (ls & Hinv & _). pose proof Hinv as [Hc _ _ _].
    apply (unlinked_step o s _ s1 ls ls1 Hinv (Hun ls Hc) Hex Hc1).
Qed.

(** X26.  A node that is not in the chain of a cache in use -- it was
    deleted, evicted or cleared -- holds no reference to another node:
    both its links are [null].  So nothing that left the cache keeps
    entries of the cache alive. *)
Theorem X26_nodes_outside_the_chain_hold_no_links (cap : JSNumber.number) s0 ops rs s :
  constructor cap = Ok s0 → run ops s0 = Some (rs, s) →
  ∃ ls, chain_nodes s = Some ls ∧
        ∀ y, y ∉ ls → prev_of (heap s) y = None ∧ next_of (heap s) y = None.
Proof.
  intros Hc Hrun. destruct (reach_views _ _ _ _ _ Hc Hrun) as [(ls & Hinv & _) _].
  pose proof Hinv as [Hch _ _ _]. exists ls. split; [apply (walk_chain _ _ _ _ Hch)|].
  apply (unlinked_run ops s0 _ rs s (views_constructor _ _ Hc)); [|done|done].
  intros ls0 _ y _. unfold constructor in Hc. destruct (JSNumber.le _ _); [done|].
  injection Hc as <-. apply links_out_of_range. simpl. lia.
Qed.

End Unlinked.

(** ** More concrete runs *)

Section CacheRuns.
  Import LRUCache.
  Open Scope string_scope.
  Open Scope Z_scope.

Lemma X1_delete_takes_out_its_key_only_witness :
  let s := abca in
  let k := "c" in
  (delete k s).1 = (has k s).1 ∧
  ((delete k s).1 = false → (delete k s).2 = s) ∧
  (has k (delete k s).2).1 = false ∧ (peek k (delete k s).2).1 = None ∧
  (∀ k', k' ≠ k → (peek k' (delete k s).2).1 = (peek k' s).1) ∧
  keys (delete k s).2 = (λ ks : list string, filter (λ k', k' ≠ k) ks) <$> keys s ∧
  _size (delete k s).2 = _size s - (if (delete k s).1 then 1 else 0) ∧
  _hits (delete k s).2 = _hits s ∧ _misses (delete k s).2 = _misses s ∧
  _evictions (delete k s).2 = _evictions s ∧ capacity (delete k s).2 = capacity s.
Proof.
  apply (X1_delete_takes_out_its_key_only (JSNumber.of_Z 3) cache3 abca_ops abca_rets);
    vm_compute; reflexivity.
Defined.

Lemma X2_get_returns_the_value_and_promotes_witness :
  let s := abca in
  let k := "b" in
  (get k s).1 = (peek k s).1 ∧
  (∀ k', (peek k' (get k s).2).1 = (peek k' s).1) ∧
  keys (get k s).2 =
    (λ ks : list string, if (has k s).1 then k :: filter (λ k', k' ≠ k) ks else ks) <$> keys s ∧
  _hits (get k s).2 = _hits s + (if (has k s).1 then 1 else 0) ∧
  _misses (get k s).2 = _misses s + (if (has k s).1 then 0 else 1) ∧
  _size (get k s).2 = _size s ∧ _evictions (get k s).2 = _evictions s ∧
  capacity (get k s).2 = capacity s.
Proof.
  apply (X2_get_returns_the_value_and_promotes (JSNumber.of_Z 3) cache3 abca_ops abca_rets);
    vm_compute; reflexivity.
Defined.

Lemma X3_clear_leaves_a_new_cache_witness :
  let s := abca in
  let s0 := cache3 in
  let ops' := [Put "x" 7; Get "a"; Get "x"] in
  ∃ s1, clear s = Some s1 ∧
        _size s1 = 0 ∧ keys s1 = Some [] ∧ capacity s1 = JSNumber.of_Z 3 ∧
        _hits s1 = 0 ∧ _misses s1 = 0 ∧ _evictions s1 = 0 ∧
        (∀ k, (has k s1).1 = false) ∧
        ∃ rs' sa sb, run ops' s1 = Some (rs', sa) ∧ run ops' s0 = Some (rs', sb) ∧
                     entries sa = entries sb ∧ _size sa = _size sb ∧
                     _hits sa = _hits sb ∧ _misses sa = _misses sb ∧
                     _evictions sa = _evictions sb.
Proof.
  apply (X3_clear_leaves_a_new_cache (JSNumber.of_Z 3) cache3 abca_ops abca_rets);
    vm_compute; reflexivity.
Defined.

Lemma X4_values_are_those_last_put_witness :
  let s := abca in
  let ops := abca_ops in
  let k := "b" in
  let v := 2 in
  ((peek k s).1 = Some v → last_put k ops = Some v) ∧
  ((get k s).1 = Some v → last_put k ops = Some v).
Proof.
  apply (X4_values_are_those_last_put (JSNumber.of_Z 3) cache3 abca_ops abca_rets);
    vm_compute; reflexivity.
Defined.

Lemma X5_size_within_any_capacity_witness :
  let cap := JSNumber.Finite (5 # 2) in
  let s0 := mkLRUCache cap ∅ None None 0 0 0 0 [] in
  let ops := [Put "a" 1; Put "b" 2; Put "c" 3; Get "a"; Put "d" 4] in
  ∃ rs s, run ops s0 = Some (rs, s) ∧
          0 ≤ _size s ∧ JSNumber.gt (JSNumber.of_Z (_size s)) cap = false.
Proof.
  apply (X5_size_within_any_capacity (JSNumber.Finite (5 # 2))). reflexivity.
Defined.


Lemma X7_put_then_get_round_trip_witness :
  let c := 3 in
  let s := abca in
  let k := "d" in
  let v := 4 in
  (get k (put k v s)).1 = Some v ∧ (peek k (put k v s)).1 = Some v ∧
  (has k (put k v s)).1 = true ∧ (getMostRecent (put k v s)).1 = Some (k, v) ∧
  _size (put k v s) = (if (has k s).1 then _size s else Z.min c (_size s + 1)) ∧
  (∀ k' v', k' ≠ k → (peek k' (put k v s)).1 = Some v' → (peek k' s).1 = Some v') ∧
  _hits (put k v s) = _hits s ∧ _misses (put k v s) = _misses s.
Proof.
  apply (X7_put_then_get_round_trip 3 cache3 abca_ops abca_rets); vm_compute; reflexivity.
Defined.

Lemma X8_recent_keys_outlive_later_calls_witness :
  let s := abca in
  let k := "c" in
  let ops' := [Put "d" 4; Has "b"; Delete "a"] in
  ∃ rs' s', run ops' s = Some (rs', s') ∧ (has k s').1 = true.
Proof.
  apply (X8_recent_keys_outlive_later_calls 3 cache3 abca_ops abca_rets abca "c" ["a"] ["b"]).
  - reflexivity.
  - vm_compute; reflexivity.
  - vm_compute; reflexivity.
  - repeat constructor. discriminate.
  - vm_compute; reflexivity.
Defined.

Lemma X9_isEmpty_and_isFull_witness :
  let c := 3 in
  let s := abca in
  (isEmpty s = true ↔ keys s = Some []) ∧
  (isEmpty s = true ↔ (getMostRecent s).1 = None) ∧
  (isFull s = true ↔ _size s = c) ∧
  (isFull s = false →
   ∀ k v, _evictions (put k v s) = _evictions s ∧
          ∀ k', (has k' s).1 = true → (has k' (put k v s)).1 = true).
Proof.
  apply (X9_isEmpty_and_isFull 3 cache3 abca_ops abca_rets); vm_compute; reflexivity.
Defined.

Lemma X10_contains_finds_the_values_of_the_chain_witness :
  let s := abca in
  let v := 2 in
  ∃ vs, toArray s = Some vs ∧ contains v s = existsb (λ v', strict_eq v' v) vs.
Proof.
  apply (X10_contains_finds_the_values_of_the_chain (JSNumber.of_Z 3) cache3 abca_ops abca_rets);
    vm_compute; reflexivity.
Defined.

Lemma X11_getStats_is_a_snapshot_within_bounds_witness :
  let c := 3 in
  let s := abca in
  stats_size (getStats s) = size s ∧ stats_capacity (getStats s) = JSNumber.of_Z c ∧
  stats_hits (getStats s) = hits s ∧ stats_misses (getStats s) = misses s ∧
  stats_evictions (getStats s) = evictions s ∧ stats_hitRate (getStats s) = hitRate s ∧
  stats_utilization (getStats s) = JSNumber.Finite (inject_Z (_size s) / inject_Z c) ∧
  (0 <= inject_Z (_size s) / inject_Z c)%Q ∧ (inject_Z (_size s) / inject_Z c <= 1)%Q ∧
  ((inject_Z (_size s) / inject_Z c == 1)%Q ↔ isFull s = true) ∧
  (0 <= hitRate s)%Q ∧ (hitRate s <= 1)%Q.
Proof.
  apply (X11_getStats_is_a_snapshot_within_bounds 3 cache3 abca_ops abca_rets);
    vm_compute; reflexivity.
Defined.

(** X12 with a callback that reads the cache: it notes the index, the
    key, the value and whether the cache has the key. *)
Lemma X12_forEach_visits_the_entries_in_order_witness :
  let s := abca in
  let effect := λ (v : Z) (k : string) (i : Z) (w : list (Z * string * Z * bool)),
                  (w ++ [(i, k, v, (has k s).1)])%list in
  let callback := λ (v : Z) (k : string) (i : Z) (w : list (Z * string * Z * bool))
                    (s' : LRUCache string Z),
                    Some (Ok ((w ++ [(i, k, v, (has k s').1)])%list, (has k s').2)) in
  let w := [] in
  let fuel := 3%nat in
  ∃ es, entries s = Some es ∧
        forEach fuel callback s w =
          Some (Ok (fold_left (λ w '(i, (k, v)), effect v k (Z.of_nat i) w) (imap pair es) w, s)).
Proof.
  apply (X12_forEach_visits_the_entries_in_order (JSNumber.of_Z 3) cache3 abca_ops abca_rets).
  - reflexivity.
  - vm_compute; reflexivity.
  - intros v k i w. reflexivity.
  - vm_compute. discriminate.
Defined.

(** What [forEach] does with a callback that changes the cache it is
    called from.  One that deletes the key it is given is called for the
    first entry only: [delete] clears the links of the node the loop is at.  One
    that [get]s the key it is given moves that node to the head, and the
    loop goes round the first two entries: it has not ended after 1000
    calls. *)
Example forEach_with_a_callback_that_changes_the_cache :
  forEach 3 (λ (v : Z) (k : string) (i : Z) (w : list string) s',
               Some (Ok ((w ++ [k])%list, (delete k s').2))) abca []
    = Some (Ok (["a"], (delete "a" abca).2)) ∧
  forEach 1000 (λ (v : Z) (k : string) (i : Z) (w : nat) s',
                  Some (Ok (S w, (get k s').2))) abca 0%nat
    = None.
Proof. split; vm_compute; reflexivity. Qed.

Lemma X13_naive_cache_agrees_with_the_cache_witness :
  let c := 3 in
  let s0 := cache3 in
  let ops := naive_ops in
  ∃ rs s, run (NaiveLRUCache.on_cache <$> ops) s0 = Some (rs, s) ∧
          NaiveLRUCache.got
            (NaiveLRUCache.run ops (NaiveLRUCache.constructor (JSNumber.of_Z c))).1 =
            NaiveLRUCache.got rs ∧
          keys s =
            Some (reverse (NaiveLRUCache.order
               (NaiveLRUCache.run ops (NaiveLRUCache.constructor (JSNumber.of_Z c))).2)) ∧
          ∀ k, NaiveLRUCache.cache
                 (NaiveLRUCache.run ops (NaiveLRUCache.constructor (JSNumber.of_Z c))).2 !! k =
               (peek k s).1.
Proof.
  apply (X13_naive_cache_agrees_with_the_cache 3 cache3).
  - intros k k' E. by apply String.eqb_eq in E.
  - reflexivity.
  - reflexivity.
Defined.

(** With a stored [undefined] the two classes differ: the [get] of the
    naive class does not move its key, and with capacity 2, after [put a undefined],
    [put b], [get a], [put c], the naive class has evicted [a] and the
    cache [b]. *)
Example naive_cache_with_a_stored_undefined :
  let ops := [NaiveLRUCache.Put "a" None; NaiveLRUCache.Put "b" (Some 1);
              NaiveLRUCache.Get "a"; NaiveLRUCache.Put "c" (Some 2)] in
  NaiveLRUCache.order (NaiveLRUCache.run ops (NaiveLRUCache.constructor (JSNumber.of_Z 2))).2
    = ["b"; "c"] ∧
  ∃ rs s, run (NaiveLRUCache.on_cache <$> ops)
              (mkLRUCache (JSNumber.of_Z 2) ∅ None None 0 0 0 0 []) = Some (rs, s) ∧
          keys s = Some ["c"; "a"].
Proof. split; [vm_compute; reflexivity|]. eexists _, _. split; vm_compute; reflexivity. Qed.

Lemma X25_hits_and_misses_count_the_outcomes_of_get_witness :
  let ops := (abca_ops ++ [Get "z"; Get "b"])%list in
  let rs := (abca_rets ++ [RValue None; RValue (Some 2)])%list in
  let s := (get "b" (get "z" abca).2).2 in
  _hits s = gets_that true ops rs ∧ _misses s = gets_that false ops rs.
Proof.
  apply (X25_hits_and_misses_count_the_outcomes_of_get (JSNumber.of_Z 3) cache3);
    vm_compute; reflexivity.
Defined.

Lemma X26_nodes_outside_the_chain_hold_no_links_witness :
  let s := (delete "c" (put "d" 4 abca)).2 in
  ∃ ls, chain_nodes s = Some ls ∧
        ∀ y, y ∉ ls → prev_of (heap s) y = None ∧ next_of (heap s) y = None.
Proof.
  apply (X26_nodes_outside_the_chain_hold_no_links (JSNumber.of_Z 3) cache3
           (abca_ops ++ [Put "d" 4; Delete "c"])%list (abca_rets ++ [RThis; RBool true])%list);
    vm_compute; reflexivity.
Defined.

End CacheRuns.

Section ListRuns.
  Import DoublyLinkedList.
  Open Scope Z_scope.


(** On the list 5, 10, 20: [get(2)] is 20 and [get(3)] [undefined];
    [get(1.5)] walks from the tail and returns 10, [get(0.5)] walks from
    the head and returns 10 as well, and [get(NaN)] returns 20. *)
Example get_at_some_numbers :
  get (JSNumber.of_Z 2) list3 = Some (Ok (Some 20)) ∧
  get (JSNumber.of_Z 3) list3 = Some (Ok None) ∧
  get (JSNumber.Finite (3 # 2)) list3 = Some (Ok (Some 10)) ∧
  get (JSNumber.Finite (1 # 2)) list3 = Some (Ok (Some 10)) ∧
  get JSNumber.NaN list3 = Some (Ok (Some 20)).
Proof. split_and!; vm_compute; reflexivity. Qed.

(** [removeAt] at a number that is no integer.  On the list 1, 2,
    [removeAt(0.5)] passes the test of the bounds, is neither
    the first nor the last index, takes out the node that [getNodeAt(0.5)]
    stops at, which is the last one, and leaves [tail] on it: it returns
    2 and [toArray()] is then 1, but after [addFirst(0)] a [removeLast()]
    returns 2 once more. *)
Example removeAt_at_a_number_that_is_no_integer :
  let d := addLast 2 (addLast 1 (constructor Z.eqb)) in
  ∃ d', removeAt (JSNumber.Finite (1 # 2)) d = Some (Ok (Some 2, d')) ∧
        toArray d' = Some [1] ∧ size d' = 1 ∧ tail d' = tail d ∧
        (removeLast (addFirst 0 d')).1 = Some 2.
Proof. eexists. split_and!; vm_compute; reflexivity. Qed.

Lemma X16_contains_tests_every_value_witness :
  let d := list3 in
  let element := 10 in
  ∃ vs, toArray d = Some vs ∧
        contains element d = Some (existsb (λ v, Z.eqb v element) vs).
Proof.
  apply (X16_contains_tests_every_value Z.eqb list3_ops list3_rets). reflexivity.
Defined.

(** X17, with a callback of [forEach] that reads the list: it adds up
    the products of the values with their indices and with the size. *)
Lemma X17_map_filter_and_forEach_follow_the_sequence_witness :
  let d := list3 in
  let f := λ (v i : Z), v * 2 + i in
  let p := λ (v i : Z), 5 <? v + i in
  let g := λ (v i : Z) (w : Z), w + v * i * size d in
  let callback := λ (v i : Z) (w : Z) (d' : DoublyLinkedList Z),
                    Some (Ok (w + v * i * size d', d')) in
  let w := 0 in
  ∃ vs, toArray d = Some vs ∧
        map f d = Some (imap (λ i v, f v (Z.of_nat i)) vs) ∧
        filter p d =
          Some (base.filter (λ iv, p iv.2 (Z.of_nat iv.1) = true) (imap pair vs)).*2 ∧
        forEach 3 callback d w =
          Some (Ok (fold_left (λ w '(i, v), g v (Z.of_nat i) w) (imap pair vs) w, d)).
Proof.
  cbv zeta.
  destruct (X17_map_filter_and_forEach_follow_the_sequence Z.eqb list3_ops list3_rets list3
              (λ v i, v * 2 + i) (λ v i, 5 <? v + i) (λ v i w, w + v * i * size list3) 0 eq_refl)
    as (vs & Ha & Hm & Hf & Hfe).
  exists vs. split; [exact Ha|]. split; [exact Hm|]. split; [exact Hf|].
  apply Hfe; [reflexivity|]. vm_compute in Ha. injection Ha as <-. simpl. lia.
Defined.

(** What [forEach] does with a callback that changes the list it is
    called from.  One that appends a value while the list has fewer than six is
    called for the values it appended too; one that clears the list is
    called once: [clear] clears the links of the node the loop is at. *)
Example forEach_with_a_callback_that_changes_the_list :
  (∃ d', forEach 10 (λ (v i : Z) (w : list Z) d',
                       Some (Ok ((w ++ [v])%list, if size d' <? 6 then addLast (v + 1) d' else d')))
                 list3 []
           = Some (Ok ([5; 10; 20; 6; 11; 21], d')) ∧
         toArray d' = Some [5; 10; 20; 6; 11; 21]) ∧
  (∃ d', forEach 10 (λ (v i : Z) (w : list Z) d',
                       match clear d' with
                       | Some d' => Some (Ok ((w ++ [v])%list, d'))
                       | None => None
                       end)
                 list3 []
           = Some (Ok ([5], d')) ∧
         toArray d' = Some []).
Proof. split; eexists; split; vm_compute; reflexivity. Qed.

Lemma X18_some_and_every_quantify_over_the_sequence_witness :
  let d := list3 in
  let p := λ (v i : Z), 5 <? v + i in
  ∃ vs bs be, toArray d = Some vs ∧ some p d = Some bs ∧ every p d = Some be ∧
    (bs = true ↔ ∃ (i : nat) v, vs !! i = Some v ∧ p v (Z.of_nat i) = true) ∧
    (be = true ↔ ∀ (i : nat) v, vs !! i = Some v → p v (Z.of_nat i) = true) ∧
    (vs = [] → bs = false ∧ be = true) ∧
    some (λ v i, negb (p v i)) d = Some (negb be).
Proof.
  apply (X18_some_and_every_quantify_over_the_sequence Z.eqb list3_ops list3_rets). reflexivity.
Defined.

Lemma X19_clear_unlinks_every_node_witness :
  let d := list3 in
  let ops' := [AddFirst 1; AddLast 2; RemoveAt 0] in
  ∃ ls d', wf d ls ∧ clear d = Some d' ∧
           (∀ y, y ∈ ls → prev_of (heap d') y = None ∧ next_of (heap d') y = None) ∧
           toArray d' = Some [] ∧ size d' = 0 ∧ head d' = None ∧ tail d' = None ∧
           ∃ rs' da db, run ops' d' = Some (Ok (rs', da)) ∧
                        run ops' (constructor Z.eqb) = Some (Ok (rs', db)) ∧
                        toArray da = toArray db ∧ size da = size db.
Proof.
  apply (X19_clear_unlinks_every_node Z.eqb list3_ops list3_rets). reflexivity.
Defined.

Lemma X20_add_then_remove_at_either_end_witness :
  let d := list3 in
  let v := 7 in
  ∃ vs, toArray d = Some vs ∧
        (removeFirst (addFirst v d)).1 = Some v ∧
        toArray (removeFirst (addFirst v d)).2 = Some vs ∧
        (removeLast (addLast v d)).1 = Some v ∧
        toArray (removeLast (addLast v d)).2 = Some vs ∧
        (removeFirst (addLast v d)).1 = list.head (vs ++ [v]) ∧
        (removeLast (addFirst v d)).1 = last (v :: vs).
Proof.
  apply (X20_add_then_remove_at_either_end Z.eqb list3_ops list3_rets). reflexivity.
Defined.

Lemma X21_default_equality_never_finds_NaN_witness :
  let d := numbers in
  let x := JSNumber.of_Z 2 in
  contains JSNumber.NaN d = Some false ∧
  contains JSNumber.NaN (addLast JSNumber.NaN d) = Some false ∧
  (x ≠ JSNumber.NaN → contains x (addLast x d) = Some true).
Proof.
  apply (X21_default_equality_never_finds_NaN numbers_ops [None; None]). reflexivity.
Defined.

End ListRuns.
